(** * EVE inventory manager: authentication and synchronisation engine

    A shallow embedding of the main-process code (ESIAuthManager, AuthStore,
    CharacterService, AssetService, DatabaseManager, ESIClient,
    EnhancedESIClient) and of the renderer's code (Inventory.tsx), followed
    by the properties of the engine, stated and proved over the embedding.

    The first part has one module per source file, with the names of the
    source; the second part has one module of facts per component.

    Conventions.
    - JavaScript [number]s that hold identifiers, timestamps and counts are
      [Z]; the security status of a solar system and the result of
      [parseInt] are IEEE binary64 [float]s.
    - [string | null] and optional fields are [option]; truthiness is spelled
      out ([truthyS], [truthyN]).
    - A [throw] is the [Throw] result; the thrown value keeps the message of
      [new Error(msg)], or the status of the response for an axios error.
    - An [async] method is a computation [M A] on the state of the process
      ([World]); [await] is sequencing.  [Date.now()] is a parameter [now] of
      the method that reads it.
    - The network is scripted: every request consumes the next scripted
      reply of its endpoint, and an exhausted script is a network failure.
      Every request sent is recorded in a log.
    - A [select] without [orderBy] returns the rows it matches in an order
      of the database engine's choosing ([Db.Engine]).
    - Calls of [console.log] and the like are left out. *)

From Stdlib Require Import ZArith Ascii String DecimalString Floats Lia.
From stdpp Require Import gmap strings list sorting.
From Equations Require Import Equations.

Open Scope string_scope.
Open Scope list_scope.
Open Scope Z_scope.

(* ===================================================================== *)
(** * JavaScript values *)
(* ===================================================================== *)

Module Js.

(** Truthiness of [string | null | undefined]: the empty string is falsy. *)
Definition truthyS (s : option string) : bool :=
  match s with
  | Some s => negb (String.eqb s "")
  | None => false
  end.

(** Truthiness of [number | undefined] (integers only): zero is falsy. *)
Definition truthyN (n : option Z) : bool :=
  match n with
  | Some n => negb (Z.eqb n 0)
  | None => false
  end.

(** [a || b] on values whose truthiness is [t]. *)
Definition or {A} (t : option A → bool) (a b : option A) : option A :=
  if t a then a else b.

(** [String(n)] for an integer [n]. *)
Definition showZ (z : Z) : string := NilZero.string_of_int (Z.to_int z).

(** A number or a string inside a template literal; [undefined] prints as
    the word. *)
Definition tplN (n : option Z) : string :=
  match n with Some n => showZ n | None => "undefined" end.

Definition tplS (s : option string) : string :=
  match s with Some s => s | None => "undefined" end.

(** [String.prototype.includes]. *)
Fixpoint includes (needle s : string) : bool :=
  String.prefix needle s
  || match s with
     | EmptyString => false
     | String _ s' => includes needle s'
     end.

(** The value a [throw] carries. *)
Inductive Error : Type :=
| JsError (message : string)
| AxiosError (status : option Z).

Inductive Result (A : Type) : Type :=
| Ok (a : A)
| Throw (e : Error).
Global Arguments Ok {A} a.
Global Arguments Throw {A} e.

Definition isOk {A} (r : Result A) : bool :=
  match r with Ok _ => true | Throw _ => false end.

(** ** [parseInt(s, 10)] *)

(** The white space [parseInt] skips, among the characters of a header
    (code units below 256): tab, line feed, vertical tab, form feed,
    carriage return, space and no-break space. *)
Definition isWhiteSpace (c : ascii) : bool :=
  let n := Z.of_N (N_of_ascii c) in
  ((9 <=? n) && (n <=? 13)) || (n =? 32) || (n =? 160).

Fixpoint skipWhiteSpace (s : string) : string :=
  match s with
  | String c s' => if isWhiteSpace c then skipWhiteSpace s' else s
  | EmptyString => s
  end.

Definition digitOf (c : ascii) : option Z :=
  let n := Z.of_N (N_of_ascii c) in
  if (48 <=? n) && (n <=? 57) then Some (n - 48) else None.

(** The integer written by the longest prefix of decimal digits, if there
    is a digit. *)
Fixpoint digits (acc : option Z) (s : string) : option Z :=
  match s with
  | String c s' =>
      match digitOf c with
      | Some d => digits (Some (10 * default 0 acc + d)) s'
      | None => acc
      end
  | EmptyString => acc
  end.

(** The Number of an integer: the nearest binary64, ties to even. *)
Definition ofInteger (n : Z) : float := SF2Prim (binary_normalize prec emax n 0 false).

(** [parseInt(s, 10)]: leading white space, a sign, decimal digits; what
    follows the digits is ignored, and the result is [NaN] when there is no
    digit. *)
Definition parseInt (s : string) : float :=
  let s := skipWhiteSpace s in
  let '(negative, s) :=
    match s with
    | String "-" s' => (true, s')
    | String "+" s' => (false, s')
    | _ => (false, s)
    end in
  match digits None s with
  | Some n => if negative then (- ofInteger n)%float else ofInteger n
  | None => nan
  end.

End Js.
Import Js.

(* ===================================================================== *)
(** * ESIClient: the dispatch queue (esi-client.ts, lines 83-111) *)
(* ===================================================================== *)

Module RateLimit.

(** A queued entry is the [resolve] callback of one pending request; it is
    identified by the request it belongs to. *)
Definition Resolver := nat.

Record State : Type := mkState {
  rateLimitQueue : list Resolver;
  isProcessingQueue : bool;
  (* [setTimeout] callbacks scheduled and not yet run *)
  timers : nat;
  (* the resolvers called so far, in the order of the calls *)
  released : list Resolver
}.

Definition init : State := mkState [] false 0 [].

(** [processRateLimitQueue] up to the scheduling of the timer. *)
Definition processRateLimitQueue (s : State) : State :=
  if isProcessingQueue s || bool_decide (rateLimitQueue s = []) then s
  else
    match rateLimitQueue s with
    | next :: rest =>
        (* next(); setTimeout(..., 1000 / DEFAULT) *)
        mkState rest true (S (timers s)) (released s ++ [next])
    | [] =>
        mkState [] false (timers s) (released s)
    end.

(** [addToRateLimitQueue]: push the resolver, then process. *)
Definition addToRateLimitQueue (r : Resolver) (s : State) : State :=
  processRateLimitQueue
    (mkState (rateLimitQueue s ++ [r]) (isProcessingQueue s) (timers s) (released s)).

(** The timer callback: clear the flag, then process. *)
Definition timerCallback (s : State) : State :=
  match timers s with
  | O => s
  | S n =>
      processRateLimitQueue (mkState (rateLimitQueue s) false n (released s))
  end.

(** What the event loop can run next: a caller's request reaching the
    request interceptor, or a due timer. *)
Inductive Event : Type :=
| Admit (r : Resolver)
| TimerFires.

Definition step (s : State) (e : Event) : State :=
  match e with
  | Admit r => addToRateLimitQueue r s
  | TimerFires => timerCallback s
  end.

Definition run (evs : list Event) : State := fold_left step evs init.

(** The requests admitted by a schedule, in admission order. *)
Definition admitted (evs : list Event) : list Resolver :=
  omap (λ e, match e with Admit r => Some r | TimerFires => None end) evs.

(** The timer callbacks in a schedule. *)
Definition firings (evs : list Event) : nat :=
  length (List.filter (λ e, match e with TimerFires => true | Admit _ => false end) evs).

(** The flag is set exactly while a timer is pending, and nothing waits
    while it is clear. *)
Definition Paced (s : State) : Prop :=
  (isProcessingQueue s = true → timers s = 1%nat)
  ∧ (isProcessingQueue s = false → timers s = 0%nat ∧ rateLimitQueue s = []).

End RateLimit.

(* ===================================================================== *)
(** * The main process: data (types.ts, schema.ts) *)
(* ===================================================================== *)

Module Types.

Record EVEAuthTokens : Type := {
  tok_access_token : string;
  tok_refresh_token : string;
  tok_expires_in : Z;
  tok_token_type : string;
  tok_scope : string
}.

Record EVEError : Type := {
  error : string;
  error_description : option string
}.

Record StoredCharacterAuth : Type := {
  character_id : Z;
  character_name : string;
  access_token : string;
  refresh_token : string;
  token_expires : Z;
  scopes : list string;
  last_updated : Z
}.

Record EVEAsset : Type := {
  item_id : Z;
  type_id : Z;
  quantity : Z;
  location_id : Z;
  location_flag : string;
  location_type : string;
  is_singleton : bool;
  is_blueprint_copy : option bool
}.

(** A row of [characters] (the columns the engine reads or writes). *)
Record Character : Type := {
  characterId : Z;
  characterName : string;
  accessToken : option string;
  refreshToken : option string;
  tokenExpires : Z;
  lastSync : option Z;
  updatedAt : Z
}.

(** [NewCharacterAsset]: a row of [character_assets] before it gets its
    [id]. *)
Record NewCharacterAsset : Type := {
  na_characterId : Z;
  na_itemId : Z;
  na_typeId : Z;
  na_quantity : Z;
  na_locationId : Z;
  na_locationFlag : string;
  na_locationType : string;
  na_isSingleton : bool;
  na_isBlueprintCopy : bool;
  na_syncedAt : Z
}.

(** [CharacterAsset]: a stored row, with the AUTOINCREMENT [id]. *)
Record CharacterAsset : Type := {
  id : Z;
  columns : NewCharacterAsset
}.

(** A row of [item_types] (the columns the engine reads). *)
Record ItemType : Type := {
  it_typeId : Z;
  it_name : string
}.

(** The sqlite database behind drizzle. *)
Record Database : Type := {
  characters_table : list Character;
  characterAssets : list CharacterAsset;
  itemTypes : list ItemType;
  (* the next value of the AUTOINCREMENT column of [character_assets] *)
  next_id : Z
}.

(** Replies of the provider's token endpoint ([axios.post]). *)
Inductive TokenReply : Type :=
| TokenOk (t : EVEAuthTokens)
| TokenHttpError (e : EVEError)
| TokenNetError (text : string).

(** Replies of [https://login.eveonline.com/oauth/verify]. *)
Record VerifyData : Type := {
  CharacterID : Z;
  CharacterName : option string;
  Scopes : option string
}.

Inductive VerifyReply : Type :=
| VerifyOk (d : VerifyData)
| VerifyHttpError (text : string)
| VerifyNetError (text : string).

(** The body of an ESI reply, at the types the callers read it. *)
Record StructureInfo : Type := {
  si_name : string;
  si_type_id : Z;
  si_system_id : Z
}.

Inductive EsiData : Type :=
| AssetsData (l : list EVEAsset)
| StructureData (s : StructureInfo)
| NoData.

Record EsiReply : Type := {
  status : Z;
  retry_after : option string;
  data : EsiData
}.

(** The axios request config, with the two custom properties of the
    response interceptor. *)
Record Request : Type := {
  endpoint : string;
  Authorization : option string;
  _characterId : option Z;
  _retry : bool
}.

(** What the process sends to the outside, in order, and the timers it
    waits for between two requests: [Sleep ms] is
    [setTimeout(resolve, ms)], with [ms] the number it is given. *)
Inductive NetCall : Type :=
| PostToken (grant_type : string) (secret : string) (code_verifier : option string)
| GetVerify (bearer : string)
| EsiGet (r : Request)
| Sleep (milliseconds : float).

End Types.
Import Types.

(* ===================================================================== *)
(** * The main process: state and effects *)
(* ===================================================================== *)

Module Effects.

Record World : Type := mkWorld {
  (* ESIAuthManager: the PKCE session *)
  codeVerifier : option string;
  authState : option string;
  (* AuthStore: the electron-store file *)
  characters : gmap Z StoredCharacterAuth;
  last_selected_character : option Z;
  (* db.ts: the module variable [db], and the database file it loads *)
  db : option Database;
  dbFile : Database;
  (* the scripted replies of the three remote endpoints *)
  tokenEndpoint : list TokenReply;
  verifyEndpoint : list VerifyReply;
  esiEndpoint : list EsiReply;
  (* the requests sent so far *)
  log : list NetCall
}.

Definition set_session (cv st : option string) (w : World) : World :=
  mkWorld cv st (characters w) (last_selected_character w) (db w) (dbFile w)
    (tokenEndpoint w) (verifyEndpoint w) (esiEndpoint w) (log w).

Definition set_store (cs : gmap Z StoredCharacterAuth) (sel : option Z) (w : World) : World :=
  mkWorld (codeVerifier w) (authState w) cs sel (db w) (dbFile w)
    (tokenEndpoint w) (verifyEndpoint w) (esiEndpoint w) (log w).

Definition set_db (d : option Database) (w : World) : World :=
  mkWorld (codeVerifier w) (authState w) (characters w) (last_selected_character w) d (dbFile w)
    (tokenEndpoint w) (verifyEndpoint w) (esiEndpoint w) (log w).

Definition set_tokenEndpoint (l : list TokenReply) (w : World) : World :=
  mkWorld (codeVerifier w) (authState w) (characters w) (last_selected_character w) (db w) (dbFile w)
    l (verifyEndpoint w) (esiEndpoint w) (log w).

Definition set_verifyEndpoint (l : list VerifyReply) (w : World) : World :=
  mkWorld (codeVerifier w) (authState w) (characters w) (last_selected_character w) (db w) (dbFile w)
    (tokenEndpoint w) l (esiEndpoint w) (log w).

Definition set_esiEndpoint (l : list EsiReply) (w : World) : World :=
  mkWorld (codeVerifier w) (authState w) (characters w) (last_selected_character w) (db w) (dbFile w)
    (tokenEndpoint w) (verifyEndpoint w) l (log w).

Definition send (c : NetCall) (w : World) : World :=
  mkWorld (codeVerifier w) (authState w) (characters w) (last_selected_character w) (db w) (dbFile w)
    (tokenEndpoint w) (verifyEndpoint w) (esiEndpoint w) (log w ++ [c]).

(** Computations of the main process: a result or a thrown error, and the
    world after. *)
Definition M (A : Type) : Type := World → Result A * World.

Definition ret {A} (a : A) : M A := λ w, (Ok a, w).

Definition throw {A} (e : Error) : M A := λ w, (Throw e, w).

Definition bind {A B} (m : M A) (k : A → M B) : M B :=
  λ w, match m w with
       | (Ok a, w') => k a w'
       | (Throw e, w') => (Throw e, w')
       end.

(** [try { m } catch (e) { h e }] *)
Definition tryCatch {A} (m : M A) (h : Error → M A) : M A :=
  λ w, match m w with
       | (Ok a, w') => (Ok a, w')
       | (Throw e, w') => h e w'
       end.

Definition read : M World := λ w, (Ok w, w).

Definition update (f : World → World) : M unit := λ w, (Ok tt, f w).

(** A world with nothing stored, nothing scripted and nothing sent. *)
Definition emptyDatabase : Database :=
  {| characters_table := []; characterAssets := []; itemTypes := []; next_id := 1 |}.

Definition emptyWorld : World :=
  mkWorld None None ∅ None None emptyDatabase [] [] [] [].

End Effects.
Import Effects.

(** stdpp's monad notations ([x ← m; k] and [m;; k]) at [M]. *)
#[global] Instance M_ret : MRet M := @ret.
#[global] Instance M_bind : MBind M := λ A B k m, bind m k.

(* ===================================================================== *)
(** * ESIAuthManager (esi-auth.ts) *)
(* ===================================================================== *)

Module ESIAuthManager.

(** The callback URL as [new URL(callbackUrl)] parses it: its query
    parameters, in order. *)
Record URL : Type := { searchParams : list (string * string) }.

(** [url.searchParams.get(name)]: the first value of [name], or [null]. *)
Fixpoint first_value (name : string) (l : list (string * string)) : option string :=
  match l with
  | [] => None
  | (k, v) :: l' => if String.eqb k name then Some v else first_value name l'
  end.

Definition searchParams_get (name : string) (url : URL) : option string :=
  first_value name (searchParams url).

Definition csrfMessage : string := "Invalid state parameter - potential CSRF attack".

(** What the [catch] of a failed POST throws: the provider's error when
    there was a response, the text of the error ([String(error)])
    otherwise. *)
Definition tokenFailure (prefix : string) (r : TokenReply) : Error :=
  match r with
  | TokenHttpError e =>
      JsError (prefix +:+ error e +:+ " - "
               +:+ tplS (Js.or truthyS (error_description e) (Some "Unknown error")))
  | TokenNetError text => JsError (prefix +:+ text)
  | TokenOk _ => JsError prefix
  end.

(** One POST to the token endpoint: the request is logged, the next
    scripted reply is consumed. *)
Definition postToken (c : NetCall) (prefix : string) : M EVEAuthTokens :=
  λ w, let w1 := send c w in
       match tokenEndpoint w1 with
       | TokenOk t :: rest => (Ok t, set_tokenEndpoint rest w1)
       | r :: rest => (Throw (tokenFailure prefix r), set_tokenEndpoint rest w1)
       | [] => (Throw (tokenFailure prefix (TokenNetError "AxiosError: Network Error")), w1)
       end.

Definition exchangeCodeForTokens (code codeVerifier : string) : M EVEAuthTokens :=
  postToken (PostToken "authorization_code" code (Some codeVerifier))
    "Token exchange failed: ".

Definition refreshToken (refreshToken : string) : M EVEAuthTokens :=
  postToken (PostToken "refresh_token" refreshToken None)
    "Token refresh failed: ".

(** [Scopes.split(' ')] *)
Fixpoint split_spaces (acc s : string) : list string :=
  match s with
  | EmptyString => [acc]
  | String c s' =>
      if Ascii.eqb c " "%char then acc :: split_spaces "" s'
      else split_spaces (acc +:+ String c "") s'
  end.

(** [getCharacterInfo]: verify the token; the character's name and the
    granted scopes come from the verification reply. *)
Definition getCharacterInfo (accessToken : string) : M (Z * string * list string) :=
  λ w, let w1 := send (GetVerify accessToken) w in
       match verifyEndpoint w1 with
       | VerifyOk d :: rest =>
           let characterId := CharacterID d in
           let name :=
             tplS (Js.or truthyS (CharacterName d)
                     (Some ("Character_" +:+ showZ characterId))) in
           let scopes :=
             if truthyS (Scopes d) then split_spaces "" (tplS (Scopes d)) else [] in
           (Ok (characterId, name, scopes), set_verifyEndpoint rest w1)
       | VerifyHttpError text :: rest =>
           (Throw (JsError ("Failed to get character info: " +:+ text)),
            set_verifyEndpoint rest w1)
       | VerifyNetError text :: rest =>
           (Throw (JsError ("Failed to get character info: " +:+ text)),
            set_verifyEndpoint rest w1)
       | [] =>
           (Throw (JsError "Failed to get character info: AxiosError: Network Error"), w1)
       end.

(** [handleCallback], with [now] the reading of [Date.now()]. *)
Definition handleCallback (now : Z) (url : URL) : M StoredCharacterAuth :=
  let code := searchParams_get "code" url in
  let state := searchParams_get "state" url in
  let error := searchParams_get "error" url in
  if truthyS error then
    throw (JsError ("OAuth2 error: " +:+ tplS error +:+ " - "
                    +:+ tplS (Js.or truthyS (searchParams_get "error_description" url)
                                (Some "Unknown error"))))
  else
    this ← read;
    if negb (bool_decide (state = authState this)) then
      throw (JsError csrfMessage)
    else if negb (truthyS code) then
      throw (JsError "No authorization code received")
    else if negb (truthyS (codeVerifier this)) then
      throw (JsError "No code verifier available - initiate auth first")
    else
      tokens ← exchangeCodeForTokens (tplS code) (tplS (codeVerifier this));
      info ← getCharacterInfo (tok_access_token tokens);
      let '(characterId, name, scopes) := info in
      let storedAuth :=
        {| character_id := characterId;
           character_name := name;
           access_token := tok_access_token tokens;
           refresh_token := tok_refresh_token tokens;
           token_expires := now + tok_expires_in tokens * 1000;
           scopes := scopes;
           last_updated := now |} in
      (* Clear temporary auth data *)
      update (set_session None None);;
      mret storedAuth.

(** The world after [initiateAuth] issued a session. *)
Definition sessionWorld : World :=
  set_session (Some "verifier-1") (Some "issued-state") emptyWorld.

(** Two callbacks with a [state] that was never issued; the second one
    also reports a denial by the provider. *)
Definition forgedUrl : URL :=
  {| searchParams := [("code", "abc123"); ("state", "forged-state")] |}.

Definition deniedUrl : URL :=
  {| searchParams := [("error", "access_denied"); ("state", "forged-state")] |}.

(** The callback of a granted authorization, and a world in which the
    provider grants the exchange and verifies the token. *)
Definition grantedUrl : URL :=
  {| searchParams := [("code", "abc123"); ("state", "issued-state")] |}.

Definition tokens1 : EVEAuthTokens :=
  {| tok_access_token := "T1"; tok_refresh_token := "R1"; tok_expires_in := 1200;
     tok_token_type := "Bearer"; tok_scope := "a b" |}.

Definition verified42 : VerifyData :=
  {| CharacterID := 42; CharacterName := Some "Pilot"; Scopes := Some "a b" |}.

Definition grantingWorld : World :=
  mkWorld (Some "verifier-1") (Some "issued-state") ∅ None None emptyDatabase
    [TokenOk tokens1] [VerifyOk verified42] [] [].

(** A world in which the provider refuses the exchange. *)
Definition refusingWorld : World :=
  mkWorld (Some "verifier-1") (Some "issued-state") ∅ None None emptyDatabase
    [TokenHttpError {| error := "invalid_grant"; error_description := None |}]
    [VerifyOk verified42] [] [].

End ESIAuthManager.

(* ===================================================================== *)
(** * AuthStore (auth-store.ts) *)
(* ===================================================================== *)

Module AuthStore.

(** CryptoJS's AES under the store's key.  Decryption of a text that was
    not produced under the key fails ([bytes.toString(Utf8)] throws). *)
Class Cipher : Type := {
  encrypt : string → string;
  decrypt : string → option string;
  decrypt_encrypt : ∀ s, decrypt (encrypt s) = Some s
}.

(** [Partial<StoredCharacterAuth>] *)
Record Updates : Type := {
  u_character_id : option Z;
  u_character_name : option string;
  u_access_token : option string;
  u_refresh_token : option string;
  u_token_expires : option Z;
  u_scopes : option (list string);
  u_last_updated : option Z
}.

(** [{ ...auth, ...updates }] *)
Definition spread (auth : StoredCharacterAuth) (u : Updates) : StoredCharacterAuth :=
  {| character_id := default (character_id auth) (u_character_id u);
     character_name := default (character_name auth) (u_character_name u);
     access_token := default (access_token auth) (u_access_token u);
     refresh_token := default (refresh_token auth) (u_refresh_token u);
     token_expires := default (token_expires auth) (u_token_expires u);
     scopes := default (scopes auth) (u_scopes u);
     last_updated := default (last_updated auth) (u_last_updated u) |}.

(** The first key of [Object.keys(characters)]: the keys are character
    ids, which are array indices (below 2^32 - 1), and such keys come in
    ascending order. *)
Definition firstKey {A} (m : gmap Z A) : option Z :=
  foldr (λ k acc, match acc with
                  | Some k' => Some (Z.min k k')
                  | None => Some k
                  end) None (fst <$> map_to_list m).

Section WithCipher.
Context `{Cipher}.

Definition storeCharacterAuth (auth : StoredCharacterAuth) (w : World) : World :=
  let encryptedAuth :=
    {| character_id := character_id auth;
       character_name := character_name auth;
       access_token := encrypt (access_token auth);
       refresh_token := encrypt (refresh_token auth);
       token_expires := token_expires auth;
       scopes := scopes auth;
       last_updated := last_updated auth |} in
  let characters := <[character_id auth := encryptedAuth]> (characters w) in
  if negb (truthyN (last_selected_character w)) then
    set_store characters (Some (character_id auth)) w
  else
    set_store characters (last_selected_character w) w.

Definition getCharacterAuth (characterId : Z) (w : World) : option StoredCharacterAuth :=
  match characters w !! characterId with
  | None => None
  | Some encryptedAuth =>
      match decrypt (access_token encryptedAuth), decrypt (refresh_token encryptedAuth) with
      | Some a, Some r =>
          Some {| character_id := character_id encryptedAuth;
                  character_name := character_name encryptedAuth;
                  access_token := a;
                  refresh_token := r;
                  token_expires := token_expires encryptedAuth;
                  scopes := scopes encryptedAuth;
                  last_updated := last_updated encryptedAuth |}
      | _, _ => None
      end
  end.

Definition updateCharacterAuth (characterId : Z) (updates : Updates) : M unit :=
  λ w, match characters w !! characterId with
       | None =>
           (Throw (JsError ("Character " +:+ showZ characterId +:+ " not found in store")), w)
       | Some existingAuth =>
           let encryptedUpdates :=
             {| u_character_id := u_character_id updates;
                u_character_name := u_character_name updates;
                u_access_token :=
                  if truthyS (u_access_token updates)
                  then encrypt <$> u_access_token updates
                  else u_access_token updates;
                u_refresh_token :=
                  if truthyS (u_refresh_token updates)
                  then encrypt <$> u_refresh_token updates
                  else u_refresh_token updates;
                u_token_expires := u_token_expires updates;
                u_scopes := u_scopes updates;
                u_last_updated := u_last_updated updates |} in
           (Ok tt,
            set_store (<[characterId := spread existingAuth encryptedUpdates]> (characters w))
              (last_selected_character w) w)
       end.

Definition removeCharacterAuth (characterId : Z) (w : World) : World :=
  let characters := delete characterId (characters w) in
  if bool_decide (last_selected_character w = Some characterId) then
    set_store characters (firstKey characters) w
  else
    set_store characters (last_selected_character w) w.

(** [isTokenExpired], with [now] the reading of [Date.now()]. *)
Definition isTokenExpired (characterId : Z) (now : Z) (w : World) : bool :=
  match getCharacterAuth characterId w with
  | None => true
  | Some auth => token_expires auth <? now + 300000
  end.

End WithCipher.

(** The cipher that stores the text as it is, for worked examples. *)
Definition plainCipher : Cipher :=
  {| encrypt := λ s, s; decrypt := λ s, Some s; decrypt_encrypt := λ s, eq_refl |}.

End AuthStore.

(* ===================================================================== *)
(** * db.ts and CharacterService (character-service.ts) *)
(* ===================================================================== *)

Module Db.

(** [getDatabase()] *)
Definition getDatabase : M Database :=
  λ w, match db w with
       | Some d => (Ok d, w)
       | None =>
           (Throw (JsError "Database not initialized. Call initializeDatabase() first."), w)
       end.

(** [initializeDatabase()]: the open database, or the one loaded from the
    file. *)
Definition initializeDatabase : M Database :=
  λ w, match db w with
       | Some d => (Ok d, w)
       | None => (Ok (dbFile w), set_db (Some (dbFile w)) w)
       end.

(** One statement on the open database. *)
Definition exec (f : Database → Database) : M unit :=
  d ← getDatabase; update (set_db (Some (f d))).

(** The rows a [select] without [orderBy] matches come in the order of the
    index the engine reads them from, not in the order of their insertion:
    [selectOrder] is the order in which the matching rows of
    [character_assets] are returned, [joinOrder] the order in which they
    are returned when joined with [item_types].  All that is known of
    either is that it lists the matching rows, each once. *)
Class Engine : Type := {
  selectOrder : list CharacterAsset → list CharacterAsset;
  joinOrder : list CharacterAsset → list CharacterAsset;
  selectOrder_perm : ∀ rows, selectOrder rows ≡ₚ rows;
  joinOrder_perm : ∀ rows, joinOrder rows ≡ₚ rows
}.

End Db.

Module CharacterService.

(** [select().from(characters).where(eq(characterId)).limit(1)], then
    [result[0] || null]. *)
Definition getCharacter (cid : Z) : M (option Character) :=
  d ← Db.getDatabase;
  mret (head (filter (λ c, characterId c = cid) (characters_table d))).

(** [isTokenExpired], with [now] the reading of [Date.now()]. *)
Definition isTokenExpired (cid : Z) (now : Z) : M bool :=
  character ← getCharacter cid;
  match character with
  | None => mret true
  | Some c => mret (tokenExpires c <? now `div` 1000 + 300)
  end.

Definition updateLastSync (cid : Z) (now : Z) : M unit :=
  let now := now `div` 1000 in
  Db.exec (λ d,
    {| characters_table :=
         (λ c, if bool_decide (characterId c = cid)
               then {| characterId := characterId c;
                       characterName := characterName c;
                       accessToken := accessToken c;
                       refreshToken := refreshToken c;
                       tokenExpires := tokenExpires c;
                       lastSync := Some now;
                       updatedAt := now |}
               else c) <$> characters_table d;
       characterAssets := characterAssets d;
       itemTypes := itemTypes d;
       next_id := next_id d |}).

(** [deleteCharacter]: the assets first, then the character. *)
Definition deleteCharacter (cid : Z) : M unit :=
  Db.exec (λ d,
    {| characters_table := characters_table d;
       characterAssets :=
         filter (λ r, na_characterId (columns r) ≠ cid) (characterAssets d);
       itemTypes := itemTypes d;
       next_id := next_id d |});;
  Db.exec (λ d,
    {| characters_table := filter (λ c, characterId c ≠ cid) (characters_table d);
       characterAssets := characterAssets d;
       itemTypes := itemTypes d;
       next_id := next_id d |}).

End CharacterService.

(* ===================================================================== *)
(** * ESIClient (esi-client.ts) *)
(* ===================================================================== *)

Module ESIClient.

Section WithCipher.
Context `{AuthStore.Cipher}.

(** [refreshCharacterToken]; its [catch] logs and throws the error
    again. *)
Definition refreshCharacterToken (characterId : Z) (now : Z) : M unit :=
  this ← read;
  match AuthStore.getCharacterAuth characterId this with
  | None =>
      throw (JsError ("No authentication found for character " +:+ showZ characterId))
  | Some auth =>
      newTokens ← ESIAuthManager.refreshToken (refresh_token auth);
      AuthStore.updateCharacterAuth characterId
        {| AuthStore.u_character_id := None;
           AuthStore.u_character_name := None;
           AuthStore.u_access_token := Some (tok_access_token newTokens);
           AuthStore.u_refresh_token := Some (tok_refresh_token newTokens);
           AuthStore.u_token_expires := Some (now + tok_expires_in newTokens * 1000);
           AuthStore.u_scopes := None;
           AuthStore.u_last_updated := Some now |}
  end.

Definition retried (originalRequest : Request) : Request :=
  {| endpoint := endpoint originalRequest;
     Authorization := Authorization originalRequest;
     _characterId := _characterId originalRequest;
     _retry := true |}.

Definition withBearer (token : string) (r : Request) : Request :=
  {| endpoint := endpoint r;
     Authorization := Some ("Bearer " +:+ token);
     _characterId := _characterId r;
     _retry := _retry r |}.

(** [this.client(config)]: the request interceptor (the wait in the
    dispatch queue, see [RateLimit]), the dispatch, and the response
    interceptor.  [script] is what the ESI endpoint still has to say; a
    call consumes one reply per dispatch, so the retries of the
    interceptor are calls on the rest of the script. *)
Fixpoint client (script : list EsiReply) (now : Z) (originalRequest : Request)
    (w : World) : Result EsiReply * World :=
  let w := send (EsiGet originalRequest) w in
  match script with
  | [] =>
      (* no response: error.response is undefined *)
      (Throw (AxiosError None), set_esiEndpoint [] w)
  | response :: script =>
      let w := set_esiEndpoint script w in
      if (200 <=? status response) && (status response <? 300) then
        (Ok response, w)
      else if (status response =? 401) && negb (_retry originalRequest) then
        (* Handle 401 Unauthorized - token expired *)
        let originalRequest := retried originalRequest in
        if truthyN (_characterId originalRequest) then
          let characterId := default 0 (_characterId originalRequest) in
          match refreshCharacterToken characterId now w with
          | (Ok _, w) =>
              match AuthStore.getCharacterAuth characterId w with
              | Some auth =>
                  client script now (withBearer (access_token auth) originalRequest) w
              | None => (Throw (AxiosError (Some (status response))), w)
              end
          | (Throw refreshError, w) =>
              (* Remove invalid auth *)
              (Throw (AxiosError (Some (status response))),
               AuthStore.removeCharacterAuth characterId w)
          end
        else (Throw (AxiosError (Some (status response))), w)
      else if (status response =? 420) || (status response =? 429) then
        (* Handle rate limiting (420 or 429) *)
        let retryAfter :=
          parseInt (tplS (Js.or truthyS (retry_after response) (Some "60"))) in
        client script now originalRequest (send (Sleep (retryAfter * 1000)%float) w)
      else (Throw (AxiosError (Some (status response))), w)
  end.

(** [this.client.get(endpoint, config)] *)
Definition get (now : Z) (config : Request) : M EsiReply :=
  λ w, client (esiEndpoint w) now config w.

Definition makeAuthenticatedRequest (characterId : Z) (endpoint : string) (now : Z)
    : M EsiReply :=
  this ← read;
  match AuthStore.getCharacterAuth characterId this with
  | None =>
      throw (JsError ("No authentication found for character " +:+ showZ characterId))
  | Some auth =>
      (* Check if token is expired and refresh if needed *)
      (if AuthStore.isTokenExpired characterId now this then
         refreshCharacterToken characterId now;;
         this ← read;
         match AuthStore.getCharacterAuth characterId this with
         | None =>
             throw (JsError ("Failed to refresh token for character " +:+ showZ characterId))
         | Some refreshedAuth => mret tt
         end
       else mret tt);;
      get now {| endpoint := endpoint;
                 Authorization := Some ("Bearer " +:+ access_token auth);
                 _characterId := Some characterId;
                 _retry := false |}
  end.

(** The credential as the store holds it after a granted refresh. *)
Definition refreshed (now : Z) (t : EVEAuthTokens) (auth : StoredCharacterAuth)
    : StoredCharacterAuth :=
  {| character_id := character_id auth;
     character_name := character_name auth;
     access_token := tok_access_token t;
     refresh_token := tok_refresh_token t;
     token_expires := now + tok_expires_in t * 1000;
     scopes := scopes auth;
     last_updated := now |}.

(** The number of refresh requests in a log. *)
Definition isRefresh (c : NetCall) : bool :=
  match c with
  | PostToken grant_type _ _ => String.eqb grant_type "refresh_token"
  | _ => false
  end.

Definition refreshes (l : list NetCall) : nat := length (List.filter isRefresh l).

(** The body of a reply at the type the caller declares for it. *)
Definition asAssets (r : EsiReply) : list EVEAsset :=
  match data r with AssetsData l => l | _ => [] end.

Definition asStructure (r : EsiReply) : StructureInfo :=
  match data r with
  | StructureData s => s
  | _ => {| si_name := "undefined"; si_type_id := 0; si_system_id := 0 |}
  end.

Definition getCharacterAssets (characterId : Z) (now : Z) : M (list EVEAsset) :=
  response ← makeAuthenticatedRequest characterId
               ("/characters/" +:+ showZ characterId +:+ "/assets/") now;
  mret (asAssets response).

Definition getStructureInfo (characterId structureId : Z) (now : Z) : M StructureInfo :=
  response ← makeAuthenticatedRequest characterId
               ("/universe/structures/" +:+ showZ structureId +:+ "/") now;
  mret (asStructure response).

End WithCipher.

(** A stored credential for character 42 (under [plainCipher]), an ESI
    endpoint that answers 401 twice, and a token endpoint that grants the
    refresh. *)
Definition credential42 : StoredCharacterAuth :=
  {| character_id := 42; character_name := "Pilot";
     access_token := "T1"; refresh_token := "R1";
     token_expires := 9000000000; scopes := ["esi-assets.read_assets.v1"];
     last_updated := 0 |}.

Definition unauthorized : EsiReply :=
  {| status := 401; retry_after := None; data := NoData |}.

Definition tokens2 : EVEAuthTokens :=
  {| tok_access_token := "T2"; tok_refresh_token := "R2"; tok_expires_in := 1200;
     tok_token_type := "Bearer"; tok_scope := "esi-assets.read_assets.v1" |}.

Definition world401 : World :=
  mkWorld None None {[ 42 := credential42 ]} (Some 42) None emptyDatabase
    [TokenOk tokens2] [] [unauthorized; unauthorized] [].

Definition assetsRequest : Request :=
  {| endpoint := "/characters/42/assets/"; Authorization := Some "Bearer T1";
     _characterId := Some 42; _retry := false |}.

(** A reply with the assets of character 42, two rate-limited replies, and
    worlds for the worked examples: one whose credential is valid, one whose
    credential has expired, one whose provider refuses the refresh. *)
Definition veldspar : EVEAsset :=
  {| item_id := 1001; type_id := 1230; quantity := 500; location_id := 60003760;
     location_flag := "Hangar"; location_type := "station"; is_singleton := false;
     is_blueprint_copy := None |}.

Definition assetsReply : EsiReply :=
  {| status := 200; retry_after := None; data := AssetsData [veldspar] |}.

Definition rateLimited : EsiReply :=
  {| status := 420; retry_after := Some "7.9"; data := NoData |}.

Definition rateLimitedDate : EsiReply :=
  {| status := 429; retry_after := Some "Wed, 21 Oct 2026 07:28:00 GMT"; data := NoData |}.

Definition validWorld : World :=
  mkWorld None None {[ 42 := credential42 ]} (Some 42) None emptyDatabase
    [] [] [assetsReply] [].

Definition expired42 : StoredCharacterAuth :=
  {| character_id := 42; character_name := "Pilot";
     access_token := "T1"; refresh_token := "R1";
     token_expires := 0; scopes := ["esi-assets.read_assets.v1"];
     last_updated := 0 |}.

Definition expiredWorld : World :=
  mkWorld None None {[ 42 := expired42 ]} (Some 42) None emptyDatabase
    [TokenOk tokens2] [] [assetsReply] [].

Definition refusedWorld : World :=
  mkWorld None None {[ 42 := credential42 ]} (Some 42) None emptyDatabase
    [] [] [unauthorized; assetsReply] [].

End ESIClient.

(* ===================================================================== *)
(** * AssetService (asset-service.ts) *)
(* ===================================================================== *)

Module AssetService.

(** The record stored for a fetched asset. *)
Definition toRecord (characterId now : Z) (asset : EVEAsset) : NewCharacterAsset :=
  {| na_characterId := characterId;
     na_itemId := item_id asset;
     na_typeId := type_id asset;
     na_quantity := quantity asset;
     na_locationId := location_id asset;
     na_locationFlag := location_flag asset;
     na_locationType := location_type asset;
     na_isSingleton := is_singleton asset;
     na_isBlueprintCopy := default false (is_blueprint_copy asset);
     na_syncedAt := now |}.

(** The columns of the unique index [idx_character_assets_character_item]. *)
Definition indexKey (r : NewCharacterAsset) : Z * Z := (na_characterId r, na_itemId r).

(** [delete(characterAssets).where(eq(characterId))] *)
Definition deleteWhere (characterId : Z) : M unit :=
  Db.exec (λ d,
    {| characters_table := characters_table d;
       characterAssets :=
         filter (λ r, na_characterId (columns r) ≠ characterId) (characterAssets d);
       itemTypes := itemTypes d;
       next_id := next_id d |}).

(** [insert(characterAssets).values(batch)]: one statement.  It fails as a
    whole, leaving the table as it was, when a row of the batch repeats the
    index key of a stored row or of another row of the batch. *)
Definition insertValues (batch : list NewCharacterAsset) : M unit :=
  d ← Db.getDatabase;
  if bool_decide (NoDup (indexKey <$> batch)
                  ∧ Forall (λ v, indexKey v ∉ (indexKey ∘ columns) <$> characterAssets d) batch)
  then
    update (set_db (Some
      {| characters_table := characters_table d;
         characterAssets :=
           characterAssets d
           ++ imap (λ i v, {| id := next_id d + Z.of_nat i; columns := v |}) batch;
         itemTypes := itemTypes d;
         next_id := next_id d + Z.of_nat (length batch) |}))
  else
    throw (JsError
      "UNIQUE constraint failed: character_assets.character_id, character_assets.item_id").

Definition batchSize : nat := 500.

(** [assetRecords.slice(i, i + batchSize)] *)
Definition slice {A} (i j : nat) (l : list A) : list A := take (j - i) (drop i l).

(** [for (let i = 0; i < assetRecords.length; i += batchSize)] from [i] on. *)
Equations insertBatches (assetRecords : list NewCharacterAsset) (i : nat) : M unit
  by wf (length assetRecords - i)%nat lt :=
insertBatches assetRecords i with decide (i < length assetRecords)%nat := {
  | left _ =>
      λ w, match insertValues (slice i (i + batchSize) assetRecords) w with
           | (Ok _, w') => insertBatches assetRecords (i + batchSize) w'
           | (Throw e, w') => (Throw e, w')
           end
  | right _ => mret tt
}.
Next Obligation. unfold batchSize. lia. Qed.

(** [storeCharacterAssets], with [now] the reading of [Date.now()]. *)
Definition storeCharacterAssets (characterId : Z) (assets : list EVEAsset) (now : Z)
    : M unit :=
  let now := now `div` 1000 in
  (* First, delete existing assets for this character *)
  deleteWhere characterId;;
  let assetRecords := toRecord characterId now <$> assets in
  if bool_decide (0 < length assetRecords)%nat then insertBatches assetRecords 0
  else mret tt.

(** The stored record [r] is the asset [asset] of the character, fetched
    at the second [syncedAt]: it has the fields of the asset, each under its
    column, a blueprint-copy flag that is false when the asset has none, the
    character and the time. *)
Definition IsRecordOf (characterId syncedAt : Z) (asset : EVEAsset) (r : NewCharacterAsset)
    : Prop :=
  na_characterId r = characterId
  ∧ na_itemId r = item_id asset
  ∧ na_typeId r = type_id asset
  ∧ na_quantity r = quantity asset
  ∧ na_locationId r = location_id asset
  ∧ na_locationFlag r = location_flag asset
  ∧ na_locationType r = location_type asset
  ∧ na_isSingleton r = is_singleton asset
  ∧ na_isBlueprintCopy r = match is_blueprint_copy asset with Some b => b | None => false end
  ∧ na_syncedAt r = syncedAt.

Section WithEngine.
Context `{Db.Engine}.

(** [getCharacterAssets] *)
Definition getCharacterAssets (characterId : Z) : M (list CharacterAsset) :=
  d ← Db.getDatabase;
  mret (Db.selectOrder
          (filter (λ r, na_characterId (columns r) = characterId) (characterAssets d))).

(** [getCharacterAssetsWithTypes]: the left join with [item_types], whose
    primary key is [type_id] (at most one row matches). *)
Definition getCharacterAssetsWithTypes (characterId : Z)
    : M (list (CharacterAsset * option ItemType)) :=
  d ← Db.getDatabase;
  mret ((λ r, (r, head (filter (λ t, it_typeId t = na_typeId (columns r)) (itemTypes d))))
          <$> Db.joinOrder
                (filter (λ r, na_characterId (columns r) = characterId)
                   (characterAssets d))).

(** The part of [getCharacterAssetStats] the engine reads. *)
Record Stats : Type := {
  totalItems : nat;
  lastSyncTime : option Z
}.

(** [Math.max(...xs)] of a non-empty list. *)
Definition maximum (x : Z) (xs : list Z) : Z := foldr Z.max x xs.

Definition getCharacterAssetStats (characterId : Z) : M Stats :=
  assets ← getCharacterAssets characterId;
  match assets with
  | [] => mret {| totalItems := 0; lastSyncTime := None |}
  | a :: rest =>
      mret {| totalItems := length assets;
              lastSyncTime :=
                Some (maximum (na_syncedAt (columns a)) ((na_syncedAt ∘ columns) <$> rest)) |}
  end.

(** [`${asset.locationId}-${asset.locationFlag}`] *)
Definition locationKey (asset : CharacterAsset) : string :=
  showZ (na_locationId (columns asset)) +:+ "-" +:+ na_locationFlag (columns asset).

(** One turn of the [forEach] of [getCharacterAssetsByLocation]. *)
Definition addToGroup (grouped : gmap string (list CharacterAsset)) (asset : CharacterAsset)
    : gmap string (list CharacterAsset) :=
  let locationKey := locationKey asset in
  let grouped :=
    match grouped !! locationKey with
    | None => <[locationKey := []]> grouped
    | Some _ => grouped
    end in
  <[locationKey := default [] (grouped !! locationKey) ++ [asset]]> grouped.

Definition getCharacterAssetsByLocation (characterId : Z)
    : M (gmap string (list CharacterAsset)) :=
  assets ← getCharacterAssets characterId;
  mret (foldl addToGroup ∅ assets).

End WithEngine.

(** [deleteOldAssets]: the statement deletes the rows of the character
    whose [synced_at] is the timestamp.  What the driver (sql.js) gives back
    for a statement that was run is not an object with a count of the
    changed rows, so [result.changes || 0] is 0 whatever was deleted. *)
Definition deleteOldAssets (characterId olderThanTimestamp : Z) : M Z :=
  Db.exec (λ d,
    {| characters_table := characters_table d;
       characterAssets :=
         filter (λ r, ¬ (na_characterId (columns r) = characterId
                         ∧ na_syncedAt (columns r) = olderThanTimestamp))
           (characterAssets d);
       itemTypes := itemTypes d;
       next_id := next_id d |});;
  mret 0.

(** What a run of statements did to the database: the rows [new] were
    appended to [character_assets], with fresh ids. *)
Definition appended (d d' : Database) (new : list CharacterAsset) : Prop :=
  characterAssets d' = characterAssets d ++ new
  ∧ Forall (λ r, next_id d ≤ id r) new
  ∧ next_id d ≤ next_id d'
  ∧ characters_table d' = characters_table d
  ∧ itemTypes d' = itemTypes d.

(** Two fetched assets, and a world whose cache holds an older record of
    character 42 and a record of character 7. *)
Definition tritanium : EVEAsset :=
  {| item_id := 1001; type_id := 34; quantity := 500; location_id := 60003760;
     location_flag := "Hangar"; location_type := "station";
     is_singleton := false; is_blueprint_copy := None |}.

Definition rifter : EVEAsset :=
  {| item_id := 1002; type_id := 587; quantity := 1; location_id := 60003760;
     location_flag := "Hangar"; location_type := "station";
     is_singleton := true; is_blueprint_copy := None |}.

Definition staleRow (characterId itemId : Z) : NewCharacterAsset :=
  {| na_characterId := characterId; na_itemId := itemId; na_typeId := 35;
     na_quantity := 10; na_locationId := 60003760; na_locationFlag := "Hangar";
     na_locationType := "station"; na_isSingleton := false;
     na_isBlueprintCopy := false; na_syncedAt := 1000 |}.

Definition cachedDatabase : Database :=
  {| characters_table := [];
     characterAssets := [ {| id := 1; columns := staleRow 42 999 |};
                          {| id := 2; columns := staleRow 7 999 |} ];
     itemTypes := [];
     next_id := 3 |}.

Definition cachedWorld : World :=
  set_db (Some cachedDatabase) emptyWorld.

(** Two engines for the worked examples: one that returns the rows in the
    order of their row ids, and one that reads the rows of a character from
    the unique index on [(character_id, item_id)], in the order of their
    item ids. *)
Definition rowidOrder : Db.Engine :=
  {| Db.selectOrder := λ rows, rows;
     Db.joinOrder := λ rows, rows;
     Db.selectOrder_perm := λ rows, reflexivity rows;
     Db.joinOrder_perm := λ rows, reflexivity rows |}.

Definition byItemId (rows : list CharacterAsset) : list CharacterAsset :=
  @merge_sort _ (λ r1 r2, na_itemId (columns r1) ≤ na_itemId (columns r2))
    (λ r1 r2, decide (na_itemId (columns r1) ≤ na_itemId (columns r2))) rows.

Definition indexOrder : Db.Engine :=
  {| Db.selectOrder := byItemId;
     Db.joinOrder := byItemId;
     Db.selectOrder_perm := merge_sort_Permutation _;
     Db.joinOrder_perm := merge_sort_Permutation _ |}.

(** The cache after the ship and then the mineral were stored for
    character 42: the row of the ship has the lower row id and the higher
    item id. *)
Definition hangarWorld : World :=
  snd (storeCharacterAssets 42 [rifter; tritanium] 5000000 cachedWorld).

Definition hangarDatabase : Database := default emptyDatabase (db hangarWorld).

(** A database with a stored character, for the worked examples. *)
Definition pilot42 : Character :=
  {| characterId := 42; characterName := "Pilot"; accessToken := Some "enc-a";
     refreshToken := Some "enc-r"; tokenExpires := 2000; lastSync := None; updatedAt := 0 |}.

Definition pilotWorld : World :=
  set_db (Some {| characters_table := [pilot42];
                  characterAssets := characterAssets cachedDatabase;
                  itemTypes := [];
                  next_id := 3 |}) emptyWorld.

End AssetService.

(* ===================================================================== *)
(** * Static reference data (static-data-service.ts) *)
(* ===================================================================== *)

Module StaticData.

Record Station : Type := {
  stationId : Z;
  stationName : string;
  st_solarSystemId : Z
}.

Record SolarSystem : Type := {
  solarSystemId : Z;
  solarSystemName : string;
  regionId : Z;
  (* the cell as it is read, without a check: a number, or nothing when
     the cell is NULL *)
  security : option float
}.

Record Region : Type := {
  rg_regionId : Z;
  regionName : string
}.

(** The reference tables, as lookups by primary key: [staStations],
    [mapSolarSystems] and [mapRegions] give the row of the key, and nothing
    when there is no such row or the query fails.  [invTypes] is the
    [typeName] of the object [getItemType] returns: it returns one also for
    a type id that has no row (the object [getAsObject] gives then has the
    columns of the table, each undefined, and the name made for it is
    [Unknown Item undefined]), and nothing only when the query fails. *)
Record Tables : Type := {
  invTypes : Z → option string;
  staStations : Z → option Station;
  mapSolarSystems : Z → option SolarSystem;
  mapRegions : Z → option Region
}.

Section WithTables.
Context (tables : Tables).

(** Each getter refuses a falsy id before it queries. *)
Definition getStation (stationId : Z) : option Station :=
  if negb (truthyN (Some stationId)) then None else staStations tables stationId.

Definition getSolarSystem (systemId : Z) : option SolarSystem :=
  if negb (truthyN (Some systemId)) then None else mapSolarSystems tables systemId.

Definition getRegion (regionId : Z) : option Region :=
  if negb (truthyN (Some regionId)) then None else mapRegions tables regionId.

(** [getItemType(typeId)?.typeName] *)
Definition getTypeName (typeId : Z) : option string := invTypes tables typeId.

End WithTables.

(** The static database when it is not loaded: every lookup gives
    nothing. *)
Definition noTables : Tables :=
  {| invTypes := λ _, None; staStations := λ _, None;
     mapSolarSystems := λ _, None; mapRegions := λ _, None |}.

(** Tables with one station, its solar system and its region; [security]
    is the security cell of the solar system. *)
Definition jitaTables (security : option float) : Tables :=
  {| invTypes := λ _, Some "Unknown Item undefined";
     staStations := λ id,
       if id =? 60003760 then
         Some {| stationId := 60003760;
                 stationName := "Jita IV - Moon 4 - Caldari Navy Assembly Plant";
                 st_solarSystemId := 30000142 |}
       else None;
     mapSolarSystems := λ id,
       if id =? 30000142 then
         Some {| solarSystemId := 30000142; solarSystemName := "Jita";
                 regionId := 10000002; security := security |}
       else None;
     mapRegions := λ id,
       if id =? 10000002 then Some {| rg_regionId := 10000002; regionName := "The Forge" |}
       else None |}.

End StaticData.

(* ===================================================================== *)
(** * Resolved locations, as the main process builds them and the renderer
      reads them *)
(* ===================================================================== *)

Module Location.

(** The [security] of a solar system as a reader finds it: a number,
    [null] (the cell of the table was NULL), or [undefined] (the field is
    absent). *)
Inductive Security : Type :=
| Number (security : float)
| Null
| Undefined.

Record SolarSystemRef : Type := {
  ss_id : Z;
  ss_name : string;
  ss_securityValue : Security
}.

(** The security, when it is a number. *)
Definition ss_security (solarSystem : SolarSystemRef) : option float :=
  match ss_securityValue solarSystem with
  | Number security => Some security
  | Null | Undefined => None
  end.

Record RegionRef : Type := {
  rg_id : Z;
  rg_name : string
}.

Record ResolvedLocation : Type := {
  locationId : Z;
  locationName : string;
  (* 'station' | 'solar_system' | 'structure' | 'unknown' *)
  locationType : string;
  solarSystem : option SolarSystemRef;
  region : option RegionRef
}.

End Location.
Import Location.

(* ===================================================================== *)
(** * DatabaseManager (database-manager.ts) *)
(* ===================================================================== *)

Module DatabaseManager.
Import StaticData.

(** An asset row with the item data resolved for it. *)
Record AssetWithData : Type := {
  asset : CharacterAsset;
  itemType : option ItemType;
  itemName : string;
  (* 'static' | 'cached' | 'none' *)
  dataSource : string;
  needsTypeResolution : bool
}.

(** [resolvedLocation] is an object shared by the assets of one location
    ([Shared], a key of the location map), or an object of the asset's own
    ([Own]). *)
Inductive LocationRef : Type :=
| Shared (locationId : Z)
| Own (location : ResolvedLocation).

Record AssetWithLocation : Type := {
  withData : AssetWithData;
  resolvedLocation : LocationRef
}.

(** [ItemService.getMissingItemTypes] *)
Definition getMissingItemTypes (typeIds : list Z) : M (list Z) :=
  match typeIds with
  | [] => mret []
  | _ =>
      d ← Db.getDatabase;
      mret (filter (λ t, t ∉ it_typeId <$> itemTypes d) typeIds)
  end.

(** [syncCharacterAssets]; its [catch] logs and throws the error again. *)
Definition syncCharacterAssets (characterId : Z) (assets : list EVEAsset) (now : Z)
    : M unit :=
  AssetService.storeCharacterAssets characterId assets now;;
  CharacterService.updateLastSync characterId now;;
  let typeIds := remove_dups (type_id <$> assets) in
  getMissingItemTypes typeIds;;
  mret tt.

Section WithEngine.
Context `{Db.Engine}.

(** [getCharacterAssetStats]: the statistics of the asset service (the
    volume and mass totals added to them are not read by the engine). *)
Definition getCharacterAssetStats (characterId : Z) : M AssetService.Stats :=
  stats ← AssetService.getCharacterAssetStats characterId;
  AssetService.getCharacterAssetsWithTypes characterId;;
  mret stats.

Section WithTables.
Context (tables : Tables).

Definition getCharacterAssetsWithData (characterId : Z) : M (list AssetWithData) :=
  assetsWithTypes ← AssetService.getCharacterAssetsWithTypes characterId;
  mret ((λ '(asset, cachedData),
           let staticData := getTypeName tables (na_typeId (columns asset)) in
           {| asset := asset;
              itemType := cachedData;
              itemName :=
                tplS (Js.or truthyS staticData
                        (Js.or truthyS (it_name <$> cachedData)
                           (Some ("Type " +:+ showZ (na_typeId (columns asset))))));
              dataSource :=
                match staticData, cachedData with
                | Some _, _ => "static"
                | None, Some _ => "cached"
                | None, None => "none"
                end;
              needsTypeResolution :=
                match staticData, cachedData with
                | None, None => true
                | _, _ => false
                end |}) <$> assetsWithTypes).

Definition systemRef (s : SolarSystem) : SolarSystemRef :=
  {| ss_id := solarSystemId s; ss_name := solarSystemName s;
     ss_securityValue := match security s with
                         | Some security => Number security
                         | None => Null
                         end |}.

Definition regionRef (r : Region) : RegionRef :=
  {| rg_id := rg_regionId r; rg_name := regionName r |}.

(** [resolveLocation] *)
Definition resolveLocation (locationId : Z) : ResolvedLocation :=
  if negb (truthyN (Some locationId)) then
    {| locationId := 0;
       locationName := "Invalid Location " +:+ showZ locationId;
       locationType := "unknown"; solarSystem := None; region := None |}
  else
    match getStation tables locationId with
    | Some station =>
        let solarSystem := getSolarSystem tables (st_solarSystemId station) in
        let region := solarSystem ≫= (λ s, getRegion tables (regionId s)) in
        {| locationId := locationId;
           locationName := stationName station;
           locationType := "station";
           solarSystem := systemRef <$> solarSystem;
           region := regionRef <$> region |}
    | None =>
        match getSolarSystem tables locationId with
        | Some solarSystem =>
            {| locationId := locationId;
               locationName := solarSystemName solarSystem;
               locationType := "solar_system";
               solarSystem := Some (systemRef solarSystem);
               region := regionRef <$> getRegion tables (regionId solarSystem) |}
        | None =>
            if 1000000000000 <=? locationId then
              {| locationId := locationId;
                 locationName := "Structure " +:+ showZ locationId;
                 locationType := "structure"; solarSystem := None; region := None |}
            else
              {| locationId := locationId;
                 locationName := "Location " +:+ showZ locationId;
                 locationType := "unknown"; solarSystem := None; region := None |}
        end
    end.

(** The location map of one pass: one object per valid location id. *)
Definition locationMap (assetsWithData : list AssetWithData) : gmap Z ResolvedLocation :=
  let validLocationIds :=
    remove_dups (filter (λ id, truthyN (Some id) = true)
                   ((na_locationId ∘ columns ∘ asset) <$> assetsWithData)) in
  foldl (λ m locationId, <[locationId := resolveLocation locationId]> m) ∅ validLocationIds.

(** [getCharacterAssetsWithLocationData]: the assets, each with a reference
    to its location object, and the objects of the location map. *)
Definition getCharacterAssetsWithLocationData (characterId : Z)
    : M (list AssetWithLocation * gmap Z ResolvedLocation) :=
  assetsWithData ← getCharacterAssetsWithData characterId;
  let locations := locationMap assetsWithData in
  mret ((λ a,
           let locationId := na_locationId (columns (asset a)) in
           {| withData := a;
              resolvedLocation :=
                match locations !! locationId with
                | Some _ => Shared locationId
                | None =>
                    Own {| Location.locationId := locationId;
                           locationName :=
                             "Unknown Location "
                             +:+ (if truthyN (Some locationId) then showZ locationId
                                  else "N/A");
                           locationType := "unknown";
                           solarSystem := None; region := None |}
                end |}) <$> assetsWithData,
        locations).

End WithTables.
End WithEngine.

End DatabaseManager.

(* ===================================================================== *)
(** * EnhancedESIClient (enhanced-esi-client.ts) *)
(* ===================================================================== *)

Module EnhancedESIClient.
Import StaticData DatabaseManager.

(** An asset as the caller reads it: the location object dereferenced. *)
Record EnhancedAsset : Type := {
  base : AssetWithData;
  location : ResolvedLocation
}.

Section WithCipherAndTables.
Context `{AuthStore.Cipher} `{Db.Engine} (tables : Tables).

Definition ensureDbInitialized : M unit :=
  Db.initializeDatabase;; mret tt.

(** [getAndSyncCharacterAssets]; its [catch] logs and throws the error
    again. *)
Definition getAndSyncCharacterAssets (characterId : Z) (now : Z) : M (list EVEAsset) :=
  ensureDbInitialized;;
  (* Fetch assets from EVE API *)
  assets ← ESIClient.getCharacterAssets characterId now;
  (* Sync with database *)
  syncCharacterAssets characterId assets now;;
  mret assets.

(** The assignments to a structure's location object once its name is
    known. *)
Definition withStructureInfo (info : StructureInfo) (l : ResolvedLocation)
    : ResolvedLocation :=
  let solarSystem := getSolarSystem tables (si_system_id info) in
  let region := solarSystem ≫= (λ s, getRegion tables (regionId s)) in
  {| locationId := locationId l;
     locationName := si_name info;
     locationType := locationType l;
     solarSystem :=
       match solarSystem with
       | Some s => Some (systemRef s)
       | None => Location.solarSystem l
       end;
     region :=
       match solarSystem, region with
       | Some _, Some r => Some (regionRef r)
       | _, _ => Location.region l
       end |}.

(** The loop over the assets: a structure is looked up for every asset that
    sits in it; a failed lookup keeps the location object as it is. *)
Fixpoint enhanceStructures (characterId now : Z) (assets : list AssetWithLocation)
    (locations : gmap Z ResolvedLocation) : M (gmap Z ResolvedLocation) :=
  match assets with
  | [] => mret locations
  | a :: assets =>
      locations ←
        match resolvedLocation a with
        | Shared k =>
            match locations !! k with
            | Some l =>
                if String.eqb (locationType l) "structure" then
                  tryCatch
                    (structureInfo ← ESIClient.getStructureInfo characterId (locationId l) now;
                     mret (<[k := withStructureInfo structureInfo l]> locations))
                    (λ _, mret locations)
                else mret locations
            | None => mret locations
            end
        | Own _ => mret locations
        end;
      enhanceStructures characterId now assets locations
  end.

(** What a reader of the returned objects sees. *)
Definition deref (locations : gmap Z ResolvedLocation) (a : AssetWithLocation)
    : EnhancedAsset :=
  {| base := withData a;
     location :=
       match resolvedLocation a with
       | Shared k =>
           default {| locationId := k; locationName := ""; locationType := "unknown";
                      solarSystem := None; region := None |} (locations !! k)
       | Own l => l
       end |}.

Definition getCharacterAssetsWithEnhancedLocationData (characterId : Z) (now : Z)
    : M (list EnhancedAsset) :=
  r ← getCharacterAssetsWithLocationData tables characterId;
  let '(assetsWithLocationData, locations) := r in
  locations ← enhanceStructures characterId now assetsWithLocationData locations;
  mret (deref locations <$> assetsWithLocationData).

(** [cacheAge > 1800], where the age of a cache never synchronised is
    [Infinity]. *)
Definition cacheIsOld (stats : AssetService.Stats) (now : Z) : bool :=
  let now := now `div` 1000 in
  match AssetService.lastSyncTime stats with
  | Some lastSyncTime =>
      if truthyN (Some lastSyncTime) then 1800 <? now - lastSyncTime else true
  | None => true
  end.

(** [getCharacterAssetsWithFallback]; its outer [catch] logs and throws the
    error again. *)
Definition getCharacterAssetsWithFallback (characterId : Z) (forceRefresh : bool) (now : Z)
    : M (list EnhancedAsset) :=
  ensureDbInitialized;;
  (if forceRefresh then
     (* Force refresh from API *)
     getAndSyncCharacterAssets characterId now;; mret tt
   else
     (* Check if we have recent cached data *)
     stats ← getCharacterAssetStats characterId;
     (* If cache is older than 30 minutes, refresh *)
     if cacheIsOld stats now then
       tryCatch (getAndSyncCharacterAssets characterId now;; mret tt)
         (λ apiError, mret tt)
     else mret tt);;
  (* Return cached data (which should now be fresh) *)
  getCharacterAssetsWithEnhancedLocationData characterId now.

End WithCipherAndTables.

(** A credential for character 42, a stale cache of one record, and an ESI
    endpoint that cannot be reached; the same with nothing cached. *)
Definition staleCacheWorld : World :=
  mkWorld None None {[ 42 := ESIClient.credential42 ]} (Some 42)
    (Some AssetService.cachedDatabase) AssetService.cachedDatabase [] [] [] [].

(** A world with a credential that is not about to expire, an ESI endpoint
    that answers with two assets of character 42, the ship before the
    mineral, and a cache not yet opened; and a world whose cache holds these
    two assets, stored at second 5000. *)
Definition hangarReply : EsiReply :=
  {| status := 200; retry_after := None;
     data := AssetsData [AssetService.rifter; AssetService.tritanium] |}.

Definition syncWorld : World :=
  mkWorld None None {[ 42 := ESIClient.credential42 ]} (Some 42)
    None AssetService.cachedDatabase [] [] [hangarReply] [].

Definition freshCacheWorld : World :=
  mkWorld None None {[ 42 := ESIClient.credential42 ]} (Some 42)
    (Some AssetService.hangarDatabase) AssetService.hangarDatabase [] []
    [ESIClient.assetsReply] [].

(** A cache with an asset in a player structure and an asset in a station,
    and an ESI endpoint that knows the structure. *)
Definition rowAt (characterId itemId locationId : Z) (locationType : string)
    : NewCharacterAsset :=
  {| na_characterId := characterId; na_itemId := itemId; na_typeId := 35;
     na_quantity := 10; na_locationId := locationId; na_locationFlag := "Hangar";
     na_locationType := locationType; na_isSingleton := false;
     na_isBlueprintCopy := false; na_syncedAt := 1000 |}.

Definition structureDatabase : Database :=
  {| characters_table := [];
     characterAssets := [ {| id := 1; columns := rowAt 42 2002 1000000000001 "other" |};
                          {| id := 2; columns := rowAt 42 2001 60003760 "station" |} ];
     itemTypes := [];
     next_id := 3 |}.

Definition structureReply : EsiReply :=
  {| status := 200; retry_after := None;
     data := StructureData {| si_name := "Perimeter - Trade Hub"; si_type_id := 35833;
                              si_system_id := 30000142 |} |}.

Definition structureWorld : World :=
  mkWorld None None {[ 42 := ESIClient.credential42 ]} (Some 42)
    (Some structureDatabase) structureDatabase [] [] [structureReply] [].

Definition structureRun : Result (list EnhancedAsset) * World :=
  @getCharacterAssetsWithEnhancedLocationData AuthStore.plainCipher AssetService.indexOrder
    (jitaTables (Some 0.875%float)) 42 5000000 structureWorld.

Definition structureAssets : list EnhancedAsset :=
  match fst structureRun with Ok l => l | Throw _ => [] end.

Definition noCacheWorld : World :=
  mkWorld None None {[ 42 := ESIClient.credential42 ]} (Some 42)
    (Some emptyDatabase) emptyDatabase [] [] [] [].

End EnhancedESIClient.

(* ===================================================================== *)
(** * IPCHandlers (ipc-handlers.ts) *)
(* ===================================================================== *)

Module IPCHandlers.
Import StaticData.

Section WithCipherAndTables.
(** [describe error] is [`${error}`], the text JavaScript gives the caught
    value. *)
Context `{AuthStore.Cipher} `{Db.Engine} (tables : Tables) (describe : Error → string).

(** [try { m } catch (error) { throw new Error(`${prefix}: ${error}`) }] *)
Definition rethrow {A} (prefix : string) (m : M A) : M A :=
  tryCatch m (λ error, throw (JsError (prefix +:+ ": " +:+ describe error))).

Definition handleAuthCallback (now : Z) (callbackUrl : ESIAuthManager.URL)
    : M StoredCharacterAuth :=
  rethrow "Authentication callback failed"
    (authData ← ESIAuthManager.handleCallback now callbackUrl;
     update (AuthStore.storeCharacterAuth authData);;
     mret authData).

Definition handleRemoveCharacter (characterId : Z) : M unit :=
  rethrow "Failed to remove character"
    (update (AuthStore.removeCharacterAuth characterId)).

Definition handleGetCharacterAssets (characterId : Z) (now : Z)
    : M (list EnhancedESIClient.EnhancedAsset) :=
  rethrow "Failed to get character assets"
    (EnhancedESIClient.getCharacterAssetsWithFallback tables characterId false now).

Definition handleRefreshAssets (characterId : Z) (now : Z)
    : M (list EnhancedESIClient.EnhancedAsset) :=
  rethrow "Failed to refresh assets"
    (EnhancedESIClient.getCharacterAssetsWithFallback tables characterId true now).

End WithCipherAndTables.

End IPCHandlers.

(* ===================================================================== *)
(** * The renderer: Inventory.tsx *)
(* ===================================================================== *)

Module Inventory.

(** An asset as the renderer receives it: every field may come in
    snake_case or in camelCase, and may be missing. *)
Record EVEAsset : Type := {
  item_id : option Z;
  itemId : option Z;
  type_id : option Z;
  typeId : option Z;
  quantity : Z;
  location_id : option Z;
  locationId : option Z;
  location_flag : option string;
  locationFlag : option string;
  resolvedLocation : option ResolvedLocation
}.

(** [asset.itemId || asset.item_id], and the like. *)
Definition itemIdOf (asset : EVEAsset) : option Z :=
  Js.or truthyN (itemId asset) (item_id asset).

Definition locationIdOf (asset : EVEAsset) : option Z :=
  Js.or truthyN (locationId asset) (location_id asset).

Definition locationFlagOf (asset : EVEAsset) : option string :=
  Js.or truthyS (locationFlag asset) (location_flag asset).

(** ** [formatLocationInfo] *)

Record LocationInfo : Type := {
  text : string;
  className : string
}.

(** The security class of lines 149-153. *)
Definition securityClass (solarSystem : option SolarSystemRef) : string :=
  match ss_securityValue <$> solarSystem with
  | None | Some Undefined => ""
  | Some value =>
      (* [null] compares as 0 *)
      let security := match value with Number security => security | _ => 0%float end in
      if (0.5 <=? security)%float then "high-sec"
      else if (0 <? security)%float then "low-sec"
      else "null-sec"
  end.

Section WithToFixed.
(** [Number.prototype.toFixed(1)] *)
Context (toFixed1 : float → string).

(** [solarSystem.security.toFixed(1)] throws when the security is not a
    number. *)
Definition securityText (solarSystem : SolarSystemRef) : Result string :=
  match ss_securityValue solarSystem with
  | Number security => Ok (toFixed1 security)
  | Null =>
      Throw (JsError "TypeError: Cannot read properties of null (reading 'toFixed')")
  | Undefined =>
      Throw (JsError "TypeError: Cannot read properties of undefined (reading 'toFixed')")
  end.

Definition formatLocationInfo (asset : EVEAsset) : Result LocationInfo :=
  match resolvedLocation asset with
  | None =>
      Ok {| text := "Location "
                    +:+ (if truthyN (location_id asset) then tplN (location_id asset)
                         else "Unknown");
            className := "unknown" |}
  | Some resolvedLocation =>
      let locationName := Location.locationName resolvedLocation in
      let locationType := Location.locationType resolvedLocation in
      let solarSystem := Location.solarSystem resolvedLocation in
      let region := Location.region resolvedLocation in
      let securityClass := securityClass solarSystem in
      if String.eqb locationType "station" then
        match solarSystem, region with
        | Some solarSystem, Some region =>
            match securityText solarSystem with
            | Ok security =>
                Ok {| text := locationName +:+ " (" +:+ ss_name solarSystem +:+ " "
                              +:+ security +:+ " - " +:+ rg_name region +:+ ")";
                      className := securityClass |}
            | Throw e => Throw e
            end
        | _, _ => Ok {| text := locationName; className := "unknown" |}
        end
      else if String.eqb locationType "solar_system" then
        match solarSystem, region with
        | Some solarSystem, Some region =>
            match securityText solarSystem with
            | Ok security =>
                Ok {| text := locationName +:+ " System (" +:+ security +:+ " - "
                              +:+ rg_name region +:+ ")";
                      className := securityClass |}
            | Throw e => Throw e
            end
        | _, _ => Ok {| text := locationName +:+ " System"; className := "unknown" |}
        end
      else if String.eqb locationType "structure" then
        Ok {| text := locationName +:+ " (Player Structure)"; className := "structure" |}
      else if String.eqb locationType "unknown" then
        (* For items inside other items (ships, containers), show the container info *)
        if truthyN (location_id asset) && (2000000000 <? default 0 (location_id asset)) then
          Ok {| text := "Inside Item " +:+ tplN (location_id asset);
                className := "unknown" |}
        else Ok {| text := locationName; className := "unknown" |}
      else
        Ok {| text := locationName +:+ " (" +:+ locationType +:+ ")";
              className := "unknown" |}
  end.

End WithToFixed.

(** An asset in a station of a solar system whose security is exactly one
    half. *)
Definition boundaryStation : ResolvedLocation :=
  {| Location.locationId := 60003760;
     locationName := "Jita IV - Moon 4 - Caldari Navy Assembly Plant";
     locationType := "station";
     solarSystem := Some {| ss_id := 30000142; ss_name := "Jita";
                            ss_securityValue := Number 0.5%float |};
     region := Some {| rg_id := 10000002; rg_name := "The Forge" |} |}.

Definition boundaryAsset : EVEAsset :=
  {| item_id := Some 1001; itemId := None; type_id := Some 34; typeId := None;
     quantity := 500; location_id := Some 60003760; locationId := None;
     location_flag := Some "Hangar"; locationFlag := None;
     resolvedLocation := Some boundaryStation |}.

(** ** [groupAssetsByLocation] *)

(** [assetMap]: item id to asset.  An asset object is known by its position
    in [assets]; a later asset with the same id replaces an earlier one. *)
Definition setAsset (m : gmap Z (nat * EVEAsset)) (ia : nat * EVEAsset)
    : gmap Z (nat * EVEAsset) :=
  match itemIdOf (snd ia) with
  | Some itemId => if truthyN (Some itemId) then <[itemId := ia]> m else m
  | None => m
  end.

Definition assetMap (assets : list EVEAsset) : gmap Z (nat * EVEAsset) :=
  foldl setAsset ∅ (imap pair assets).

Record Groups : Type := {
  (* the object [grouped]: key to the asset objects of the group, in the
     order of the pushes; the order of the keys themselves is not kept *)
  grouped : gmap string (list nat);
  processedAssets : gset (option Z)
}.

Definition locationKeyOf (asset : EVEAsset) : string :=
  tplN (locationIdOf asset) +:+ "-" +:+ tplS (locationFlagOf asset).

Definition parentKeyOf (parentAsset : EVEAsset) : string :=
  tplN (locationIdOf parentAsset) +:+ "-" +:+ tplS (locationFlagOf parentAsset)
  +:+ "-ship-" +:+ tplN (itemIdOf parentAsset).

(** [grouped[key].push(i)] *)
Definition push (key : string) (i : nat) (g : gmap string (list nat))
    : gmap string (list nat) :=
  <[key := default [] (g !! key) ++ [i]]> g.

(** [assetMap.get(locationId!)] *)
Definition getParent (assetMap : gmap Z (nat * EVEAsset)) (asset : EVEAsset)
    : option (nat * EVEAsset) :=
  locationIdOf asset ≫= (λ locationId, assetMap !! locationId).

(** The body of [assets.forEach] for the asset at position [i]. *)
Definition visit (assetMap : gmap Z (nat * EVEAsset)) (st : Groups)
    (ia : nat * EVEAsset) : Groups :=
  let '(i, asset) := ia in
  let itemId := itemIdOf asset in
  let regular :=
    (* This is a regular asset (not fitted to anything) *)
    let locationKey := locationKeyOf asset in
    let grouped :=
      match grouped st !! locationKey with
      | None => <[locationKey := []]> (grouped st)
      | Some _ => grouped st
      end in
    {| grouped := push locationKey i grouped;
       processedAssets := {[itemId]} ∪ processedAssets st |} in
  (* Skip if already processed as a fitted item *)
  if bool_decide (itemId ∈ processedAssets st) then st
  else
    match getParent assetMap asset with
    | Some (p, parentAsset) =>
        if bool_decide (p ≠ i) then
          (* This is a fitted item - group it under the parent *)
          let parentKey := parentKeyOf parentAsset in
          let st :=
            match grouped st !! parentKey with
            | None =>
                {| grouped := <[parentKey := [p]]> (grouped st);
                   processedAssets := {[itemIdOf parentAsset]} ∪ processedAssets st |}
            | Some _ => st
            end in
          {| grouped := push parentKey i (grouped st);
             processedAssets := {[itemId]} ∪ processedAssets st |}
        else regular
    | None => regular
    end.

Definition groupAssetsByLocation (assets : list EVEAsset) : gmap string (list nat) :=
  grouped (foldl (visit (assetMap assets))
             {| grouped := ∅; processedAssets := ∅ |} (imap pair assets)).

(** How a group is rendered: a key with [-ship-] in it is a ship group, its
    first asset the hull and the others fitted items; any other group lists
    standalone items at a location. *)
Definition isShipGroup (locationKey : string) : bool := includes "-ship-" locationKey.

Definition isFittedItem (locationKey : string) (index : nat) : bool :=
  isShipGroup locationKey && bool_decide (0 < index)%nat.

(** The data model's invariant: record ids are unique within a record set. *)
Definition UniqueIds (assets : list EVEAsset) : Prop :=
  ∀ i j a b, assets !! i = Some a → assets !! j = Some b → itemIdOf a = itemIdOf b → i = j.

(** The asset object [x] is at position [q] of the group under [key]. *)
Definition At (g : gmap string (list nat)) (key : string) (q x : nat) : Prop :=
  ∃ items, g !! key = Some items ∧ items !! q = Some x.

(** Why the asset object [x] is at position [q] of the group [K]: as a
    standalone item under its location key, as the hull that opens the ship
    group it keys, or as an item fitted to the parent found for it. *)
Definition Occ (assets : list EVEAsset) (K : string) (q x : nat) : Prop :=
  ∃ a, assets !! x = Some a
       ∧ ((K = locationKeyOf a
           ∧ (getParent (assetMap assets) a = None
              ∨ ∃ P, getParent (assetMap assets) a = Some (x, P)))
          ∨ (K = parentKeyOf a ∧ q = 0%nat)
          ∨ (∃ p P, getParent (assetMap assets) a = Some (p, P) ∧ p ≠ x
                    ∧ K = parentKeyOf P ∧ (0 < q)%nat)).

Definition Inv (assets : list EVEAsset) (st : Groups) : Prop :=
  (∀ K items, grouped st !! K = Some items → items ≠ [])
  ∧ (∀ K q x, At (grouped st) K q x → Occ assets K q x).

(** Every asset object whose id is marked as processed is in a group. *)
Definition Listed (assets : list EVEAsset) (st : Groups) : Prop :=
  ∀ k a, assets !! k = Some a → itemIdOf a ∈ processedAssets st →
         ∃ K q, At (grouped st) K q k.

(** Sample assets: a module in a ship in a container in a station hangar. *)
Definition item (id location : Z) (flag : string) : EVEAsset :=
  {| item_id := Some id; itemId := None; type_id := Some 34; typeId := None;
     quantity := 1; location_id := Some location; locationId := None;
     location_flag := Some flag; locationFlag := None; resolvedLocation := None |}.

Definition nested : list EVEAsset :=
  [ item 1 2 "HiSlot0"; item 2 3 "Cargo"; item 3 60003760 "Hangar" ].

(** A module listed before the ship it is fitted to. *)
Definition fitted : list EVEAsset :=
  [ item 1 2 "HiSlot0"; item 2 60003760 "Hangar" ].

(** A module listed before the ship it is fitted to, which names itself as
    its location. *)
Definition selfContained : list EVEAsset :=
  [ item 1 2 "HiSlot0"; item 2 2 "Hangar" ].

End Inventory.

(* ===================================================================== *)
(** * Proofs *)
(* ===================================================================== *)

(** Unfolds the monad of the main process, so that a computation runs on
    the world it is applied to. *)
Ltac run_M :=
  unfold mbind, M_bind, mret, M_ret, bind, ret, throw, read, update, tryCatch.

(* ===================================================================== *)
(** * Properties of the dispatch queue *)
(* ===================================================================== *)

Module RateLimitFacts.
Import RateLimit.

(** Each step preserves [released ++ queue] up to the admitted request. *)
Lemma process_preserves s :
  released (processRateLimitQueue s) ++ rateLimitQueue (processRateLimitQueue s)
  = released s ++ rateLimitQueue s.
Proof.
  unfold processRateLimitQueue.
  destruct (isProcessingQueue s); simpl; [done|].
  case_bool_decide as Hq; [done|].
  destruct (rateLimitQueue s) as [|next rest]; [done|].
  simpl. by rewrite <- app_assoc.
Qed.

Lemma step_preserves s e :
  released (step s e) ++ rateLimitQueue (step s e)
  = released s ++ rateLimitQueue s ++ admitted [e].
Proof.
  destruct e as [r|]; simpl.
  - unfold addToRateLimitQueue. rewrite process_preserves. done.
  - unfold timerCallback. rewrite app_nil_r.
    destruct (timers s); [done|]. by rewrite process_preserves.
Qed.

Lemma admitted_app evs1 evs2 :
  admitted (evs1 ++ evs2) = admitted evs1 ++ admitted evs2.
Proof. apply omap_app. Qed.

Lemma run_snoc evs e : run (evs ++ [e]) = step (run evs) e.
Proof. unfold run. by rewrite fold_left_app. Qed.

(** C9. Whatever the interleaving of admissions and timer callbacks, the
    requests released so far followed by the requests still queued are the
    admitted requests in admission order; so the released requests are a
    prefix of the admission sequence (first in, first out). *)
Theorem queue_is_fifo (evs : list Event) :
  released (run evs) ++ rateLimitQueue (run evs) = admitted evs
  ∧ released (run evs) `prefix_of` admitted evs.
Proof.
  assert (H : released (run evs) ++ rateLimitQueue (run evs) = admitted evs).
  { induction evs as [|e evs IH] using rev_ind; [done|].
    rewrite run_snoc, step_preserves, admitted_app, <- IH.
    by rewrite <- app_assoc. }
  split; [exact H|]. exists (rateLimitQueue (run evs)). by rewrite H.
Qed.

End RateLimitFacts.

(* ===================================================================== *)
(** * Properties of the authorization flow *)
(* ===================================================================== *)

Module ESIAuthManagerFacts.
Import ESIAuthManager.

(** A callback whose [state] is not the issued one is rejected with the
    world as it was: nothing was sent.  The error is the CSRF error unless
    the provider reported an error of its own, which is checked first. *)
Lemma handleCallback_state_mismatch now url w :
  searchParams_get "state" url ≠ authState w →
  ∃ e, handleCallback now url w = (Throw e, w)
       ∧ (truthyS (searchParams_get "error" url) = false → e = JsError csrfMessage).
Proof.
  intros Hne. unfold handleCallback.
  destruct (truthyS (searchParams_get "error" url)) eqn:Herr.
  - eexists. split; [reflexivity|]. discriminate.
  - run_M. rewrite bool_decide_eq_false_2 by exact Hne. simpl.
    eexists. split; [reflexivity|]. reflexivity.
Qed.

(** C1 (as amended). For every callback whose [state] differs from the
    state issued for the session, [handleCallback] fails before any request
    is sent (the log of requests is the one before the call, and the world
    is unchanged); the failure is the CSRF error whenever the callback has
    no non-empty [error] parameter. *)
Theorem handleCallback_rejects_forged_state now url w :
  searchParams_get "state" url ≠ authState w →
  isOk (fst (handleCallback now url w)) = false
  ∧ log (snd (handleCallback now url w)) = log w
  ∧ snd (handleCallback now url w) = w
  ∧ (truthyS (searchParams_get "error" url) = false →
     fst (handleCallback now url w) = Throw (JsError csrfMessage)).
Proof.
  intros Hne. destruct (handleCallback_state_mismatch now url w Hne) as (e & -> & He).
  simpl. repeat split; try done. intros H. by rewrite (He H).
Qed.

Lemma handleCallback_rejects_forged_state_witness :
  isOk (fst (handleCallback 0 forgedUrl sessionWorld)) = false
  ∧ log (snd (handleCallback 0 forgedUrl sessionWorld)) = log sessionWorld
  ∧ snd (handleCallback 0 forgedUrl sessionWorld) = sessionWorld
  ∧ (truthyS (searchParams_get "error" forgedUrl) = false →
     fst (handleCallback 0 forgedUrl sessionWorld) = Throw (JsError csrfMessage)).
Proof.
  apply (handleCallback_rejects_forged_state 0 forgedUrl sessionWorld).
  vm_compute. discriminate.
Defined.

(** C1 as stated fails: a callback that carries [error=access_denied] and
    a forged [state] is rejected with the provider's error, not with the
    CSRF error. *)
Lemma handleCallback_forged_state_not_always_csrf :
  searchParams_get "state" deniedUrl ≠ authState sessionWorld
  ∧ fst (handleCallback 0 deniedUrl sessionWorld)
    = Throw (JsError "OAuth2 error: access_denied - Unknown error")
  ∧ fst (handleCallback 0 deniedUrl sessionWorld) ≠ Throw (JsError csrfMessage).
Proof. vm_compute. repeat split; discriminate. Qed.

(** The two requests of the flow leave the PKCE session alone. *)
Lemma postToken_session c prefix w :
  codeVerifier (snd (postToken c prefix w)) = codeVerifier w
  ∧ authState (snd (postToken c prefix w)) = authState w.
Proof.
  unfold postToken. simpl.
  destruct (tokenEndpoint w) as [|[t|e|t] rest]; done.
Qed.

Lemma getCharacterInfo_session tok w :
  codeVerifier (snd (getCharacterInfo tok w)) = codeVerifier w
  ∧ authState (snd (getCharacterInfo tok w)) = authState w.
Proof.
  unfold getCharacterInfo. simpl.
  destruct (verifyEndpoint w) as [|[d|t|t] rest]; done.
Qed.

(** What the code does with the session: cleared on success, kept on every
    failing exit. *)
Lemma handleCallback_session now url w :
  match fst (handleCallback now url w) with
  | Ok _ =>
      codeVerifier (snd (handleCallback now url w)) = None
      ∧ authState (snd (handleCallback now url w)) = None
  | Throw _ =>
      codeVerifier (snd (handleCallback now url w)) = codeVerifier w
      ∧ authState (snd (handleCallback now url w)) = authState w
  end.
Proof.
  unfold handleCallback.
  destruct (truthyS (searchParams_get "error" url)); [done|].
  run_M.
  destruct (negb (bool_decide _)); [done|].
  destruct (negb (truthyS (searchParams_get "code" url))); [done|].
  destruct (negb (truthyS (codeVerifier w))); [done|].
  unfold exchangeCodeForTokens.
  pose proof (postToken_session
                (PostToken "authorization_code" (tplS (searchParams_get "code" url))
                   (Some (tplS (codeVerifier w))))
                "Token exchange failed: " w) as Hp.
  destruct (postToken _ _ w) as [[tokens|e] w1]; simpl in *; [|done].
  pose proof (getCharacterInfo_session (tok_access_token tokens) w1) as Hg.
  destruct (getCharacterInfo _ w1) as [[[[cid name] scopes]|e] w2]; simpl in *.
  - done.
  - destruct Hp, Hg. split; congruence.
Qed.

(** C4 (the code at the failing input). After a callback rejected for a
    forged [state], the code verifier and the issued state are still in
    memory: the session was not cleared before the error propagated. *)
Theorem handleCallback_csrf_keeps_session :
  fst (handleCallback 0 forgedUrl sessionWorld) = Throw (JsError csrfMessage)
  ∧ codeVerifier (snd (handleCallback 0 forgedUrl sessionWorld)) = Some "verifier-1"
  ∧ authState (snd (handleCallback 0 forgedUrl sessionWorld)) = Some "issued-state".
Proof. vm_compute. done. Qed.

End ESIAuthManagerFacts.

(* ===================================================================== *)
(** * Properties of the two credential stores *)
(* ===================================================================== *)

Module CredentialFacts.

Section WithCipher.
Context `{AuthStore.Cipher}.

Lemma authStore_missing_is_expired (cid now : Z) (w : World) :
  characters w !! cid = None → AuthStore.isTokenExpired cid now w = true.
Proof.
  intros Hnone. unfold AuthStore.isTokenExpired, AuthStore.getCharacterAuth.
  by rewrite Hnone.
Qed.

Lemma characterService_missing_is_expired (cid now : Z) (w : World) (d : Database) :
  db w = Some d →
  Forall (λ c, characterId c ≠ cid) (characters_table d) →
  CharacterService.isTokenExpired cid now w = (Ok true, w).
Proof.
  intros Hdb Hall.
  unfold CharacterService.isTokenExpired, CharacterService.getCharacter, Db.getDatabase.
  unfold mbind, M_bind, bind, mret, M_ret, ret. rewrite Hdb.
  replace (filter _ (characters_table d)) with (@nil Character); [done|].
  symmetry. induction Hall as [|c l Hc _ IH]; [done|].
  rewrite filter_cons_False by exact Hc. exact IH.
Qed.

(** C10 (as amended). An identity with no stored credential is reported
    as expired, with no error raised, by the auth store (no entry under the
    id) and, once the database has been initialised, by the character
    service (no row with the id in the open database); before the database
    is initialised the check of the character service raises the error of
    [getDatabase], whatever the id. *)
Theorem missing_credential_is_expired (cid now : Z) (w : World) :
  (characters w !! cid = None → AuthStore.isTokenExpired cid now w = true)
  ∧ (∀ d, db w = Some d →
          Forall (λ c, characterId c ≠ cid) (characters_table d) →
          CharacterService.isTokenExpired cid now w = (Ok true, w))
  ∧ (db w = None →
     CharacterService.isTokenExpired cid now w
     = (Throw (JsError "Database not initialized. Call initializeDatabase() first."), w)).
Proof.
  split; [|split].
  - apply authStore_missing_is_expired.
  - intros d. apply characterService_missing_is_expired.
  - intros Hdb.
    unfold CharacterService.isTokenExpired, CharacterService.getCharacter, Db.getDatabase.
    run_M. by rewrite Hdb.
Qed.

End WithCipher.

Lemma missing_credential_is_expired_witness :
  let w := set_db (Some emptyDatabase) emptyWorld in
  (characters w !! 42 = None ∧
   @AuthStore.isTokenExpired AuthStore.plainCipher 42 1000 w = true)
  ∧ (db w = Some emptyDatabase ∧
     Forall (λ c, characterId c ≠ 42) (characters_table emptyDatabase) ∧
     CharacterService.isTokenExpired 42 1000 w = (Ok true, w)).
Proof.
  intros w.
  destruct (@missing_credential_is_expired AuthStore.plainCipher 42 1000 w) as (Ha & Hb & _).
  split.
  - split; [reflexivity|]. apply Ha. reflexivity.
  - split; [reflexivity|]. split; [constructor|].
    apply (Hb emptyDatabase); [reflexivity | constructor].
Defined.

(** C10 as stated fails for the character service: with nothing stored and
    the database not yet initialised, the check of the auth store answers
    true, and the check of the character service raises an error. *)
Lemma uninitialised_database_raises :
  characters emptyWorld !! 42 = None
  ∧ db emptyWorld = None
  ∧ @AuthStore.isTokenExpired AuthStore.plainCipher 42 1000 emptyWorld = true
  ∧ CharacterService.isTokenExpired 42 1000 emptyWorld
    = (Throw (JsError "Database not initialized. Call initializeDatabase() first."),
       emptyWorld).
Proof. vm_compute. done. Qed.

End CredentialFacts.

(* ===================================================================== *)
(** * Properties of the resilient client *)
(* ===================================================================== *)

Module ESIClientFacts.
Import AuthStore ESIClient.

Section WithCipher.
Context `{Cipher}.

(** A granted refresh: one POST with the stored refresh token, and the
    new tokens are what the store gives back afterwards. *)
Lemma refreshCharacterToken_granted cid now w auth t trest :
  getCharacterAuth cid w = Some auth →
  tokenEndpoint w = TokenOk t :: trest →
  tok_access_token t ≠ "" → tok_refresh_token t ≠ "" →
  ∃ w', refreshCharacterToken cid now w = (Ok tt, w')
        ∧ log w' = log w ++ [PostToken "refresh_token" (refresh_token auth) None]
        ∧ esiEndpoint w' = esiEndpoint w
        ∧ tokenEndpoint w' = trest
        ∧ getCharacterAuth cid w' = Some (refreshed now t auth).
Proof.
  intros Hauth Htok Ha Hr.
  unfold refreshCharacterToken. run_M. rewrite Hauth.
  unfold ESIAuthManager.refreshToken, ESIAuthManager.postToken. simpl.
  rewrite Htok. unfold updateCharacterAuth. simpl.
  unfold getCharacterAuth in Hauth.
  destruct (characters w !! cid) as [enc|] eqn:Henc; [|done].
  destruct (decrypt (access_token enc)) as [a|]; [|done].
  destruct (decrypt (refresh_token enc)) as [r|]; [|done].
  injection Hauth as <-.
  eexists. split; [reflexivity|]. simpl.
  repeat split.
  unfold getCharacterAuth. simpl. rewrite lookup_insert_eq.
  destruct (String.eqb_spec (tok_access_token t) ""); [done|].
  destruct (String.eqb_spec (tok_refresh_token t) ""); [done|].
  simpl. rewrite !decrypt_encrypt. reflexivity.
Qed.


(** The sibling path: when the refresh itself is refused, the call fails
    with the 401 it received, it is not sent again, and the credential is
    removed from the store. *)
Lemma refused_refresh_invalidates now req w cid auth r1 rest :
  _characterId req = Some cid → cid ≠ 0 → _retry req = false →
  status r1 = 401 →
  getCharacterAuth cid w = Some auth →
  (∀ t trest, tokenEndpoint w ≠ TokenOk t :: trest) →
  fst (client (r1 :: rest) now req w) = Throw (AxiosError (Some 401))
  ∧ characters (snd (client (r1 :: rest) now req w)) !! cid = None
  ∧ esiEndpoint (snd (client (r1 :: rest) now req w)) = rest.
Proof.
  intros Hcid Hnz Hretry H1 Hauth Hrefused.
  cbn [client]. rewrite H1, Hretry. cbn [Z.leb Z.ltb Z.eqb Z.compare Pos.compare
    Pos.compare_cont andb negb orb Pos.eqb].
  cbn [retried _characterId]. rewrite Hcid. cbn [truthyN default].
  destruct (Z.eqb_spec cid 0) as [|_]; [done|]. cbn [negb]. unfold Datatypes.id.
  assert (Href : ∃ e w', refreshCharacterToken cid now
                           (set_esiEndpoint rest (send (EsiGet req) w)) = (Throw e, w')
                         ∧ esiEndpoint w' = rest).
  { unfold refreshCharacterToken. run_M.
    replace (getCharacterAuth cid (set_esiEndpoint rest (send (EsiGet req) w)))
      with (getCharacterAuth cid w) by done.
    rewrite Hauth. unfold ESIAuthManager.refreshToken, ESIAuthManager.postToken.
    cbn [tokenEndpoint send set_esiEndpoint].
    destruct (tokenEndpoint w) as [|[t|e|txt] trest] eqn:Htok.
    - by eexists _, _.
    - by destruct (Hrefused t trest).
    - by eexists _, _.
    - by eexists _, _. }
  destruct Href as (e & w' & -> & Hesi). cbn [fst snd].
  split; [done|]. split.
  - unfold removeCharacterAuth. case_bool_decide; cbn [characters set_store];
      apply lookup_delete_eq.
  - unfold removeCharacterAuth. by case_bool_decide.
Qed.

Lemma refreshes_app l1 l2 : refreshes (l1 ++ l2) = (refreshes l1 + refreshes l2)%nat.
Proof. unfold refreshes. by rewrite List.filter_app, length_app. Qed.

Lemma refreshCharacterToken_refreshes cid now w :
  (refreshes (log (snd (refreshCharacterToken cid now w))) ≤ refreshes (log w) + 1)%nat.
Proof.
  unfold refreshCharacterToken. run_M.
  destruct (getCharacterAuth cid w) as [auth|]; simpl; [|lia].
  unfold ESIAuthManager.refreshToken, ESIAuthManager.postToken. simpl.
  assert (Hlog : (refreshes (log w ++ [PostToken "refresh_token" (refresh_token auth) None])
                  ≤ refreshes (log w) + 1)%nat).
  { rewrite refreshes_app. unfold refreshes at 2. simpl. lia. }
  destruct (tokenEndpoint w) as [|[t|e|txt] trest]; simpl; try exact Hlog.
  unfold updateCharacterAuth. simpl.
  destruct (characters w !! cid); simpl; exact Hlog.
Qed.

Lemma removeCharacterAuth_log cid w : log (removeCharacterAuth cid w) = log w.
Proof. unfold removeCharacterAuth. by case_bool_decide. Qed.

(** One logical call refreshes at most once, whatever the endpoint
    answers, and never once its request is marked as retried. *)
Lemma client_refreshes_at_most_once script :
  ∀ now req w,
    (refreshes (log (snd (client script now req w)))
     ≤ refreshes (log w) + (if _retry req then 0 else 1))%nat.
Proof.
  induction script as [|response script IH]; intros now req w.
  - simpl. rewrite refreshes_app. unfold refreshes at 2. simpl. lia.
  - cbn [client].
    assert (Hsend : ∀ c, refreshes (log w ++ [EsiGet c]) = refreshes (log w)).
    { intros c. rewrite refreshes_app. unfold refreshes at 2. simpl. lia. }
    destruct ((200 <=? status response) && (status response <? 300)).
    { simpl. rewrite Hsend. lia. }
    destruct (status response =? 401); simpl.
    + destruct (_retry req) eqn:Hretry; simpl.
      * destruct ((status response =? 420) || (status response =? 429)).
        -- etransitivity; [apply IH|]. rewrite Hretry. simpl.
           rewrite refreshes_app, Hsend. unfold refreshes at 2. simpl. lia.
        -- simpl. rewrite Hsend. lia.
      * destruct (truthyN (_characterId req)); [|simpl; rewrite Hsend; lia].
        pose proof (refreshCharacterToken_refreshes (default 0 (_characterId req)) now
                      (set_esiEndpoint script (send (EsiGet req) w))) as Href.
        destruct (refreshCharacterToken _ now _) as [[[]|e] w1]; simpl in Href.
        -- destruct (getCharacterAuth _ w1) as [auth|].
           ++ etransitivity; [apply IH|]. simpl. rewrite Hsend in Href. lia.
           ++ simpl. rewrite Hsend in Href. lia.
        -- simpl. rewrite removeCharacterAuth_log, Hsend in *. lia.
    + destruct ((status response =? 420) || (status response =? 429)).
      * etransitivity; [apply IH|].
        simpl. rewrite refreshes_app, Hsend. unfold refreshes at 2. simpl.
        destruct (_retry req); lia.
      * simpl. rewrite Hsend. lia.
Qed.

End WithCipher.



End ESIClientFacts.

(* ===================================================================== *)
(** * Properties of the asset cache *)
(* ===================================================================== *)

Module AssetServiceFacts.
Import AssetService.

Lemma columns_imap (n : Z) (batch : list NewCharacterAsset) :
  columns <$> imap (λ i v, {| id := n + Z.of_nat i; columns := v |}) batch = batch.
Proof.
  revert n. induction batch as [|v batch IH]; intros n; [done|].
  simpl. f_equal. rewrite <- (IH (n + 1)) at 2. f_equal.
  apply imap_ext. intros i x _. simpl. f_equal. lia.
Qed.

Lemma ids_imap (n : Z) (batch : list NewCharacterAsset) :
  Forall (λ r, n ≤ id r) (imap (λ i v, {| id := n + Z.of_nat i; columns := v |}) batch).
Proof.
  apply Forall_forall. intros r Hr.
  apply elem_of_lookup_imap in Hr as (i & v & -> & _). simpl. lia.
Qed.

Lemma insertValues_ok batch w w' d :
  db w = Some d →
  insertValues batch w = (Ok tt, w') →
  ∃ d' new, db w' = Some d' ∧ appended d d' new ∧ columns <$> new = batch.
Proof.
  intros Hdb. unfold insertValues, Db.getDatabase. run_M. rewrite Hdb.
  case_bool_decide; [|done]. intros [= <-].
  eexists _, _. split; [reflexivity|]. split.
  - unfold appended. simpl. repeat split; try done.
    + apply ids_imap.
    + lia.
  - apply columns_imap.
Qed.

Lemma filter_all {A} (P : A → Prop) `{∀ x, Decision (P x)} (l : list A) :
  Forall P l → filter P l = l.
Proof.
  induction 1 as [|x l Hx _ IH]; [done|].
  rewrite filter_cons_True by done. by rewrite IH.
Qed.

Lemma filter_none {A} (P : A → Prop) `{∀ x, Decision (P x)} (l : list A) :
  Forall (λ x, ¬ P x) l → filter P l = [].
Proof.
  induction 1 as [|x l Hx _ IH]; [done|].
  by rewrite filter_cons_False.
Qed.

Lemma slice_drop {A} (i n : nat) (l : list A) :
  slice i (i + n) l ++ drop (i + n) l = drop i l.
Proof.
  unfold slice. replace (i + n - i)%nat with n by lia.
  rewrite <- (take_drop n (drop i l)) at 2. by rewrite drop_drop.
Qed.

(** The batches of the loop, together, are the records from [i] on. *)
Lemma insertBatches_ok assetRecords i :
  ∀ w w' d,
    db w = Some d →
    insertBatches assetRecords i w = (Ok tt, w') →
    ∃ d' new, db w' = Some d' ∧ appended d d' new ∧ columns <$> new = drop i assetRecords.
Proof.
  funelim (insertBatches assetRecords i); intros w w' d Hdb Hrun.
  - destruct (insertValues _ w) as [[[]|e] w1] eqn:Hins; [|done].
    destruct (insertValues_ok _ _ _ _ Hdb Hins) as (d1 & new1 & Hdb1 & Happ1 & Hcols1).
    destruct (H w (Ok tt) w1 tt w1 w' d1 Hdb1 Hrun) as (d' & new2 & Hdb' & Happ2 & Hcols2).
    exists d', (new1 ++ new2). split; [done|].
    destruct Happ1 as (Hr1 & Hid1 & Hn1 & Hc1 & Ht1).
    destruct Happ2 as (Hr2 & Hid2 & Hn2 & Hc2 & Ht2).
    split.
    + unfold appended. split; [by rewrite Hr2, Hr1, <- app_assoc|].
      split; [|repeat split; try congruence; lia].
      apply Forall_app. split; [done|].
      eapply Forall_impl; [exact Hid2|]. simpl. intros. lia.
    + rewrite fmap_app, Hcols1, Hcols2. apply slice_drop.
  - injection Hrun as <-. exists d, []. split; [done|]. split.
    + unfold appended. rewrite app_nil_r. repeat split; try done; lia.
    + simpl. symmetry. apply drop_ge. lia.
Qed.

Lemma toRecord_IsRecordOf cid syncedAt (assets : list Types.EVEAsset) :
  Forall2 (IsRecordOf cid syncedAt) assets (toRecord cid syncedAt <$> assets).
Proof.
  induction assets as [|a assets IH]; [constructor|].
  cbn [fmap list_fmap]. constructor; [|exact IH].
  unfold IsRecordOf, toRecord. cbn. by repeat split.
Qed.

(** What a completed [storeCharacterAssets] leaves in the table. *)
Lemma storeCharacterAssets_table cid assets now w w' :
  storeCharacterAssets cid assets now w = (Ok tt, w') →
  ∃ d d',
    db w = Some d ∧ db w' = Some d'
    ∧ columns <$> filter (λ r, na_characterId (columns r) = cid) (characterAssets d')
      = toRecord cid (now `div` 1000) <$> assets
    ∧ Forall (λ r, next_id d ≤ id r)
        (filter (λ r, na_characterId (columns r) = cid) (characterAssets d'))
    ∧ ∀ cid', cid' ≠ cid →
        filter (λ r, na_characterId (columns r) = cid') (characterAssets d')
        = filter (λ r, na_characterId (columns r) = cid') (characterAssets d).
Proof.
  unfold storeCharacterAssets, deleteWhere, Db.exec, Db.getDatabase. run_M.
  destruct (db w) as [d|] eqn:Hdb; [|done]. simpl.
  set (d1 := {| characters_table := characters_table d;
                characterAssets := filter (λ r, na_characterId (columns r) ≠ cid)
                                     (characterAssets d);
                itemTypes := itemTypes d; next_id := next_id d |}).
  set (records := toRecord cid (now `div` 1000) <$> assets).
  intros Hrun.
  assert (Hloop : ∃ d' new, db w' = Some d' ∧ appended d1 d' new ∧ columns <$> new = records).
  { case_bool_decide as Hlen.
    - destruct (insertBatches_ok records 0 (set_db (Some d1) w) w' d1 eq_refl Hrun)
        as (d' & new & ? & ? & Hcols).
      exists d', new. by rewrite drop_0 in Hcols.
    - injection Hrun as <-. exists d1, []. split; [done|]. split.
      + unfold appended. rewrite app_nil_r. repeat split; try done; lia.
      + destruct records; [done|]. simpl in Hlen. lia. }
  destruct Hloop as (d' & new & Hdb' & (Hrows & Hids & _ & _ & _) & Hcols).
  assert (Hnew : Forall (λ r, na_characterId (columns r) = cid) new).
  { apply Forall_forall. intros r Hr.
    assert (Hin : columns r ∈ records) by (rewrite <- Hcols; by apply list_elem_of_fmap_2).
    apply list_elem_of_fmap in Hin as (a & -> & _). done. }
  exists d, d'. split; [done|]. split; [done|].
  assert (Hfilter : filter (λ r, na_characterId (columns r) = cid) (characterAssets d') = new).
  { rewrite Hrows. simpl. rewrite filter_app.
    rewrite (filter_all _ new Hnew), filter_none; [done|].
    apply Forall_forall. intros r Hr. apply list_elem_of_filter in Hr as [Hr _]. done. }
  rewrite Hfilter. split; [done|]. split; [done|].
  intros cid' Hne. rewrite Hrows. simpl. rewrite filter_app.
  rewrite (filter_none _ new), app_nil_r.
  - rewrite list_filter_filter. apply list_filter_iff. intros r. simpl. split.
    + intros []. done.
    + intros Hr. split; [done|]. congruence.
  - eapply Forall_impl; [exact Hnew|]. simpl. intros r Hr ?. congruence.
Qed.

Section WithEngine.
Context `{Db.Engine}.

(** A read of the character's assets on an open database: the rows of the
    character, in the order of the engine. *)
Lemma getCharacterAssets_open cid w d :
  db w = Some d →
  getCharacterAssets cid w
  = (Ok (Db.selectOrder
           (filter (λ r, na_characterId (columns r) = cid) (characterAssets d))), w).
Proof. intros Hdb. unfold getCharacterAssets, Db.getDatabase. run_M. by rewrite Hdb. Qed.

(** C8. When [storeCharacterAssets] completes, the table holds for the
    character exactly one row per fetched asset, in the order of the
    assets, and each row is its asset field by field (item, type, quantity,
    location, flag, location type, singleton and blueprint-copy flags), with
    the character and the second of the call; each of these rows was
    inserted by this call (its id is not below the id counter the call
    started from), so no row of an earlier synchronisation remains; a read
    of the character's assets returns these rows, in the order of the
    engine; the rows of other characters are as before. *)
Theorem storeCharacterAssets_replaces cid assets now w w' :
  storeCharacterAssets cid assets now w = (Ok tt, w') →
  ∃ d d' rows,
    db w = Some d ∧ db w' = Some d'
    ∧ getCharacterAssets cid w' = (Ok rows, w')
    ∧ rows ≡ₚ filter (λ r, na_characterId (columns r) = cid) (characterAssets d')
    ∧ Forall2 (IsRecordOf cid (now `div` 1000)) assets
        (columns <$> filter (λ r, na_characterId (columns r) = cid) (characterAssets d'))
    ∧ Forall (λ r, next_id d ≤ id r) rows
    ∧ ∀ cid', cid' ≠ cid →
        filter (λ r, na_characterId (columns r) = cid') (characterAssets d')
        = filter (λ r, na_characterId (columns r) = cid') (characterAssets d).
Proof.
  intros Hrun.
  destruct (storeCharacterAssets_table _ _ _ _ _ Hrun)
    as (d & d' & Hdb & Hdb' & Hcols & Hids & Hothers).
  exists d, d', (Db.selectOrder
                   (filter (λ r, na_characterId (columns r) = cid) (characterAssets d'))).
  split; [done|]. split; [done|].
  split; [by apply getCharacterAssets_open|].
  split; [apply Db.selectOrder_perm|].
  split; [rewrite Hcols; apply toRecord_IsRecordOf|].
  split; [|done].
  by rewrite Db.selectOrder_perm.
Qed.

End WithEngine.

(** The loop completes when the records still to insert have keys that are
    distinct and not in the table. *)
Lemma insertBatches_completes assetRecords i :
  ∀ w d,
    db w = Some d →
    NoDup (indexKey <$> drop i assetRecords) →
    Forall (λ v, indexKey v ∉ (indexKey ∘ columns) <$> characterAssets d)
      (drop i assetRecords) →
    ∃ w', insertBatches assetRecords i w = (Ok tt, w').
Proof.
  funelim (insertBatches assetRecords i); intros w d Hdb Hnodup Hfresh; [|by eexists].
  rewrite <- (slice_drop i batchSize assetRecords) in Hnodup, Hfresh.
  rewrite fmap_app in Hnodup. apply NoDup_app in Hnodup as (Hnd1 & Hdisj & Hnd2).
  apply Forall_app in Hfresh as [Hfr1 Hfr2].
  set (d1 := {| characters_table := characters_table d;
                characterAssets :=
                  characterAssets d
                  ++ imap (λ n v, {| id := next_id d + Z.of_nat n; columns := v |})
                       (slice i (i + batchSize) assetRecords);
                itemTypes := itemTypes d;
                next_id := next_id d
                           + Z.of_nat (length (slice i (i + batchSize) assetRecords)) |}).
  assert (Hins : insertValues (slice i (i + batchSize) assetRecords) w
                 = (Ok tt, set_db (Some d1) w)).
  { unfold insertValues, Db.getDatabase. run_M. rewrite Hdb.
    by rewrite bool_decide_eq_true_2. }
  rewrite Hins.
  apply (H w (Ok tt) (set_db (Some d1) w) tt (set_db (Some d1) w) d1 eq_refl Hnd2).
  subst d1.
  cbn [characterAssets]. apply Forall_forall. intros v Hv.
  rewrite fmap_app. intros Hin.
  apply elem_of_app in Hin as [Hin|Hin].
  - by apply (proj1 (Forall_forall _ _) Hfr2 v Hv).
  - rewrite list_fmap_compose, columns_imap in Hin.
    apply (Hdisj (indexKey v)); [done|]. by apply list_elem_of_fmap_2.
Qed.

(** [storeCharacterAssets] completes on an open database when the fetched
    assets have distinct item ids. *)
Lemma storeCharacterAssets_completes cid assets now w d :
  db w = Some d →
  NoDup (item_id <$> assets) →
  ∃ w', storeCharacterAssets cid assets now w = (Ok tt, w').
Proof.
  intros Hdb Hnodup.
  unfold storeCharacterAssets, deleteWhere, Db.exec, Db.getDatabase. run_M.
  rewrite Hdb. cbn [db set_db].
  case_bool_decide; [|by eexists].
  eapply insertBatches_completes; [reflexivity| |]; rewrite drop_0.
  - replace (indexKey <$> (toRecord cid (now `div` 1000) <$> assets))
      with (pair cid <$> (Types.item_id <$> assets))
      by (by rewrite <- !list_fmap_compose).
    apply NoDup_fmap_2; [|done]. by intros x y [= ->].
  - apply Forall_forall. intros v Hv. apply list_elem_of_fmap in Hv as (a & -> & _).
    cbn [characterAssets]. intros Hin. apply list_elem_of_fmap in Hin as (r & Hkey & Hr).
    apply list_elem_of_filter in Hr as [Hr _]. apply Hr.
    simpl in Hkey. by injection Hkey as <- _.
Qed.

Lemma storeCharacterAssets_replaces_witness :
  ∃ d d' rows,
    db cachedWorld = Some d
    ∧ db (snd (storeCharacterAssets 42 [rifter; tritanium] 5000000 cachedWorld)) = Some d'
    ∧ @getCharacterAssets indexOrder 42
        (snd (storeCharacterAssets 42 [rifter; tritanium] 5000000 cachedWorld))
      = (Ok rows, snd (storeCharacterAssets 42 [rifter; tritanium] 5000000 cachedWorld))
    ∧ rows ≡ₚ filter (λ r, na_characterId (columns r) = 42) (characterAssets d')
    ∧ Forall2 (IsRecordOf 42 (5000000 `div` 1000)) [rifter; tritanium]
        (columns <$> filter (λ r, na_characterId (columns r) = 42) (characterAssets d'))
    ∧ Forall (λ r, next_id d ≤ id r) rows
    ∧ ∀ cid', cid' ≠ 42 →
        filter (λ r, na_characterId (columns r) = cid') (characterAssets d')
        = filter (λ r, na_characterId (columns r) = cid') (characterAssets d).
Proof.
  apply (@storeCharacterAssets_replaces indexOrder 42 [rifter; tritanium] 5000000 cachedWorld
           (snd (storeCharacterAssets 42 [rifter; tritanium] 5000000 cachedWorld))).
  vm_compute. reflexivity.
Defined.

(** The engine's order shows: the ship was fetched and inserted first, and
    a read from the unique index returns it second. *)
Lemma read_back_in_index_order :
  (na_itemId ∘ columns)
  <$> default [] (match fst (@getCharacterAssets indexOrder 42
                               (snd (storeCharacterAssets 42 [rifter; tritanium] 5000000
                                       cachedWorld))) with
                  | Ok rows => Some rows
                  | Throw _ => None
                  end)
  = [1001; 1002].
Proof. vm_compute. reflexivity. Qed.

End AssetServiceFacts.

(* ===================================================================== *)
(** * Properties of the fetch-or-cache policy *)
(* ===================================================================== *)

Module FallbackFacts.
Import AuthStore ESIClient StaticData DatabaseManager EnhancedESIClient.

Section WithCipherAndTables.
Context `{Cipher} `{Db.Engine} (tables : Tables).

(** The client never touches the database. *)
Lemma refreshCharacterToken_db cid now w :
  db (snd (refreshCharacterToken cid now w)) = db w.
Proof.
  unfold refreshCharacterToken. run_M.
  destruct (getCharacterAuth cid w); [|done].
  unfold ESIAuthManager.refreshToken, ESIAuthManager.postToken. simpl.
  destruct (tokenEndpoint w) as [|[t|e|txt] trest]; simpl; try done.
  unfold updateCharacterAuth. simpl. by destruct (characters w !! cid).
Qed.

Lemma removeCharacterAuth_db cid w : db (removeCharacterAuth cid w) = db w.
Proof. unfold removeCharacterAuth. by case_bool_decide. Qed.

Lemma client_db script : ∀ now req w, db (snd (client script now req w)) = db w.
Proof.
  induction script as [|response script IH]; intros now req w; [done|].
  cbn [client].
  destruct ((200 <=? status response) && (status response <? 300)); [done|].
  destruct ((status response =? 401) && negb (_retry req)).
  - destruct (truthyN _); [|done].
    pose proof (refreshCharacterToken_db (default 0 (_characterId (retried req))) now
                  (set_esiEndpoint script (send (EsiGet req) w))) as Href.
    destruct (refreshCharacterToken _ now _) as [[[]|e] w1]; simpl in Href.
    + destruct (getCharacterAuth _ w1); [|done]. by rewrite IH.
    + simpl. by rewrite removeCharacterAuth_db.
  - destruct ((status response =? 420) || (status response =? 429)); [|done].
    by rewrite IH.
Qed.

Lemma makeAuthenticatedRequest_db cid ep now w :
  db (snd (makeAuthenticatedRequest cid ep now w)) = db w.
Proof.
  unfold makeAuthenticatedRequest. run_M.
  destruct (getCharacterAuth cid w) as [auth|]; [|done].
  destruct (isTokenExpired cid now w).
  - pose proof (refreshCharacterToken_db cid now w) as Href.
    destruct (refreshCharacterToken cid now w) as [[[]|e] w1]; simpl in Href; [|done].
    destruct (getCharacterAuth cid w1); [|done].
    unfold get. by rewrite client_db.
  - unfold get. by rewrite client_db.
Qed.

Lemma getCharacterAssets_db cid now w :
  db (snd (ESIClient.getCharacterAssets cid now w)) = db w.
Proof.
  unfold ESIClient.getCharacterAssets. run_M.
  pose proof (makeAuthenticatedRequest_db cid
                ("/characters/" +:+ showZ cid +:+ "/assets/") now w) as Hdb.
  by destruct (makeAuthenticatedRequest _ _ now w) as [[r|e] w1].
Qed.

Lemma getStructureInfo_db cid sid now w :
  db (snd (getStructureInfo cid sid now w)) = db w.
Proof.
  unfold getStructureInfo. run_M.
  pose proof (makeAuthenticatedRequest_db cid
                ("/universe/structures/" +:+ showZ sid +:+ "/") now w) as Hdb.
  by destruct (makeAuthenticatedRequest _ _ now w) as [[r|e] w1].
Qed.

(** The loop over the structures always completes: a failed lookup is
    caught. *)
Lemma enhanceStructures_completes cid now assets :
  ∀ locations w,
    ∃ locations' w',
      enhanceStructures tables cid now assets locations w = (Ok locations', w')
      ∧ db w' = db w.
Proof.
  induction assets as [|a assets IH]; intros locations w.
  - by exists locations, w.
  - cbn [enhanceStructures]. run_M.
    assert (Hstep : ∀ m : M (gmap Z ResolvedLocation),
              (∃ l1 w1, m w = (Ok l1, w1) ∧ db w1 = db w) →
              ∃ locations' w',
                (let (r, w') := m w in
                 match r with
                 | Ok a0 => enhanceStructures tables cid now assets a0 w'
                 | Throw e => (Throw e, w')
                 end) = (Ok locations', w') ∧ db w' = db w).
    { intros m (l1 & w1 & -> & Hdb1).
      destruct (IH l1 w1) as (l2 & w2 & -> & Hdb2).
      exists l2, w2. split; [done|]. congruence. }
    apply Hstep.
    destruct (resolvedLocation a) as [k|own]; [|by exists locations, w].
    destruct (locations !! k) as [l|]; [|by exists locations, w].
    destruct (String.eqb (locationType l) "structure"); [|by exists locations, w].
    pose proof (getStructureInfo_db cid (locationId l) now w) as Hdb.
    destruct (getStructureInfo cid (locationId l) now w) as [[info|e] w1]; simpl in Hdb.
    + by eexists _, w1.
    + by exists locations, w1.
Qed.

(** Reading the cache gives the cached rows of the character, in the order
    of the engine, whatever the network does during the lookups of
    structures; the database is not changed. *)
Lemma cached_read_completes cid now w d :
  db w = Some d →
  ∃ l w',
    getCharacterAssetsWithEnhancedLocationData tables cid now w = (Ok l, w')
    ∧ (asset ∘ base) <$> l
      = Db.joinOrder (filter (λ r, na_characterId (columns r) = cid) (characterAssets d))
    ∧ db w' = Some d.
Proof.
  intros Hdb.
  unfold getCharacterAssetsWithEnhancedLocationData, getCharacterAssetsWithLocationData,
    getCharacterAssetsWithData, AssetService.getCharacterAssetsWithTypes, Db.getDatabase.
  run_M. rewrite Hdb.
  match goal with
  | |- context [enhanceStructures tables cid now ?l ?m w] =>
      destruct (enhanceStructures_completes cid now l m w) as (locs & w' & -> & Hdb')
  end.
  eexists _, w'. split; [reflexivity|]. split; [|congruence].
  rewrite <- !list_fmap_compose.
  induction (Db.joinOrder _) as [|r rows IH]; [done|].
  simpl. f_equal. exact IH.
Qed.

Lemma ensureDbInitialized_idem w :
  ensureDbInitialized (snd (ensureDbInitialized w)) = (Ok tt, snd (ensureDbInitialized w)).
Proof.
  unfold ensureDbInitialized, Db.initializeDatabase. run_M.
  destruct (db w) eqn:Hdb; simpl; by rewrite ?Hdb.
Qed.

Lemma ensureDbInitialized_ok w : fst (ensureDbInitialized w) = Ok tt.
Proof.
  unfold ensureDbInitialized, Db.initializeDatabase. run_M. by destruct (db w).
Qed.

(** Reading the statistics changes nothing. *)
Lemma getCharacterAssetStats_world cid w stats w2 :
  getCharacterAssetStats cid w = (Ok stats, w2) → w2 = w.
Proof.
  unfold getCharacterAssetStats, AssetService.getCharacterAssetStats,
    AssetService.getCharacterAssets, AssetService.getCharacterAssetsWithTypes,
    Db.getDatabase. run_M.
  destruct (db w) as [d|] eqn:Hdb; [|done].
  destruct (Db.selectOrder _); simpl; rewrite Hdb; by intros [= _ <-].
Qed.

(** A failed fetch fails the synchronisation, with the database untouched. *)
Lemma getAndSync_fetch_failure cid now w e w1 :
  ESIClient.getCharacterAssets cid now (snd (ensureDbInitialized w)) = (Throw e, w1) →
  getAndSyncCharacterAssets cid now (snd (ensureDbInitialized w)) = (Throw e, w1)
  ∧ db w1 = db (snd (ensureDbInitialized w)).
Proof.
  intros Hfetch. split.
  - unfold getAndSyncCharacterAssets. run_M.
    rewrite ensureDbInitialized_idem. by rewrite Hfetch.
  - pose proof (getCharacterAssets_db cid now (snd (ensureDbInitialized w))) as Hdb.
    by rewrite Hfetch in Hdb.
Qed.

(** C3 (as amended). When the remote fetch fails: a forced refresh
    propagates the failure, whatever is cached and however old it is; a
    refresh that was not forced (the cache being old, or empty) swallows it
    and returns the cached records of the character, which are no records
    when nothing is cached. *)
Theorem fallback_on_fetch_failure cid now w e w1 d :
  ESIClient.getCharacterAssets cid now (snd (ensureDbInitialized w)) = (Throw e, w1) →
  db (snd (ensureDbInitialized w)) = Some d →
  getCharacterAssetsWithFallback tables cid true now w = (Throw e, w1)
  ∧ ∀ stats w2,
      getCharacterAssetStats cid (snd (ensureDbInitialized w)) = (Ok stats, w2) →
      cacheIsOld stats now = true →
      ∃ l w',
        getCharacterAssetsWithFallback tables cid false now w = (Ok l, w')
        ∧ (asset ∘ base) <$> l
          ≡ₚ filter (λ r, na_characterId (columns r) = cid) (characterAssets d)
        ∧ (filter (λ r, na_characterId (columns r) = cid) (characterAssets d) = [] →
           l = []).
Proof.
  intros Hfetch Hdb.
  destruct (getAndSync_fetch_failure cid now w e w1 Hfetch) as [Hsync Hdb1].
  pose proof (ensureDbInitialized_ok w) as Hinit.
  split.
  - unfold getCharacterAssetsWithFallback. run_M.
    destruct (ensureDbInitialized w) as [r0 w0]; simpl in *. subst r0.
    by rewrite Hsync.
  - intros stats w2 Hstats Hold.
    apply getCharacterAssetStats_world in Hstats as Hw2. subst w2.
    destruct (cached_read_completes cid now w1 d) as (l & w' & Hread & Hrows & _);
      [congruence|].
    exists l, w'. split; [|split].
    + unfold getCharacterAssetsWithFallback. run_M.
      destruct (ensureDbInitialized w) as [r0 w0]; simpl in *. subst r0.
      rewrite Hstats, Hold, Hsync. exact Hread.
    + rewrite Hrows. apply Db.joinOrder_perm.
    + intros Hnone. rewrite Hnone in Hrows.
      pose proof (Db.joinOrder_perm []) as Hperm.
      apply Permutation_nil_r in Hperm. rewrite Hperm in Hrows.
      by apply fmap_nil_inv in Hrows.
Qed.

End WithCipherAndTables.

Lemma fallback_on_fetch_failure_witness :
  @getCharacterAssetsWithFallback plainCipher AssetService.indexOrder noTables 42 true
    5000000 staleCacheWorld
  = (Throw (AxiosError None),
     snd (@ESIClient.getCharacterAssets plainCipher 42 5000000
            (snd (ensureDbInitialized staleCacheWorld))))
  ∧ ∀ stats w2,
      @getCharacterAssetStats AssetService.indexOrder 42
        (snd (ensureDbInitialized staleCacheWorld)) = (Ok stats, w2) →
      cacheIsOld stats 5000000 = true →
      ∃ l w',
        @getCharacterAssetsWithFallback plainCipher AssetService.indexOrder noTables 42 false
          5000000 staleCacheWorld
        = (Ok l, w')
        ∧ (asset ∘ base) <$> l
          ≡ₚ filter (λ r, na_characterId (columns r) = 42)
               (characterAssets AssetService.cachedDatabase)
        ∧ (filter (λ r, na_characterId (columns r) = 42)
             (characterAssets AssetService.cachedDatabase) = [] →
           l = []).
Proof.
  eapply (@fallback_on_fetch_failure plainCipher AssetService.indexOrder noTables 42 5000000
            staleCacheWorld).
  - vm_compute. reflexivity.
  - vm_compute. reflexivity.
Defined.

(** A forced refresh over a cache that was synchronised a minute ago
    propagates the failure all the same, and a refresh that is not forced
    over the old cache returns its record. *)
Lemma forced_refresh_fails_over_fresh_cache :
  fst (@getCharacterAssetsWithFallback plainCipher AssetService.indexOrder noTables 42 true
         1060000 staleCacheWorld)
  = Throw (AxiosError None)
  ∧ (asset ∘ base)
    <$> default [] (match fst (@getCharacterAssetsWithFallback plainCipher
                                 AssetService.indexOrder noTables 42 false 5000000
                                 staleCacheWorld) with
                    | Ok l => Some l
                    | Throw _ => None
                    end)
    = [ {| id := 1; columns := AssetService.staleRow 42 999 |} ].
Proof. vm_compute. done. Qed.

(** C3 as stated fails in both directions.  With nothing cached and the ESI
    endpoint unreachable, a call that is not forced returns the empty list
    instead of the failure; with a stale record cached and the same failure,
    a forced call propagates the failure instead of returning the record. *)
Lemma fallback_neither_propagates_nor_degrades :
  (fst (@ESIClient.getCharacterAssets plainCipher 42 5000000 noCacheWorld)
   = Throw (AxiosError None)
   ∧ fst (@AssetService.getCharacterAssets AssetService.indexOrder 42 noCacheWorld) = Ok []
   ∧ fst (@getCharacterAssetsWithFallback plainCipher AssetService.indexOrder noTables 42
            false 5000000 noCacheWorld)
     = Ok [])
  ∧ (fst (@ESIClient.getCharacterAssets plainCipher 42 5000000 staleCacheWorld)
     = Throw (AxiosError None)
     ∧ fst (@AssetService.getCharacterAssets AssetService.indexOrder 42 staleCacheWorld)
       = Ok [ {| id := 1; columns := AssetService.staleRow 42 999 |} ]
     ∧ fst (@getCharacterAssetsWithFallback plainCipher AssetService.indexOrder noTables 42
              true 5000000 staleCacheWorld)
       = Throw (AxiosError None)).
Proof. vm_compute. repeat split. Qed.

End FallbackFacts.

(* ===================================================================== *)
(** * Properties of the security classification *)
(* ===================================================================== *)

Module SecurityFacts.
Import Inventory.

(** The two thresholds, as the specification of binary64 reads them. *)
Lemma half_SF : Prim2SF 0.5 = S754_finite false 4503599627370496 (-53).
Proof. reflexivity. Qed.

Lemma zero_SF : Prim2SF 0 = S754_zero false.
Proof. reflexivity. Qed.

Lemma compare_cont_opp (p q : positive) :
  Pos.compare_cont Eq q p = CompOpp (Pos.compare_cont Eq p q).
Proof. exact (Pos.compare_antisym p q). Qed.

(** Two finite positive numbers: the first below the second excludes the
    second at or below the first. *)
Lemma SFltb_not_SFleb_pos (x : spec_float) (m : positive) (e : Z) :
  SFltb x (S754_finite false m e) = true → SFleb (S754_finite false m e) x = false.
Proof.
  unfold SFltb, SFleb.
  destruct x as [sgn|sgn| |sgn mx ex]; cbv [SFcompare].
  - done.
  - by destruct sgn.
  - done.
  - destruct sgn; [done|].
    rewrite (Z.compare_antisym ex e), (compare_cont_opp mx m).
    destruct (ex ?= e); cbv [CompOpp]; try done.
    by destruct (Pos.compare_cont Eq mx m).
Qed.

(** A number below one half is not at or above it. *)
Lemma below_half_not_above (s : float) :
  (s <? 0.5)%float = true → (0.5 <=? s)%float = false.
Proof.
  rewrite ltb_spec, leb_spec, half_SF. apply SFltb_not_SFleb_pos.
Qed.

Lemma SFleb_zero (x : spec_float) (m : positive) (e : Z) :
  SFleb x (S754_zero false) = true →
  SFleb (S754_finite false m e) x = false ∧ SFltb (S754_zero false) x = false.
Proof.
  unfold SFltb, SFleb.
  destruct x as [sgn|sgn| |sgn mx ex]; cbv [SFcompare]; try done.
  - by destruct sgn.
  - by destruct sgn.
Qed.

(** A number at or below zero is neither above zero nor at or above one
    half. *)
Lemma at_most_zero_not_above (s : float) :
  (s <=? 0)%float = true → (0.5 <=? s)%float = false ∧ (0 <? s)%float = false.
Proof.
  rewrite !leb_spec, ltb_spec, half_SF, zero_SF. apply SFleb_zero.
Qed.

Lemma securityClass_known (ss : SolarSystemRef) (s : float) :
  ss_security ss = Some s →
  securityClass (Some ss)
  = if (0.5 <=? s)%float then "high-sec"
    else if (0 <? s)%float then "low-sec" else "null-sec".
Proof.
  unfold ss_security, securityClass. cbn [fmap option_fmap option_map].
  destruct (ss_securityValue ss); [by intros [= ->] | done | done].
Qed.

(** C7. For a location resolved with a solar system of known security [s],
    the security class is high-sec when [s >= 0.5], low-sec when
    [0 < s < 0.5] and null-sec when [s <= 0]; it is the class name under
    which a station or a solar system resolved with its region is shown. *)
Theorem security_classification (toFixed1 : float → string)
    (asset : EVEAsset) (location : ResolvedLocation) (ss : SolarSystemRef) (s : float) :
  resolvedLocation asset = Some location →
  solarSystem location = Some ss →
  ss_security ss = Some s →
  ((0.5 <=? s)%float = true → securityClass (Some ss) = "high-sec")
  ∧ ((0 <? s)%float = true → (s <? 0.5)%float = true → securityClass (Some ss) = "low-sec")
  ∧ ((s <=? 0)%float = true → securityClass (Some ss) = "null-sec")
  ∧ (∀ rg, region location = Some rg →
           locationType location = "station" ∨ locationType location = "solar_system" →
           ∃ info, formatLocationInfo toFixed1 asset = Ok info
                   ∧ className info = securityClass (Some ss)).
Proof.
  intros Hloc Hss Hs. rewrite (securityClass_known ss s Hs).
  repeat split.
  - by intros ->.
  - intros Hpos Hlow. by rewrite (below_half_not_above s Hlow), Hpos.
  - intros Hle. by destruct (at_most_zero_not_above s Hle) as [-> ->].
  - intros rg Hrg Htype. unfold formatLocationInfo, securityText.
    assert (Hv : ss_securityValue ss = Number s).
    { unfold ss_security in Hs. destruct (ss_securityValue ss); [|done|done].
      by injection Hs as ->. }
    rewrite Hloc, Hss, Hrg, Hv.
    destruct Htype as [-> | ->]; simpl; eexists; (split; [reflexivity|]); simpl;
      by rewrite (securityClass_known ss s Hs).
Qed.

Lemma security_classification_witness :
  ((0.5 <=? 0.5)%float = true
   → securityClass (Some {| ss_id := 30000142; ss_name := "Jita";
                            ss_securityValue := Number 0.5%float |}) = "high-sec")
  ∧ ((0 <? 0.5)%float = true → (0.5 <? 0.5)%float = true
     → securityClass (Some {| ss_id := 30000142; ss_name := "Jita";
                              ss_securityValue := Number 0.5%float |}) = "low-sec")
  ∧ ((0.5 <=? 0)%float = true
     → securityClass (Some {| ss_id := 30000142; ss_name := "Jita";
                              ss_securityValue := Number 0.5%float |}) = "null-sec")
  ∧ (∀ rg, region boundaryStation = Some rg →
           locationType boundaryStation = "station"
           ∨ locationType boundaryStation = "solar_system" →
           ∃ info, formatLocationInfo (λ _, "0.5") boundaryAsset = Ok info
                   ∧ className info
                     = securityClass (Some {| ss_id := 30000142; ss_name := "Jita";
                                              ss_securityValue := Number 0.5%float |})).
Proof.
  apply (security_classification (λ _, "0.5") boundaryAsset boundaryStation
           {| ss_id := 30000142; ss_name := "Jita"; ss_securityValue := Number 0.5%float |}
           0.5%float); reflexivity.
Defined.

(** The boundary values: 0.5 is high, the binary64 nearest to 0.49999 is
    low, zero and negative values are null. *)
Lemma security_boundaries :
  securityClass (Some {| ss_id := 30000142; ss_name := "Jita"; ss_securityValue := Number 0.5%float |})
  = "high-sec"
  ∧ securityClass (Some {| ss_id := 1; ss_name := "A";
                           ss_securityValue := Number 0x1.fffd60e94ee39p-2%float |}) = "low-sec"
  ∧ securityClass (Some {| ss_id := 2; ss_name := "B"; ss_securityValue := Number 0%float |})
    = "null-sec"
  ∧ securityClass (Some {| ss_id := 3; ss_name := "C"; ss_securityValue := Number (-1)%float |})
    = "null-sec".
Proof. vm_compute. done. Qed.

End SecurityFacts.

(* ===================================================================== *)
(** * Properties of the hierarchy grouping *)
(* ===================================================================== *)

Module InventoryFacts.
Import Inventory.

(** ** Strings: a parent key is the key of a ship group *)

Lemma includes_app_r (needle s t : string) :
  includes needle t = true → includes needle (s +:+ t) = true.
Proof.
  intros Ht. induction s as [|c s IH]; [exact Ht|].
  change (String c s +:+ t) with (String c (s +:+ t)).
  cbn [includes]. rewrite IH. apply orb_true_r.
Qed.

Lemma prefix_app (needle t : string) : String.prefix needle (needle +:+ t) = true.
Proof.
  induction needle as [|a needle IH].
  - by destruct t.
  - change (String a needle +:+ t) with (String a (needle +:+ t)).
    cbn [String.prefix]. by destruct (ascii_dec a a).
Qed.

Lemma includes_prefix (needle t : string) : includes needle (needle +:+ t) = true.
Proof.
  assert (Hunfold : ∀ s, includes needle s
                         = String.prefix needle s
                           || match s with
                              | EmptyString => false
                              | String _ s' => includes needle s'
                              end) by (by intros []).
  by rewrite Hunfold, prefix_app.
Qed.

Lemma isShipGroup_parentKey (parentAsset : EVEAsset) :
  isShipGroup (parentKeyOf parentAsset) = true.
Proof.
  unfold isShipGroup, parentKeyOf.
  do 3 apply includes_app_r. apply includes_prefix.
Qed.

(** ** The asset map *)

Lemma assetMap_snoc (l : list EVEAsset) (a : EVEAsset) :
  assetMap (l ++ [a]) = setAsset (assetMap l) (length l, a).
Proof.
  unfold assetMap. rewrite imap_app, foldl_app. simpl.
  by rewrite Nat.add_0_r.
Qed.

(** An entry of the map is an asset of the list, under its own truthy id. *)
Lemma assetMap_sound (l : list EVEAsset) :
  ∀ k p P, assetMap l !! k = Some (p, P) →
           l !! p = Some P ∧ itemIdOf P = Some k ∧ k ≠ 0.
Proof.
  induction l as [|a l IH] using rev_ind; intros k p P.
  - unfold assetMap. simpl. by rewrite lookup_empty.
  - rewrite assetMap_snoc. unfold setAsset. cbn [snd].
    assert (Hold : assetMap l !! k = Some (p, P) →
                   (l ++ [a]) !! p = Some P ∧ itemIdOf P = Some k ∧ k ≠ 0).
    { intros Hk. destruct (IH k p P Hk) as (Hp & ? & ?).
      split; [|done]. by apply lookup_app_l_Some. }
    destruct (itemIdOf a) as [itemId|] eqn:Hid; [|exact Hold].
    destruct (truthyN (Some itemId)) eqn:Htruthy; [|exact Hold].
    destruct (decide (itemId = k)) as [->|Hne].
    + rewrite lookup_insert_eq. intros [= <- <-].
      split; [by rewrite list_lookup_middle|]. split; [done|].
      simpl in Htruthy. intros ->. done.
    + rewrite lookup_insert_ne by done. exact Hold.
Qed.

(** Every asset with a truthy id has its id in the map. *)
Lemma assetMap_complete (l : list EVEAsset) :
  ∀ j B k, l !! j = Some B → itemIdOf B = Some k → k ≠ 0 → is_Some (assetMap l !! k).
Proof.
  induction l as [|a l IH] using rev_ind; intros j B k Hj Hid Hk; [done|].
  rewrite assetMap_snoc. unfold setAsset. cbn [snd].
  assert (Htruthy : truthyN (Some k) = true).
  { simpl. by destruct (Z.eqb_spec k 0). }
  apply lookup_app_Some in Hj as [Hj | [_ Hj]].
  - pose proof (IH j B k Hj Hid Hk) as Hsome.
    destruct (itemIdOf a) as [itemId|]; [|done].
    destruct (truthyN (Some itemId)); [|done].
    destruct (decide (itemId = k)) as [->|Hne].
    + rewrite lookup_insert_eq. by eexists.
    + by rewrite lookup_insert_ne.
  - destruct (j - length l)%nat; [|done]. injection Hj as ->.
    rewrite Hid, Htruthy, lookup_insert_eq. by eexists.
Qed.

Lemma getParent_Some amap a p P :
  getParent amap a = Some (p, P) →
  ∃ l, locationIdOf a = Some l ∧ amap !! l = Some (p, P).
Proof.
  unfold getParent. destruct (locationIdOf a) as [l|]; [|done].
  simpl. intros Hl. by exists l.
Qed.

(** With unique ids, the parent found for a record contained in [B] is [B]. *)
Lemma getParent_unique (assets : list EVEAsset) (A B : EVEAsset) (j : nat) :
  UniqueIds assets →
  assets !! j = Some B →
  locationIdOf A = itemIdOf B →
  truthyN (itemIdOf B) = true →
  getParent (assetMap assets) A = Some (j, B).
Proof.
  intros Huniq Hj Hloc Htruthy. unfold getParent. rewrite Hloc.
  destruct (itemIdOf B) as [k|] eqn:Hid; [|done]. simpl.
  assert (Hk : k ≠ 0) by (intros ->; done).
  destruct (assetMap_complete assets j B k Hj Hid Hk) as [[p P] Hlook].
  destruct (assetMap_sound assets k p P Hlook) as (Hp & HidP & _).
  assert (p = j) as ->.
  { apply (Huniq p j P B Hp Hj). congruence. }
  rewrite Hlook. f_equal. f_equal. congruence.
Qed.

(** A record that names itself as its container has no parent but itself. *)
Lemma getParent_self (assets : list EVEAsset) (A : EVEAsset) (i : nat) :
  UniqueIds assets →
  assets !! i = Some A →
  locationIdOf A = itemIdOf A →
  getParent (assetMap assets) A = None
  ∨ ∃ P, getParent (assetMap assets) A = Some (i, P).
Proof.
  intros Huniq Hi Hloc.
  destruct (getParent (assetMap assets) A) as [[p P]|] eqn:Hparent; [|by left].
  right. exists P.
  destruct (getParent_Some _ _ _ _ Hparent) as (l & Hl & Hlook).
  destruct (assetMap_sound assets l p P Hlook) as (Hp & HidP & _).
  assert (p = i) as ->; [|done].
  apply (Huniq p i P A Hp Hi). congruence.
Qed.

(** ** Pushing into a group *)

Lemma push_lookup_eq K i (g : gmap string (list nat)) :
  push K i g !! K = Some (default [] (g !! K) ++ [i]).
Proof. unfold push. by rewrite lookup_insert_eq. Qed.

Lemma push_lookup_ne K K' i (g : gmap string (list nat)) :
  K ≠ K' → push K i g !! K' = g !! K'.
Proof. intros Hne. unfold push. by rewrite lookup_insert_ne. Qed.

(** "[if (!grouped[key]) grouped[key] = []]" before a push changes nothing. *)
Lemma push_ensure K i (g : gmap string (list nat)) :
  push K i (match g !! K with None => <[K := []]> g | Some _ => g end) = push K i g.
Proof.
  destruct (g !! K) eqn:HK; [done|].
  unfold push. rewrite lookup_insert_eq, HK. simpl. by rewrite insert_insert_eq.
Qed.

Lemma At_push_mono g K q x K' i : At g K q x → At (push K' i g) K q x.
Proof.
  intros (items & HK & Hq). destruct (decide (K' = K)) as [->|Hne].
  - exists (items ++ [i]). rewrite push_lookup_eq, HK. split; [done|].
    by apply lookup_app_l_Some.
  - exists items. by rewrite push_lookup_ne.
Qed.

Lemma At_push_new g K i : At (push K i g) K (length (default [] (g !! K))) i.
Proof.
  eexists. rewrite push_lookup_eq. split; [done|]. by rewrite list_lookup_middle.
Qed.

Lemma At_push_inv g K q x K' i :
  At (push K' i g) K q x →
  At g K q x ∨ (K = K' ∧ x = i ∧ q = length (default [] (g !! K'))).
Proof.
  intros (items & HK & Hq). destruct (decide (K' = K)) as [->|Hne].
  - rewrite push_lookup_eq in HK. injection HK as <-.
    apply lookup_app_Some in Hq as [Hq | [Hlen Hq]].
    + left. destruct (g !! K) as [old|] eqn:Hold; [|done]. by exists old.
    + right. destruct (q - length (default [] (g !! K)))%nat eqn:Hd; [|done].
      injection Hq as <-. split; [done|]. split; [done|]. lia.
  - left. exists items. by rewrite push_lookup_ne in HK.
Qed.

Lemma At_insert_mono (g : gmap string (list nat)) K' v K q x :
  g !! K' = None → At g K q x → At (<[K' := v]> g) K q x.
Proof.
  intros Hfresh (items & HK & Hq). exists items. split; [|done].
  rewrite lookup_insert_ne; [done|]. intros ->. congruence.
Qed.

Lemma At_insert_inv (g : gmap string (list nat)) K' p K q x :
  At (<[K' := [p]]> g) K q x → At g K q x ∨ (K = K' ∧ q = 0%nat ∧ x = p).
Proof.
  intros (items & HK & Hq). destruct (decide (K' = K)) as [->|Hne].
  - rewrite lookup_insert_eq in HK. injection HK as <-.
    right. destruct q; [|done]. by injection Hq as <-.
  - left. exists items. by rewrite lookup_insert_ne in HK.
Qed.

(** ** One visit of the loop *)

(** The three ways a visit can go. *)
Lemma visit_cases amap st i a :
  ((itemIdOf a ∈ processedAssets st) ∧ visit amap st (i, a) = st)
  ∨ ((itemIdOf a ∉ processedAssets st)
     ∧ (getParent amap a = None ∨ ∃ P, getParent amap a = Some (i, P))
     ∧ visit amap st (i, a)
       = {| grouped := push (locationKeyOf a) i (grouped st);
            processedAssets := {[itemIdOf a]} ∪ processedAssets st |})
  ∨ ((itemIdOf a ∉ processedAssets st)
     ∧ ∃ p P, getParent amap a = Some (p, P) ∧ p ≠ i
       ∧ ((grouped st !! parentKeyOf P = None
           ∧ visit amap st (i, a)
             = {| grouped := push (parentKeyOf P) i (<[parentKeyOf P := [p]]> (grouped st));
                  processedAssets :=
                    {[itemIdOf a]} ∪ ({[itemIdOf P]} ∪ processedAssets st) |})
          ∨ (is_Some (grouped st !! parentKeyOf P)
             ∧ visit amap st (i, a)
               = {| grouped := push (parentKeyOf P) i (grouped st);
                    processedAssets := {[itemIdOf a]} ∪ processedAssets st |}))).
Proof.
  unfold visit. case_bool_decide as Hproc; [by left|]. right.
  destruct (getParent amap a) as [[p P]|] eqn:Hparent.
  - case_bool_decide as Hp.
    + right. split; [done|]. exists p, P. split; [done|]. split; [done|].
      destruct (grouped st !! parentKeyOf P) eqn:HK; [right|left]; by eauto.
    + left. split; [done|]. subst p.
      split; [by eauto|]. by rewrite push_ensure.
  - left. split; [done|]. split; [by left|]. by rewrite push_ensure.
Qed.

(** Groups only grow: an asset keeps its position in its group. *)
Lemma visit_At_mono amap st ia K q x :
  At (grouped st) K q x → At (grouped (visit amap st ia)) K q x.
Proof.
  intros HAt. destruct ia as [i a].
  destruct (visit_cases amap st i a)
    as [[_ ->] | [(_ & _ & ->) | (_ & p & P & _ & _ & [[Hnew ->] | [_ ->]])]]; simpl.
  - done.
  - by apply At_push_mono.
  - by apply At_push_mono, At_insert_mono.
  - by apply At_push_mono.
Qed.

Lemma foldl_At_mono amap L : ∀ st K q x,
  At (grouped st) K q x → At (grouped (foldl (visit amap) st L)) K q x.
Proof.
  induction L as [|ia L IH]; intros st K q x HAt; [done|].
  simpl. by apply IH, visit_At_mono.
Qed.

(** What a visit marks as processed: the asset, and the parent it found. *)
Lemma visit_processed amap st i a x :
  x ∈ processedAssets (visit amap st (i, a)) →
  x ∈ processedAssets st ∨ x = itemIdOf a
  ∨ ∃ p P, getParent amap a = Some (p, P) ∧ x = itemIdOf P.
Proof.
  destruct (visit_cases amap st i a)
    as [[_ ->] | [(_ & _ & ->) | (_ & p & P & Hparent & _ & [[_ ->] | [_ ->]])]];
    cbn [processedAssets]; rewrite ?elem_of_union, ?elem_of_singleton.
  - by left.
  - intros [-> | Hx]; [right; by left | by left].
  - intros [-> | [-> | Hx]]; [right; by left | | by left].
    right. right. by exists p, P.
  - intros [-> | Hx]; [right; by left | by left].
Qed.

Lemma foldl_processed amap L : ∀ st x,
  x ∈ processedAssets (foldl (visit amap) st L) →
  x ∈ processedAssets st
  ∨ ∃ i a, (i, a) ∈ L
           ∧ (x = itemIdOf a ∨ ∃ p P, getParent amap a = Some (p, P) ∧ x = itemIdOf P).
Proof.
  induction L as [|[i a] L IH]; intros st x Hx; [by left|].
  simpl in Hx. destruct (IH _ _ Hx) as [Hst | (k & b & Hin & Hb)].
  - destruct (visit_processed _ _ _ _ _ Hst) as [?|Ha]; [by left|].
    right. exists i, a. split; [by left|]. exact Ha.
  - right. exists k, b. split; [by right|]. exact Hb.
Qed.

(** ** The invariant of the loop *)

Lemma push_nonempty K i (g : gmap string (list nat)) :
  (∀ K items, g !! K = Some items → items ≠ []) →
  ∀ K' items, push K i g !! K' = Some items → items ≠ [].
Proof.
  intros Hg K' items. destruct (decide (K = K')) as [->|Hne].
  - rewrite push_lookup_eq. intros [= <-]. by destruct (default [] (g !! K')).
  - rewrite push_lookup_ne by done. apply Hg.
Qed.

Lemma visit_Inv assets st i a :
  assets !! i = Some a → Inv assets st → Inv assets (visit (assetMap assets) st (i, a)).
Proof.
  intros Hi [Hne Hocc].
  destruct (visit_cases (assetMap assets) st i a)
    as [[_ ->] | [(_ & Hreg & ->) | (_ & p & P & Hparent & Hp & [[Hnew ->] | [Hold ->]])]].
  - done.
  - split; simpl; [by apply push_nonempty|].
    intros K q x HAt. apply At_push_inv in HAt as [HAt | (-> & -> & _)]; [by apply Hocc|].
    exists a. split; [done|]. by left.
  - assert (HP : assets !! p = Some P).
    { destruct (getParent_Some _ _ _ _ Hparent) as (l & _ & Hlook).
      by destruct (assetMap_sound assets l p P Hlook). }
    split; simpl.
    + apply push_nonempty. intros K items.
      destruct (decide (parentKeyOf P = K)) as [<-|HK].
      * rewrite lookup_insert_eq. by intros [= <-].
      * rewrite lookup_insert_ne by done. apply Hne.
    + intros K q x HAt. apply At_push_inv in HAt as [HAt | (-> & -> & ->)].
      * apply At_insert_inv in HAt as [HAt | (-> & -> & ->)]; [by apply Hocc|].
        exists P. split; [done|]. right. by left.
      * exists a. split; [done|]. right. right. exists p, P.
        rewrite lookup_insert_eq. simpl. repeat split; try done. lia.
  - split; simpl; [by apply push_nonempty|].
    intros K q x HAt. apply At_push_inv in HAt as [HAt | (-> & -> & ->)]; [by apply Hocc|].
    exists a. split; [done|]. right. right. exists p, P.
    destruct Hold as [items Hitems]. rewrite Hitems. simpl.
    repeat split; try done. specialize (Hne _ _ Hitems). destruct items; [done|simpl; lia].
Qed.

Lemma foldl_Inv assets L : ∀ st,
  (∀ i a, (i, a) ∈ L → assets !! i = Some a) →
  Inv assets st → Inv assets (foldl (visit (assetMap assets)) st L).
Proof.
  induction L as [|[i a] L IH]; intros st HL Hinv; [done|].
  simpl. apply IH.
  - intros k b Hin. apply HL. by right.
  - apply visit_Inv; [|done]. apply HL. by left.
Qed.

Lemma Inv_init assets : Inv assets {| grouped := ∅; processedAssets := ∅ |}.
Proof.
  split; simpl.
  - intros K items. by rewrite lookup_empty.
  - intros K q x (items & HK & _). by rewrite lookup_empty in HK.
Qed.

Lemma imap_pair_lookup (assets : list EVEAsset) i a :
  (i, a) ∈ imap pair assets → assets !! i = Some a.
Proof. intros Hin. by apply elem_of_lookup_imap in Hin as (k & b & [= -> ->] & Hk). Qed.

(** The loop up to an asset, the asset, and the rest of the loop. *)
Lemma imap_pair_split (assets : list EVEAsset) i A :
  assets !! i = Some A →
  ∃ L1 L2, imap pair assets = L1 ++ (i, A) :: L2
           ∧ ∀ k a, (k, a) ∈ L1 → (k < i)%nat ∧ assets !! k = Some a.
Proof.
  intros Hi. pose proof (lookup_lt_Some _ _ _ Hi) as Hlen.
  exists (imap pair (take i assets)), (imap (λ n, pair (i + S n)%nat) (drop (S i) assets)).
  split.
  - rewrite <- (take_drop_middle assets i A Hi) at 1.
    rewrite imap_app, imap_cons, length_take_le by lia.
    by rewrite Nat.add_0_r.
  - intros k a Hin. apply imap_pair_lookup in Hin.
    apply lookup_take_Some in Hin as [Hk Hlt]. done.
Qed.

(** Every occurrence of an asset in the result is explained by [Occ]. *)
Lemma groupAssetsByLocation_Occ assets K items q x :
  groupAssetsByLocation assets !! K = Some items → items !! q = Some x →
  Occ assets K q x.
Proof.
  intros HK Hq.
  destruct (foldl_Inv assets (imap pair assets) {| grouped := ∅; processedAssets := ∅ |})
    as [_ Hocc].
  - apply imap_pair_lookup.
  - apply Inv_init.
  - apply Hocc. by exists items.
Qed.

(** An asset that no earlier asset names as its container is not yet
    processed when its turn comes, and the groups are non-empty then. *)
Lemma before_own_turn assets i A L1 :
  UniqueIds assets →
  assets !! i = Some A →
  (∀ k a, (k, a) ∈ L1 → (k < i)%nat ∧ assets !! k = Some a) →
  (∀ k a, (k < i)%nat → assets !! k = Some a → locationIdOf a ≠ itemIdOf A) →
  let st := foldl (visit (assetMap assets)) {| grouped := ∅; processedAssets := ∅ |} L1 in
  (itemIdOf A ∉ processedAssets st) ∧ Inv assets st.
Proof.
  intros Huniq Hi HL1 Hearlier st. split.
  - intros Hin. apply foldl_processed in Hin as [Hin | (k & a & Hka & Hx)].
    { by apply not_elem_of_empty in Hin. }
    destruct (HL1 k a Hka) as [Hlt Hk].
    destruct Hx as [Hx | (p & P & Hparent & Hx)].
    + assert (i = k) by (by apply (Huniq i k A a)). lia.
    + destruct (getParent_Some _ _ _ _ Hparent) as (l & Hl & Hlook).
      destruct (assetMap_sound assets l p P Hlook) as (_ & HidP & _).
      apply (Hearlier k a Hlt Hk). congruence.
  - apply foldl_Inv; [|apply Inv_init]. intros k a Hka. by apply HL1.
Qed.

(** ** The two claims *)

(** C5 (as amended). Let record [A] name record [B] as its container, in a
    record set with unique ids.  Then [A] is listed in ship groups only,
    never in the group of a raw location; and if no record earlier in the
    set names [A] as its own container (so that [A] has not already been
    emitted as the hull of its own group), [A] is a fitted item of the
    group keyed by [B]. *)
Theorem contained_asset_grouped_under_parent
    (assets : list EVEAsset) (i j : nat) (A B : EVEAsset) :
  UniqueIds assets →
  assets !! i = Some A → assets !! j = Some B → i ≠ j →
  locationIdOf A = itemIdOf B → truthyN (itemIdOf B) = true →
  (∀ K items, groupAssetsByLocation assets !! K = Some items → i ∈ items →
              isShipGroup K = true)
  ∧ ((∀ k a, (k < i)%nat → assets !! k = Some a → locationIdOf a ≠ itemIdOf A) →
     ∃ q, At (groupAssetsByLocation assets) (parentKeyOf B) q i
          ∧ isFittedItem (parentKeyOf B) q = true).
Proof.
  intros Huniq Hi Hj Hij Hloc Htruthy.
  pose proof (getParent_unique assets A B j Huniq Hj Hloc Htruthy) as Hparent.
  split.
  - intros K items HK Hin. apply list_elem_of_lookup in Hin as [q Hq].
    destruct (groupAssetsByLocation_Occ assets K items q i HK Hq) as (a & Ha & Hocc).
    assert (a = A) as -> by congruence.
    destruct Hocc as [[_ [Hnone | [P HP]]] | [[-> _] | (p & P & _ & _ & -> & _)]].
    + congruence.
    + rewrite Hparent in HP. by injection HP as ? _.
    + apply isShipGroup_parentKey.
    + apply isShipGroup_parentKey.
  - intros Hearlier.
    destruct (imap_pair_split assets i A Hi) as (L1 & L2 & Hsplit & HL1).
    destruct (before_own_turn assets i A L1 Huniq Hi HL1 Hearlier) as [Hfresh [Hne _]].
    unfold groupAssetsByLocation. rewrite Hsplit, foldl_app. cbn [foldl].
    set (st := foldl (visit (assetMap assets)) {| grouped := ∅; processedAssets := ∅ |} L1)
      in *.
    assert (Hturn : ∃ q, At (grouped (visit (assetMap assets) st (i, A))) (parentKeyOf B) q i
                         ∧ (0 < q)%nat).
    { destruct (visit_cases (assetMap assets) st i A)
        as [[Hproc _] | [(_ & Hreg & _) | (_ & p & P & HP & _ & Hvisit)]].
      - done.
      - destruct Hreg as [Hnone | [P HP]]; [congruence|].
        rewrite Hparent in HP. by injection HP as ? _.
      - rewrite Hparent in HP. injection HP as <- <-.
        destruct Hvisit as [[Hnew ->] | [[items Hitems] ->]]; simpl.
        + exists 1%nat. split; [|lia].
          pose proof (At_push_new (<[parentKeyOf B := [j]]> (grouped st)) (parentKeyOf B) i)
            as Hat.
          by rewrite lookup_insert_eq in Hat.
        + exists (length items). split.
          * pose proof (At_push_new (grouped st) (parentKeyOf B) i) as Hat.
            by rewrite Hitems in Hat.
          * specialize (Hne _ _ Hitems). destruct items; [done|simpl; lia]. }
    destruct Hturn as (q & Hat & Hq). exists q. split.
    + by apply foldl_At_mono.
    + unfold isFittedItem. rewrite isShipGroup_parentKey. simpl.
      by apply bool_decide_eq_true_2.
Qed.

Lemma contained_asset_grouped_under_parent_witness :
  (∀ K items, groupAssetsByLocation fitted !! K = Some items → 0%nat ∈ items →
              isShipGroup K = true)
  ∧ ((∀ k a, (k < 0)%nat → fitted !! k = Some a →
             locationIdOf a ≠ itemIdOf (item 1 2 "HiSlot0")) →
     ∃ q, At (groupAssetsByLocation fitted) (parentKeyOf (item 2 60003760 "Hangar")) q 0%nat
          ∧ isFittedItem (parentKeyOf (item 2 60003760 "Hangar")) q = true).
Proof.
  apply (contained_asset_grouped_under_parent fitted 0 1
           (item 1 2 "HiSlot0") (item 2 60003760 "Hangar")).
  - intros [|[|i]] [|[|j]] a b Ha Hb; simpl in Ha, Hb; try done;
      injection Ha as <-; injection Hb as <-; vm_compute; done.
  - reflexivity.
  - reflexivity.
  - lia.
  - reflexivity.
  - reflexivity.
Defined.

(** C5 as stated fails: in [nested], the ship (record 2) sits in the
    container (record 3), the ids are unique, and no group is keyed by the
    container; the ship is listed only as the hull of its own group. *)
Lemma nested_parent_not_grouped_under_its_container :
  locationIdOf (item 2 3 "Cargo") = itemIdOf (item 3 60003760 "Hangar")
  ∧ nested !! 1%nat = Some (item 2 3 "Cargo")
  ∧ nested !! 2%nat = Some (item 3 60003760 "Hangar")
  ∧ groupAssetsByLocation nested !! parentKeyOf (item 3 60003760 "Hangar") = None
  ∧ groupAssetsByLocation nested !! "3-Cargo-ship-2" = Some [1%nat; 0%nat]
  ∧ groupAssetsByLocation nested !! "60003760-Hangar" = Some [2%nat].
Proof. vm_compute. done. Qed.

(** C6 (as amended). A record that names itself as its container, in a
    record set with unique ids, is never a fitted item: wherever it is
    listed, it is in the group of its raw location, or it is the hull that
    opens the group of the records it contains.  If no record earlier in
    the set names it as its container, it is listed in the group of its raw
    location. *)
Theorem self_contained_asset_is_standalone
    (assets : list EVEAsset) (i : nat) (A : EVEAsset) :
  UniqueIds assets →
  assets !! i = Some A →
  locationIdOf A = itemIdOf A →
  (∀ K q, At (groupAssetsByLocation assets) K q i →
          K = locationKeyOf A ∨ (K = parentKeyOf A ∧ q = 0%nat))
  ∧ ((∀ k a, (k < i)%nat → assets !! k = Some a → locationIdOf a ≠ itemIdOf A) →
     ∃ q, At (groupAssetsByLocation assets) (locationKeyOf A) q i).
Proof.
  intros Huniq Hi Hloc.
  pose proof (getParent_self assets A i Huniq Hi Hloc) as Hself.
  split.
  - intros K q (items & HK & Hq).
    destruct (groupAssetsByLocation_Occ assets K items q i HK Hq) as (a & Ha & Hocc).
    assert (a = A) as -> by congruence.
    destruct Hocc as [[-> _] | [[-> ->] | (p & P & HP & Hp & _)]].
    + by left.
    + by right.
    + destruct Hself as [Hnone | [P' HP']]; [congruence|].
      rewrite HP in HP'. by injection HP' as ? _.
  - intros Hearlier.
    destruct (imap_pair_split assets i A Hi) as (L1 & L2 & Hsplit & HL1).
    destruct (before_own_turn assets i A L1 Huniq Hi HL1 Hearlier) as [Hfresh _].
    unfold groupAssetsByLocation. rewrite Hsplit, foldl_app. cbn [foldl].
    set (st := foldl (visit (assetMap assets)) {| grouped := ∅; processedAssets := ∅ |} L1)
      in *.
    eexists. apply foldl_At_mono.
    destruct (visit_cases (assetMap assets) st i A)
      as [[Hproc _] | [(_ & _ & ->) | (_ & p & P & HP & Hp & _)]].
    + done.
    + simpl. apply At_push_new.
    + destruct Hself as [Hnone | [P' HP']]; [congruence|].
      rewrite HP in HP'. by injection HP' as ? _.
Qed.

Lemma self_contained_asset_is_standalone_witness :
  (∀ K q, At (groupAssetsByLocation [item 2 2 "Hangar"; item 1 2 "HiSlot0"]) K q 0%nat →
          K = locationKeyOf (item 2 2 "Hangar")
          ∨ (K = parentKeyOf (item 2 2 "Hangar") ∧ q = 0%nat))
  ∧ ((∀ k a, (k < 0)%nat → [item 2 2 "Hangar"; item 1 2 "HiSlot0"] !! k = Some a →
             locationIdOf a ≠ itemIdOf (item 2 2 "Hangar")) →
     ∃ q, At (groupAssetsByLocation [item 2 2 "Hangar"; item 1 2 "HiSlot0"])
            (locationKeyOf (item 2 2 "Hangar")) q 0%nat).
Proof.
  apply (self_contained_asset_is_standalone [item 2 2 "Hangar"; item 1 2 "HiSlot0"] 0
           (item 2 2 "Hangar")).
  - intros [|[|i]] [|[|j]] a b Ha Hb; simpl in Ha, Hb; try done;
      injection Ha as <-; injection Hb as <-; vm_compute; done.
  - reflexivity.
  - reflexivity.
Defined.

(** C6 as stated fails: in [selfContained], record 2 names itself as its
    container and the ids are unique, yet no group is keyed by its raw
    location; it is listed only as the hull of the group of the module
    that was visited before it. *)
Lemma self_contained_hull_not_at_raw_location :
  selfContained !! 1%nat = Some (item 2 2 "Hangar")
  ∧ locationIdOf (item 2 2 "Hangar") = itemIdOf (item 2 2 "Hangar")
  ∧ groupAssetsByLocation selfContained !! locationKeyOf (item 2 2 "Hangar") = None
  ∧ groupAssetsByLocation selfContained !! parentKeyOf (item 2 2 "Hangar")
    = Some [1%nat; 0%nat].
Proof. vm_compute. done. Qed.

End InventoryFacts.

(* ===================================================================== *)
(** * More on the dispatch queue: pacing and progress *)
(* ===================================================================== *)

Module RateLimitPacing.
Import RateLimit.

Lemma run_step evs e : run (evs ++ [e]) = step (run evs) e.
Proof. unfold run. by rewrite fold_left_app. Qed.

Lemma released_then_queued evs :
  released (run evs) ++ rateLimitQueue (run evs) = admitted evs.
Proof.
  induction evs as [|e evs IH] using rev_ind; [done|].
  rewrite run_step, RateLimitFacts.step_preserves, RateLimitFacts.admitted_app, <- IH.
  by rewrite <- app_assoc.
Qed.

Lemma step_Paced s e : Paced s → Paced (step s e).
Proof.
  intros Hpaced. pose proof Hpaced as [Hbusy Hidle]. destruct e as [r|]; simpl.
  - unfold addToRateLimitQueue, processRateLimitQueue. simpl.
    destruct (isProcessingQueue s) eqn:Hflag; simpl.
    + split; simpl; [intros _; by apply Hbusy | done].
    + destruct (Hidle eq_refl) as [Ht Hq]. rewrite Hq. simpl.
      split; simpl; [intros _; by rewrite Ht | done].
  - unfold timerCallback. destruct (timers s) as [|n] eqn:Ht; [exact Hpaced|].
    destruct (isProcessingQueue s) eqn:Hflag.
    + specialize (Hbusy eq_refl). unfold processRateLimitQueue. simpl.
      destruct (rateLimitQueue s) as [|next rest]; simpl; split; simpl; try done.
      intros _. split; [lia|done].
    + destruct (Hidle eq_refl) as [Ht' _]. lia.
Qed.

Lemma run_Paced evs : Paced (run evs).
Proof.
  induction evs as [|e evs IH] using rev_ind.
  - split; simpl; done.
  - rewrite run_step. by apply step_Paced.
Qed.

(** X1. Whatever the schedule, at most one timer is pending; the flag
    [isProcessingQueue] is set exactly while one is; and a request is never
    left waiting without a pending timer whose callback will release the
    head of the queue. *)
Theorem queue_never_stalls (evs : list Event) :
  (timers (run evs) ≤ 1)%nat
  ∧ (isProcessingQueue (run evs) = true ↔ timers (run evs) = 1%nat)
  ∧ (rateLimitQueue (run evs) ≠ [] →
     isProcessingQueue (run evs) = true ∧ timers (run evs) = 1%nat).
Proof.
  destruct (run_Paced evs) as [Hbusy Hidle].
  destruct (isProcessingQueue (run evs)) eqn:Hflag.
  - specialize (Hbusy eq_refl). split; [lia|]. split; [done|]. done.
  - destruct (Hidle eq_refl) as [Ht Hq]. split; [lia|]. split.
    + split; [done|]. rewrite Ht. done.
    + by rewrite Hq.
Qed.

Lemma firings_app evs1 evs2 : firings (evs1 ++ evs2) = (firings evs1 + firings evs2)%nat.
Proof. unfold firings. by rewrite List.filter_app, length_app. Qed.

Lemma pacing_invariant evs :
  (length (released (run evs)) + (if isProcessingQueue (run evs) then 0 else 1)
   ≤ S (firings evs))%nat.
Proof.
  induction evs as [|e evs IH] using rev_ind; [simpl; lia|].
  rewrite run_step, firings_app.
  destruct (run_Paced evs) as [Hbusy Hidle].
  destruct e as [r|]; simpl.
  - unfold addToRateLimitQueue, processRateLimitQueue. simpl.
    destruct (isProcessingQueue (run evs)) eqn:Hflag; simpl.
    + unfold firings at 2. simpl. lia.
    + destruct (Hidle eq_refl) as [_ Hq]. rewrite Hq. simpl.
      rewrite length_app. unfold firings at 2. simpl. lia.
  - unfold firings at 2. simpl. unfold timerCallback.
    destruct (timers (run evs)) as [|n] eqn:Ht.
    + destruct (isProcessingQueue (run evs)); lia.
    + destruct (isProcessingQueue (run evs)) eqn:Hflag.
      * unfold processRateLimitQueue. simpl.
        destruct (rateLimitQueue (run evs)) as [|next rest]; simpl.
        -- lia.
        -- rewrite length_app. simpl. lia.
      * destruct (Hidle eq_refl) as [Ht' _]. lia.
Qed.

(** X2. The queue releases at most one request per timer period: after any
    schedule, the number of requests released is at most one more than the
    number of timer callbacks that ran. *)
Theorem at_most_one_release_per_period (evs : list Event) :
  (length (released (run evs)) ≤ S (firings evs))%nat.
Proof.
  pose proof (pacing_invariant evs) as H.
  destruct (isProcessingQueue (run evs)); lia.
Qed.

Lemma drain_from (q : list Resolver) :
  ∀ s, Paced s → rateLimitQueue s = q →
       rateLimitQueue (fold_left step (replicate (length q) TimerFires) s) = []
       ∧ released (fold_left step (replicate (length q) TimerFires) s) = released s ++ q.
Proof.
  induction q as [|x q IH]; intros s Hpaced Hq.
  - simpl. by rewrite app_nil_r.
  - destruct Hpaced as [Hbusy Hidle].
    assert (Hflag : isProcessingQueue s = true).
    { destruct (isProcessingQueue s); [done|]. destruct (Hidle eq_refl) as [_ Hnil].
      congruence. }
    specialize (Hbusy Hflag).
    assert (Hstep : step s TimerFires = mkState q true 1 (released s ++ [x])).
    { simpl. unfold timerCallback. rewrite Hbusy.
      unfold processRateLimitQueue. simpl. by rewrite Hq. }
    cbn [length replicate fold_left]. rewrite Hstep.
    destruct (IH (mkState q true 1 (released s ++ [x]))) as [Hempty Hrel]; [|done|].
    { split; simpl; done. }
    split; [exact Hempty|]. rewrite Hrel. cbn [released]. by rewrite <- app_assoc.
Qed.

(** X3. Every admitted request is released once enough timer callbacks have
    run: after any schedule, as many callbacks as there are requests waiting
    empty the queue, and the requests released are then all the admitted
    requests, in admission order. *)
Theorem queue_drains (evs : list Event) :
  let waiting := length (rateLimitQueue (run evs)) in
  rateLimitQueue (run (evs ++ replicate waiting TimerFires)) = []
  ∧ released (run (evs ++ replicate waiting TimerFires)) = admitted evs.
Proof.
  intros waiting. subst waiting.
  assert (Happ : ∀ evs', run (evs ++ evs') = fold_left step evs' (run evs)).
  { intros evs'. unfold run. by rewrite fold_left_app. }
  rewrite Happ.
  destruct (drain_from (rateLimitQueue (run evs)) (run evs) (run_Paced evs) eq_refl)
    as [Hempty Hrel].
  split; [exact Hempty|]. rewrite Hrel. apply released_then_queued.
Qed.

End RateLimitPacing.

(* ===================================================================== *)
(** * More on the authorization flow *)
(* ===================================================================== *)

Module AuthorizationFlow.
Import ESIAuthManager.

Lemma truthyS_Some (s : string) : s ≠ "" → truthyS (Some s) = true.
Proof. intros Hs. unfold truthyS. by destruct (String.eqb_spec s ""). Qed.

(** X4. A callback that passes the checks, with the provider granting the
    exchange and verifying the token: the code is exchanged together with
    the verifier of the session, the new access token is then verified, and
    nothing else is sent; the credential returned is for the verified
    character, holds the granted tokens, and expires [expires_in] seconds
    after [now]; the session is cleared. *)
Theorem handleCallback_granted now url w code verifier t trest d vrest :
  truthyS (searchParams_get "error" url) = false →
  searchParams_get "state" url = authState w →
  searchParams_get "code" url = Some code → code ≠ "" →
  codeVerifier w = Some verifier → verifier ≠ "" →
  tokenEndpoint w = TokenOk t :: trest →
  verifyEndpoint w = VerifyOk d :: vrest →
  ∃ auth w',
    handleCallback now url w = (Ok auth, w')
    ∧ character_id auth = CharacterID d
    ∧ access_token auth = tok_access_token t
    ∧ refresh_token auth = tok_refresh_token t
    ∧ token_expires auth = now + tok_expires_in t * 1000
    ∧ last_updated auth = now
    ∧ log w' = log w ++ [PostToken "authorization_code" code (Some verifier);
                         GetVerify (tok_access_token t)]
    ∧ codeVerifier w' = None ∧ authState w' = None
    ∧ characters w' = characters w.
Proof.
  intros Herr Hstate Hcode Hc Hver Hv Htok Hverify.
  unfold handleCallback. rewrite Herr, Hcode. run_M.
  rewrite Hstate, bool_decide_eq_true_2 by done.
  rewrite Hver, !truthyS_Some by done. cbn [negb tplS].
  unfold exchangeCodeForTokens, postToken.
  cbn [tokenEndpoint send]. rewrite Htok.
  unfold getCharacterInfo. cbn [verifyEndpoint send set_tokenEndpoint]. rewrite Hverify.
  eexists _, _. split; [reflexivity|]. cbn.
  repeat split. by rewrite <- app_assoc.
Qed.

Lemma handleCallback_granted_witness :
  ∃ auth w',
    handleCallback 1000 grantedUrl grantingWorld = (Ok auth, w')
    ∧ character_id auth = CharacterID verified42
    ∧ access_token auth = tok_access_token tokens1
    ∧ refresh_token auth = tok_refresh_token tokens1
    ∧ token_expires auth = 1000 + tok_expires_in tokens1 * 1000
    ∧ last_updated auth = 1000
    ∧ log w' = log grantingWorld
               ++ [PostToken "authorization_code" "abc123" (Some "verifier-1");
                   GetVerify (tok_access_token tokens1)]
    ∧ codeVerifier w' = None ∧ authState w' = None
    ∧ characters w' = characters grantingWorld.
Proof.
  apply (handleCallback_granted 1000 grantedUrl grantingWorld "abc123" "verifier-1"
           tokens1 [] verified42 []); try reflexivity; discriminate.
Defined.

(** X5. Nothing is sent unless every check passes: a callback that reports
    an error, or whose state is not the issued one, or that has no code, or
    that arrives when no verifier is held, is rejected with the world as it
    was. *)
Theorem handleCallback_checks_before_sending now url w :
  truthyS (searchParams_get "error" url) = true
  ∨ searchParams_get "state" url ≠ authState w
  ∨ truthyS (searchParams_get "code" url) = false
  ∨ truthyS (codeVerifier w) = false →
  isOk (fst (handleCallback now url w)) = false
  ∧ snd (handleCallback now url w) = w.
Proof.
  intros Hcheck. unfold handleCallback.
  destruct (truthyS (searchParams_get "error" url)) eqn:Herr; [done|].
  run_M. case_bool_decide as Hstate; cbn [negb]; [|done].
  destruct (truthyS (searchParams_get "code" url)) eqn:Hcode; cbn [negb]; [|done].
  destruct (truthyS (codeVerifier w)) eqn:Hver; cbn [negb]; [|done].
  by destruct Hcheck as [? | [? | [? | ?]]].
Qed.

Lemma handleCallback_checks_before_sending_witness :
  isOk (fst (handleCallback 1000 deniedUrl sessionWorld)) = false
  ∧ snd (handleCallback 1000 deniedUrl sessionWorld) = sessionWorld.
Proof.
  apply (handleCallback_checks_before_sending 1000 deniedUrl sessionWorld).
  left. reflexivity.
Defined.

(** X6. When the provider does not grant the exchange, the flow fails after
    that one request: the token is never sent for verification, and the
    verification endpoint is not contacted. *)
Theorem handleCallback_refused_exchange now url w code verifier :
  truthyS (searchParams_get "error" url) = false →
  searchParams_get "state" url = authState w →
  searchParams_get "code" url = Some code → code ≠ "" →
  codeVerifier w = Some verifier → verifier ≠ "" →
  (∀ t trest, tokenEndpoint w ≠ TokenOk t :: trest) →
  isOk (fst (handleCallback now url w)) = false
  ∧ log (snd (handleCallback now url w))
    = log w ++ [PostToken "authorization_code" code (Some verifier)]
  ∧ verifyEndpoint (snd (handleCallback now url w)) = verifyEndpoint w.
Proof.
  intros Herr Hstate Hcode Hc Hver Hv Hrefused.
  unfold handleCallback. rewrite Herr, Hcode. run_M.
  rewrite Hstate, bool_decide_eq_true_2 by done.
  rewrite Hver, !truthyS_Some by done. cbn [negb tplS].
  unfold exchangeCodeForTokens, postToken. cbn [tokenEndpoint send].
  destruct (tokenEndpoint w) as [|[t|e|txt] trest] eqn:Htok; try done.
  by destruct (Hrefused t trest).
Qed.

Lemma handleCallback_refused_exchange_witness :
  isOk (fst (handleCallback 1000 grantedUrl refusingWorld)) = false
  ∧ log (snd (handleCallback 1000 grantedUrl refusingWorld))
    = log refusingWorld ++ [PostToken "authorization_code" "abc123" (Some "verifier-1")]
  ∧ verifyEndpoint (snd (handleCallback 1000 grantedUrl refusingWorld))
    = verifyEndpoint refusingWorld.
Proof.
  apply (handleCallback_refused_exchange 1000 grantedUrl refusingWorld "abc123" "verifier-1");
    try reflexivity; discriminate.
Defined.

End AuthorizationFlow.

(* ===================================================================== *)
(** * The credential store *)
(* ===================================================================== *)

Module AuthStoreFacts.
Import AuthStore.

Lemma minKey_in (l : list Z) (k : Z) :
  foldr (λ k acc, match acc with
                  | Some k' => Some (Z.min k k')
                  | None => Some k
                  end) None l = Some k →
  k ∈ l.
Proof.
  revert k. induction l as [|x l IH]; intros k; cbn [foldr]; [done|].
  destruct (foldr _ None l) as [k'|] eqn:Hfold; intros [= <-].
  - destruct (Z.min_spec x k') as [[_ ->] | [_ ->]].
    + apply elem_of_cons. by left.
    + apply elem_of_cons. right. by apply IH.
  - apply elem_of_cons. by left.
Qed.

Lemma firstKey_Some {A} (m : gmap Z A) (k : Z) :
  firstKey m = Some k → is_Some (m !! k).
Proof.
  intros Hk. apply minKey_in in Hk.
  apply list_elem_of_fmap in Hk as [[k' a] [-> Hin]].
  apply elem_of_map_to_list in Hin. by eexists.
Qed.

Lemma firstKey_None {A} (m : gmap Z A) : firstKey m = None → m = ∅.
Proof.
  unfold firstKey. intros Hk. apply map_to_list_empty_iff.
  destruct (map_to_list m) as [|[k a] l]; [done|].
  cbn [fmap list_fmap foldr] in Hk. by destruct (foldr _ None _).
Qed.

Section WithCipher.
Context `{Cipher}.

(** X7. What is stored can be read back: the credential a character was
    stored with is the one [getCharacterAuth] returns for that character,
    tokens included, whatever the store held before. *)
Theorem stored_credential_is_read_back auth w :
  getCharacterAuth (character_id auth) (storeCharacterAuth auth w) = Some auth.
Proof.
  unfold getCharacterAuth, storeCharacterAuth.
  destruct (negb (truthyN (last_selected_character w)));
    cbn [characters set_store]; rewrite lookup_insert_eq;
    cbn [access_token refresh_token]; rewrite !decrypt_encrypt; by destruct auth.
Qed.

(** X8. Storing a credential touches no other character, and keeps the
    selected character when there is one; it selects the stored character
    only when none was selected. *)
Theorem storeCharacterAuth_frame auth cid w :
  cid ≠ character_id auth →
  getCharacterAuth cid (storeCharacterAuth auth w) = getCharacterAuth cid w
  ∧ (truthyN (last_selected_character w) = true →
     last_selected_character (storeCharacterAuth auth w) = last_selected_character w)
  ∧ (truthyN (last_selected_character w) = false →
     last_selected_character (storeCharacterAuth auth w) = Some (character_id auth)).
Proof.
  intros Hne. unfold getCharacterAuth, storeCharacterAuth.
  destruct (truthyN (last_selected_character w)); cbn [negb characters set_store
    last_selected_character]; rewrite lookup_insert_ne by done; done.
Qed.

(** X9. Removing a character: its credential is gone and its token counts
    as expired; no other character is touched; the selection never points
    at the removed character, and when the removed character was the
    selected one the selection moves to a character that is still stored,
    or is cleared when none is left. *)
Theorem removeCharacterAuth_forgets cid now w :
  getCharacterAuth cid (removeCharacterAuth cid w) = None
  ∧ isTokenExpired cid now (removeCharacterAuth cid w) = true
  ∧ (∀ other, other ≠ cid →
       getCharacterAuth other (removeCharacterAuth cid w) = getCharacterAuth other w)
  ∧ (∀ k, last_selected_character (removeCharacterAuth cid w) = Some k → k ≠ cid)
  ∧ (last_selected_character w = Some cid →
     match last_selected_character (removeCharacterAuth cid w) with
     | Some k => is_Some (characters (removeCharacterAuth cid w) !! k)
     | None => characters (removeCharacterAuth cid w) = ∅
     end).
Proof.
  assert (Hgone : getCharacterAuth cid (removeCharacterAuth cid w) = None).
  { unfold getCharacterAuth, removeCharacterAuth.
    case_bool_decide; cbn [characters set_store]; by rewrite lookup_delete_eq. }
  split; [exact Hgone|]. split; [unfold isTokenExpired; by rewrite Hgone|].
  split; [|split].
  - intros other Hne. unfold getCharacterAuth, removeCharacterAuth.
    case_bool_decide; cbn [characters set_store]; by rewrite lookup_delete_ne.
  - intros k. unfold removeCharacterAuth.
    case_bool_decide as Hsel; cbn [last_selected_character set_store].
    + intros Hk%firstKey_Some -> . rewrite lookup_delete_eq in Hk. by destruct Hk.
    + intros Hk ->. done.
  - intros Hsel. unfold removeCharacterAuth.
    rewrite bool_decide_eq_true_2 by done.
    cbn [last_selected_character characters set_store].
    destruct (firstKey (delete cid (characters w))) as [k|] eqn:Hk.
    + by apply firstKey_Some.
    + by apply firstKey_None.
Qed.

End WithCipher.

Lemma storeCharacterAuth_frame_witness :
  @getCharacterAuth plainCipher 7
     (@storeCharacterAuth plainCipher ESIClient.credential42 emptyWorld)
   = @getCharacterAuth plainCipher 7 emptyWorld
  ∧ (truthyN (last_selected_character emptyWorld) = true →
     last_selected_character (@storeCharacterAuth plainCipher ESIClient.credential42 emptyWorld)
     = last_selected_character emptyWorld)
  ∧ (truthyN (last_selected_character emptyWorld) = false →
     last_selected_character (@storeCharacterAuth plainCipher ESIClient.credential42 emptyWorld)
     = Some (character_id ESIClient.credential42)).
Proof.
  apply (@storeCharacterAuth_frame plainCipher ESIClient.credential42 7 emptyWorld).
  discriminate.
Defined.

End AuthStoreFacts.

(* ===================================================================== *)
(** * More on the ESI client *)
(* ===================================================================== *)

Module ESIClientRequests.
Import AuthStore ESIClient.

Ltac eval_status :=
  cbn [Z.leb Z.ltb Z.eqb Z.compare Pos.compare Pos.compare_cont andb negb orb Pos.eqb].

Lemma success_status (r : EsiReply) :
  200 ≤ status r < 300 → (200 <=? status r) && (status r <? 300) = true.
Proof. intros [? ?]. apply andb_true_intro. split; [apply Z.leb_le | apply Z.ltb_lt]; lia. Qed.

Section WithCipher.
Context `{Cipher}.

(** X10. A granted refresh changes the tokens of that character and
    nothing else: one request is posted, with the stored refresh token; the
    credential then holds the new tokens and expires [expires_in] seconds
    after [now]; the other characters, the selection, the database and the
    ESI endpoint are as before. *)
Theorem refreshCharacterToken_changes_only_its_character cid now w auth t trest :
  getCharacterAuth cid w = Some auth →
  tokenEndpoint w = TokenOk t :: trest →
  tok_access_token t ≠ "" → tok_refresh_token t ≠ "" →
  ∃ w', refreshCharacterToken cid now w = (Ok tt, w')
        ∧ getCharacterAuth cid w' = Some (refreshed now t auth)
        ∧ (∀ other, other ≠ cid → characters w' !! other = characters w !! other)
        ∧ last_selected_character w' = last_selected_character w
        ∧ db w' = db w
        ∧ esiEndpoint w' = esiEndpoint w
        ∧ log w' = log w ++ [PostToken "refresh_token" (refresh_token auth) None].
Proof.
  intros Hauth Htok Ha Hr.
  unfold refreshCharacterToken. run_M. rewrite Hauth.
  unfold ESIAuthManager.refreshToken, ESIAuthManager.postToken. simpl.
  rewrite Htok. unfold updateCharacterAuth. simpl.
  unfold getCharacterAuth in Hauth.
  destruct (characters w !! cid) as [enc|] eqn:Henc; [|done].
  destruct (decrypt (access_token enc)) as [a|]; [|done].
  destruct (decrypt (refresh_token enc)) as [r|]; [|done].
  injection Hauth as <-.
  eexists. split; [reflexivity|]. simpl.
  split; [|split; [|done]].
  - unfold getCharacterAuth. simpl. rewrite lookup_insert_eq.
    destruct (String.eqb_spec (tok_access_token t) ""); [done|].
    destruct (String.eqb_spec (tok_refresh_token t) ""); [done|].
    simpl. rewrite !decrypt_encrypt. reflexivity.
  - intros other Hne. by rewrite lookup_insert_ne.
Qed.

(** X11. One authenticated request posts at most two refreshes, whatever
    the endpoints answer (one before the request when the token is about to
    expire, one on a 401), and at most one when the token is not about to
    expire. *)
Theorem makeAuthenticatedRequest_refreshes_at_most_twice cid ep now w :
  (refreshes (log (snd (makeAuthenticatedRequest cid ep now w))) ≤ refreshes (log w) + 2)%nat
  ∧ (isTokenExpired cid now w = false →
     (refreshes (log (snd (makeAuthenticatedRequest cid ep now w)))
      ≤ refreshes (log w) + 1)%nat).
Proof.
  unfold makeAuthenticatedRequest. run_M.
  destruct (getCharacterAuth cid w) as [auth|] eqn:Hauth; [|cbn [snd]; split; [lia|intros _; lia]].
  destruct (isTokenExpired cid now w) eqn:Hexp.
  - split; [|done].
    pose proof (ESIClientFacts.refreshCharacterToken_refreshes cid now w) as Href.
    destruct (refreshCharacterToken cid now w) as [[[]|e] w1]; cbn [snd] in Href |- *.
    + destruct (getCharacterAuth cid w1); cbn [snd]; [|lia].
      unfold get. etransitivity; [apply ESIClientFacts.client_refreshes_at_most_once|].
      cbn [_retry]. lia.
    + lia.
  - assert (Hone : (refreshes (log (snd (get now
               {| endpoint := ep; Authorization := Some ("Bearer " +:+ access_token auth);
                  _characterId := Some cid; _retry := false |} w)))
             ≤ refreshes (log w) + 1)%nat).
    { unfold get. etransitivity; [apply ESIClientFacts.client_refreshes_at_most_once|].
      cbn [_retry]. lia. }
    split; [|intros _]; cbn [snd fst] in *; lia.
Qed.

(** X12. A 401 whose refresh the provider refuses: the request fails with
    the 401, after one request and one refused refresh; the credential has
    been removed, so the next request for that character fails before
    anything is sent. *)
Theorem refused_refresh_ends_the_session cid ep ep' now now' w auth r1 rest :
  cid ≠ 0 →
  getCharacterAuth cid w = Some auth →
  isTokenExpired cid now w = false →
  esiEndpoint w = r1 :: rest → status r1 = 401 →
  (∀ t trest, tokenEndpoint w ≠ TokenOk t :: trest) →
  ∃ w', makeAuthenticatedRequest cid ep now w = (Throw (AxiosError (Some 401)), w')
        ∧ log w' = log w ++ [EsiGet {| endpoint := ep;
                                       Authorization := Some ("Bearer " +:+ access_token auth);
                                       _characterId := Some cid; _retry := false |};
                             PostToken "refresh_token" (refresh_token auth) None]
        ∧ esiEndpoint w' = rest
        ∧ getCharacterAuth cid w' = None
        ∧ makeAuthenticatedRequest cid ep' now' w'
          = (Throw (JsError ("No authentication found for character " +:+ showZ cid)), w').
Proof.
  intros Hnz Hauth Hexp Hesi H1 Hrefused.
  unfold makeAuthenticatedRequest at 1. run_M. rewrite Hauth, Hexp. cbn [fst snd].
  unfold get. rewrite Hesi. cbn [client]. rewrite H1. eval_status.
  cbn [retried _characterId _retry truthyN default negb].
  destruct (Z.eqb_spec cid 0) as [|_]; [done|]. cbn [negb]. unfold Datatypes.id.
  assert (Href : ∃ e w1, refreshCharacterToken cid now
                           (set_esiEndpoint rest (send (EsiGet
                              {| endpoint := ep;
                                 Authorization := Some ("Bearer " +:+ access_token auth);
                                 _characterId := Some cid; _retry := false |}) w))
                         = (Throw e, w1)
                         ∧ esiEndpoint w1 = rest
                         ∧ log w1 = log w ++ [EsiGet {| endpoint := ep;
                                       Authorization := Some ("Bearer " +:+ access_token auth);
                                       _characterId := Some cid; _retry := false |};
                             PostToken "refresh_token" (refresh_token auth) None]).
  { unfold refreshCharacterToken. run_M.
    match goal with |- context [getCharacterAuth cid ?w0] =>
      replace (getCharacterAuth cid w0) with (getCharacterAuth cid w) by done end.
    rewrite Hauth. unfold ESIAuthManager.refreshToken, ESIAuthManager.postToken.
    cbn [tokenEndpoint send set_esiEndpoint].
    destruct (tokenEndpoint w) as [|[t|e|txt] trest] eqn:Htok.
    - eexists _, _. split; [reflexivity|]. cbn. by rewrite <- app_assoc.
    - by destruct (Hrefused t trest).
    - eexists _, _. split; [reflexivity|]. cbn. by rewrite <- app_assoc.
    - eexists _, _. split; [reflexivity|]. cbn. by rewrite <- app_assoc. }
  destruct Href as (e & w1 & -> & Hesi1 & Hlog1).
  assert (Hgone : getCharacterAuth cid (removeCharacterAuth cid w1) = None).
  { unfold getCharacterAuth, removeCharacterAuth.
    case_bool_decide; cbn [characters set_store]; by rewrite lookup_delete_eq. }
  eexists. split; [reflexivity|].
  split; [by rewrite ESIClientFacts.removeCharacterAuth_log|].
  split; [unfold removeCharacterAuth; by case_bool_decide|].
  split; [exact Hgone|].
  unfold makeAuthenticatedRequest. run_M. by rewrite Hgone.
Qed.

(** X13. Rate limiting is waited out: every reply with status 420 or 429
    is followed by a timer of [parseInt(header, 10) * 1000] milliseconds,
    [header] being the retry-after header of that reply, or 60 when there is
    none or it is empty, and then by the same request again; the first 2xx
    reply is the result.  No refresh is posted and the store is not
    touched. *)
Theorem rate_limited_replies_are_waited_out limited :
  ∀ ok rest now req w,
    Forall (λ r, status r = 420 ∨ status r = 429) limited →
    200 ≤ status ok < 300 →
    ∃ w', client (limited ++ ok :: rest) now req w = (Ok ok, w')
          ∧ log w' = log w
                     ++ flat_map (λ r, [EsiGet req;
                                        Sleep (parseInt (tplS (Js.or truthyS (retry_after r) (Some "60")))
                                               * 1000)%float])
                          limited
                     ++ [EsiGet req]
          ∧ esiEndpoint w' = rest
          ∧ characters w' = characters w.
Proof.
  induction limited as [|r limited IH]; intros ok rest now req w Hlim Hok.
  - cbn [app client]. rewrite success_status by done.
    eexists. split; [reflexivity|]. by cbn.
  - apply Forall_cons in Hlim as [Hr Hlim].
    cbn [app client].
    assert (Hcode : (200 <=? status r) && (status r <? 300) = false
                    ∧ (status r =? 401) = false
                    ∧ (status r =? 420) || (status r =? 429) = true).
    { destruct Hr as [-> | ->]; by eval_status. }
    destruct Hcode as (-> & -> & ->). cbn [andb].
    destruct (IH ok rest now req
                (send (Sleep (parseInt (tplS (Js.or truthyS (retry_after r) (Some "60")))
                              * 1000)%float)
                   (set_esiEndpoint (limited ++ ok :: rest) (send (EsiGet req) w))) Hlim Hok)
      as (w' & -> & Hlog & Hesi & Hchars).
    eexists. split; [reflexivity|].
    split; [|done].
    rewrite Hlog. cbn. by rewrite <- !app_assoc.
Qed.

(** X14. The request that follows a refresh made because the token was
    about to expire still carries the access token read before the refresh,
    not the new one. *)
Theorem request_after_refresh_carries_old_token cid ep now w auth t trest ok rest :
  getCharacterAuth cid w = Some auth →
  isTokenExpired cid now w = true →
  tokenEndpoint w = TokenOk t :: trest →
  tok_access_token t ≠ "" → tok_refresh_token t ≠ "" →
  esiEndpoint w = ok :: rest → 200 ≤ status ok < 300 →
  ∃ w', makeAuthenticatedRequest cid ep now w = (Ok ok, w')
        ∧ log w' = log w ++ [PostToken "refresh_token" (refresh_token auth) None;
                             EsiGet {| endpoint := ep;
                                       Authorization := Some ("Bearer " +:+ access_token auth);
                                       _characterId := Some cid; _retry := false |}]
        ∧ getCharacterAuth cid w' = Some (refreshed now t auth).
Proof.
  intros Hauth Hexp Htok Ha Hr Hesi Hok.
  unfold makeAuthenticatedRequest. run_M. rewrite Hauth, Hexp.
  destruct (ESIClientFacts.refreshCharacterToken_granted cid now w auth t trest)
    as (w1 & -> & Hlog & Hesi1 & _ & Hauth1); try done.
  cbn [fst snd]. rewrite Hauth1. cbn [fst snd].
  unfold get. rewrite Hesi1, Hesi. cbn [client]. rewrite success_status by done.
  eexists. split; [reflexivity|]. split.
  - cbn. rewrite Hlog. by rewrite <- app_assoc.
  - exact Hauth1.
Qed.

(** X15. With a credential that is not about to expire and a 2xx reply,
    fetching the assets sends exactly one request, for
    /characters/{id}/assets/ with the stored access token, and returns the
    assets of the reply. *)
Theorem getCharacterAssets_single_request cid now w auth ok rest :
  getCharacterAuth cid w = Some auth →
  isTokenExpired cid now w = false →
  esiEndpoint w = ok :: rest → 200 ≤ status ok < 300 →
  getCharacterAssets cid now w
  = (Ok (asAssets ok),
     set_esiEndpoint rest
       (send (EsiGet {| endpoint := "/characters/" +:+ showZ cid +:+ "/assets/";
                        Authorization := Some ("Bearer " +:+ access_token auth);
                        _characterId := Some cid; _retry := false |}) w)).
Proof.
  intros Hauth Hexp Hesi Hok.
  unfold getCharacterAssets, makeAuthenticatedRequest. run_M. rewrite Hauth, Hexp.
  cbn [fst snd]. unfold get. rewrite Hesi. cbn [client].
  by rewrite success_status.
Qed.

End WithCipher.

Lemma refreshCharacterToken_changes_only_its_character_witness :
  ∃ w', @refreshCharacterToken plainCipher 42 1000 world401 = (Ok tt, w')
        ∧ @getCharacterAuth plainCipher 42 w' = Some (refreshed 1000 tokens2 credential42)
        ∧ (∀ other, other ≠ 42 → characters w' !! other = characters world401 !! other)
        ∧ last_selected_character w' = last_selected_character world401
        ∧ db w' = db world401
        ∧ esiEndpoint w' = esiEndpoint world401
        ∧ log w' = log world401
                   ++ [PostToken "refresh_token" (refresh_token credential42) None].
Proof.
  apply (@refreshCharacterToken_changes_only_its_character plainCipher 42 1000 world401
           credential42 tokens2 []); try reflexivity; discriminate.
Defined.

Lemma refused_refresh_ends_the_session_witness :
  ∃ w', @makeAuthenticatedRequest plainCipher 42 "/characters/42/assets/" 1000 refusedWorld
        = (Throw (AxiosError (Some 401)), w')
        ∧ log w' = log refusedWorld
                   ++ [EsiGet {| endpoint := "/characters/42/assets/";
                                 Authorization := Some ("Bearer " +:+ access_token credential42);
                                 _characterId := Some 42; _retry := false |};
                       PostToken "refresh_token" (refresh_token credential42) None]
        ∧ esiEndpoint w' = [assetsReply]
        ∧ @getCharacterAuth plainCipher 42 w' = None
        ∧ @makeAuthenticatedRequest plainCipher 42 "/characters/42/assets/" 2000 w'
          = (Throw (JsError ("No authentication found for character " +:+ showZ 42)), w').
Proof.
  apply (@refused_refresh_ends_the_session plainCipher 42 "/characters/42/assets/"
           "/characters/42/assets/" 1000 2000 refusedWorld credential42 unauthorized
           [assetsReply]); try reflexivity; try discriminate.
Defined.

Lemma rate_limited_replies_are_waited_out_witness :
  ∃ w', @client plainCipher ([rateLimited; rateLimitedDate] ++ assetsReply :: []) 1000
          assetsRequest validWorld = (Ok assetsReply, w')
        ∧ log w' = log validWorld
                   ++ flat_map (λ r, [EsiGet assetsRequest;
                                      Sleep (parseInt (tplS (Js.or truthyS (retry_after r)
                                                               (Some "60")))
                                             * 1000)%float])
                        [rateLimited; rateLimitedDate]
                   ++ [EsiGet assetsRequest]
        ∧ esiEndpoint w' = []
        ∧ characters w' = characters validWorld.
Proof.
  apply (@rate_limited_replies_are_waited_out plainCipher [rateLimited; rateLimitedDate]
           assetsReply [] 1000 assetsRequest validWorld).
  - apply Forall_cons. split; [by left|].
    apply Forall_cons. split; [by right|]. constructor.
  - vm_compute. split; [discriminate | reflexivity].
Defined.

(** What [parseInt] reads, and the timers of the example: 7.9 is read as 7,
    and a date is not a number. *)
Lemma parseInt_examples :
  parseInt "7" = 7%float
  ∧ parseInt "7.9" = 7%float
  ∧ parseInt " 120 seconds" = 120%float
  ∧ parseInt "-3" = (-3)%float
  ∧ parseInt "" = nan
  ∧ parseInt "Wed, 21 Oct 2026 07:28:00 GMT" = nan
  ∧ log (snd (@client plainCipher [rateLimited; rateLimitedDate; assetsReply] 1000
                assetsRequest validWorld))
    = [EsiGet assetsRequest; Sleep 7000%float;
       EsiGet assetsRequest; Sleep nan;
       EsiGet assetsRequest].
Proof. vm_compute. done. Qed.

Lemma request_after_refresh_carries_old_token_witness :
  ∃ w', @makeAuthenticatedRequest plainCipher 42 "/characters/42/assets/" 1000 expiredWorld
        = (Ok assetsReply, w')
        ∧ log w' = log expiredWorld
                   ++ [PostToken "refresh_token" (refresh_token expired42) None;
                       EsiGet {| endpoint := "/characters/42/assets/";
                                 Authorization := Some ("Bearer " +:+ access_token expired42);
                                 _characterId := Some 42; _retry := false |}]
        ∧ @getCharacterAuth plainCipher 42 w' = Some (refreshed 1000 tokens2 expired42).
Proof.
  apply (@request_after_refresh_carries_old_token plainCipher 42 "/characters/42/assets/"
           1000 expiredWorld expired42 tokens2 [] assetsReply []);
    try reflexivity; try discriminate.
  vm_compute. split; [discriminate | reflexivity].
Defined.

Lemma getCharacterAssets_single_request_witness :
  @getCharacterAssets plainCipher 42 1000 validWorld
  = (Ok (asAssets assetsReply),
     set_esiEndpoint []
       (send (EsiGet {| endpoint := "/characters/" +:+ showZ 42 +:+ "/assets/";
                        Authorization := Some ("Bearer " +:+ access_token credential42);
                        _characterId := Some 42; _retry := false |}) validWorld)).
Proof.
  apply (@getCharacterAssets_single_request plainCipher 42 1000 validWorld credential42
           assetsReply []); try reflexivity.
  vm_compute. split; [discriminate | reflexivity].
Defined.

End ESIClientRequests.

(* ===================================================================== *)
(** * More on the asset cache and the characters table *)
(* ===================================================================== *)

Module AssetCacheFacts.
Import AssetService.

Lemma maximum_const (x : Z) (xs : list Z) : Forall (λ y, y = x) xs → maximum x xs = x.
Proof.
  unfold maximum. induction 1 as [|y xs -> _ IH]; [done|].
  cbn [foldr]. rewrite IH. lia.
Qed.

(** A relation that holds along two lists holds along any reordering of
    the second and the matching reordering of the first. *)
Lemma Forall2_reorder {A B} (R : A → B → Prop) (l : list A) (k k' : list B) :
  Forall2 R l k → k ≡ₚ k' → ∃ l', l' ≡ₚ l ∧ Forall2 R l' k'.
Proof.
  intros HF Hp. revert l HF.
  induction Hp as [|y k k' Hp IH|y z k|k1 k2 k3 _ IH1 _ IH2]; intros l HF.
  - exists l. split; [done|exact HF].
  - apply Forall2_cons_inv_r in HF as (x & l0 & Hxy & HF0 & ->).
    destruct (IH l0 HF0) as (l' & Hl' & HF').
    exists (x :: l'). split; [by constructor | by constructor].
  - apply Forall2_cons_inv_r in HF as (x1 & l1 & Hx1 & HF1 & ->).
    apply Forall2_cons_inv_r in HF1 as (x2 & l2 & Hx2 & HF2 & ->).
    exists (x2 :: x1 :: l2). split; [apply perm_swap | by repeat constructor].
  - destruct (IH1 l HF) as (l1 & Hl1 & HF1).
    destruct (IH2 l1 HF1) as (l2 & Hl2 & HF2).
    exists l2. split; [by etrans | done].
Qed.

Lemma insertBatches_first_fails assetRecords i :
  ∀ w e w1,
    (i < length assetRecords)%nat →
    insertValues (slice i (i + batchSize) assetRecords) w = (Throw e, w1) →
    insertBatches assetRecords i w = (Throw e, w1).
Proof.
  funelim (insertBatches assetRecords i); intros w e w1 Hlt Hins.
  - by rewrite Hins.
  - lia.
Qed.

Lemma foldl_addToGroup (k : string) (assets : list CharacterAsset) :
  ∀ grouped,
    foldl addToGroup grouped assets !! k
    = match filter (λ r, locationKey r = k) assets with
      | [] => grouped !! k
      | group => Some (default [] (grouped !! k) ++ group)
      end.
Proof.
  induction assets as [|a assets IH]; intros grouped; [done|].
  cbn [foldl]. rewrite IH.
  assert (Hstep : addToGroup grouped a !! k
                  = if decide (locationKey a = k)
                    then Some (default [] (grouped !! k) ++ [a])
                    else grouped !! k).
  { unfold addToGroup. destruct (decide (locationKey a = k)) as [<- | Hne].
    - rewrite lookup_insert_eq.
      destruct (grouped !! locationKey a) eqn:Hg; [by rewrite Hg|].
      by rewrite lookup_insert_eq.
    - rewrite lookup_insert_ne by done.
      destruct (grouped !! locationKey a); [done|]. by rewrite lookup_insert_ne. }
  rewrite Hstep.
  destruct (decide (locationKey a = k)) as [Hk | Hk].
  - rewrite filter_cons_True by done.
    destruct (filter _ assets); simpl; [done|]. by rewrite <- app_assoc.
  - by rewrite filter_cons_False.
Qed.

Section WithEngine.
Context `{Db.Engine}.

Lemma selectOrder_nil : Db.selectOrder [] = [].
Proof. apply Permutation_nil_r, Db.selectOrder_perm. Qed.

(** X16. On an open database, storing assets with distinct item ids
    completes; a read of the character's assets then returns one row per
    asset, each row its asset field by field, in the order of the engine;
    and the statistics count the assets and give the second of the call as
    the time of the last synchronisation. *)
Theorem stored_assets_are_read_back cid assets now w d :
  db w = Some d →
  NoDup (Types.item_id <$> assets) →
  ∃ w' rows fetched,
    storeCharacterAssets cid assets now w = (Ok tt, w')
    ∧ getCharacterAssets cid w' = (Ok rows, w')
    ∧ fetched ≡ₚ assets
    ∧ Forall2 (IsRecordOf cid (now `div` 1000)) fetched (columns <$> rows)
    ∧ getCharacterAssetStats cid w'
      = (Ok {| totalItems := length assets;
               lastSyncTime := match assets with
                               | [] => None
                               | _ => Some (now `div` 1000)
                               end |}, w').
Proof.
  intros Hdb Hnodup.
  destruct (AssetServiceFacts.storeCharacterAssets_completes cid assets now w d Hdb Hnodup)
    as (w' & Hrun).
  destruct (AssetServiceFacts.storeCharacterAssets_table _ _ _ _ _ Hrun)
    as (d0 & d' & _ & Hdb' & Hcols & _ & _).
  set (stored := filter (λ r, na_characterId (columns r) = cid) (characterAssets d')) in *.
  pose proof (Db.selectOrder_perm stored) as Hperm.
  pose proof (AssetServiceFacts.getCharacterAssets_open cid w' d' Hdb') as Hread.
  fold stored in Hread.
  destruct (Forall2_reorder (IsRecordOf cid (now `div` 1000)) assets
              (columns <$> stored) (columns <$> Db.selectOrder stored))
    as (fetched & Hfetched & Hfields).
  { rewrite Hcols. apply AssetServiceFacts.toRecord_IsRecordOf. }
  { by rewrite Hperm. }
  exists w', (Db.selectOrder stored), fetched.
  split; [done|]. split; [done|]. split; [done|]. split; [done|].
  unfold getCharacterAssetStats. run_M. rewrite Hread. cbn [fst snd].
  assert (Hlen : length (Db.selectOrder stored) = length assets).
  { by rewrite Hperm, <- (length_fmap columns), Hcols, length_fmap. }
  assert (Hsync : Forall (λ r, na_syncedAt (columns r) = now `div` 1000)
                    (Db.selectOrder stored)).
  { rewrite Hperm. apply Forall_forall. intros r Hr.
    assert (Hin : columns r ∈ toRecord cid (now `div` 1000) <$> assets)
      by (rewrite <- Hcols; by apply list_elem_of_fmap_2).
    apply list_elem_of_fmap in Hin as (a & -> & _). done. }
  destruct (Db.selectOrder stored) as [|r rows].
  - destruct assets; [done | discriminate].
  - apply Forall_cons in Hsync as [Hr Hrows].
    destruct assets as [|a assets]; [discriminate|].
    do 3 f_equal; [done|]. f_equal. rewrite Hr. apply maximum_const.
    apply Forall_fmap. eapply Forall_impl; [exact Hrows|]. done.
Qed.

(** X17. The replacement is not atomic: when the fetched assets (one batch
    of them) repeat an item id, the call fails on the unique index after the
    character's rows were deleted, and the character is left with no cached
    asset; the rows of other characters are as before. *)
Theorem duplicate_item_ids_empty_the_cache cid assets now w d :
  db w = Some d →
  ¬ NoDup (Types.item_id <$> assets) →
  (length assets ≤ batchSize)%nat →
  ∃ w',
    storeCharacterAssets cid assets now w
    = (Throw (JsError
         "UNIQUE constraint failed: character_assets.character_id, character_assets.item_id"),
       w')
    ∧ getCharacterAssets cid w' = (Ok [], w')
    ∧ ∀ cid', cid' ≠ cid →
        fst (getCharacterAssets cid' w') = fst (getCharacterAssets cid' w).
Proof.
  intros Hdb Hdup Hlen.
  set (d1 := {| characters_table := characters_table d;
                characterAssets := filter (λ r, na_characterId (columns r) ≠ cid)
                                     (characterAssets d);
                itemTypes := itemTypes d; next_id := next_id d |}).
  exists (set_db (Some d1) w).
  assert (Hsome : (0 < length (toRecord cid (now `div` 1000) <$> assets))%nat).
  { rewrite length_fmap. destruct assets; [|simpl; lia].
    destruct Hdup. constructor. }
  split; [|split].
  - unfold storeCharacterAssets, deleteWhere, Db.exec, Db.getDatabase. run_M.
    rewrite Hdb. cbn [fst snd db set_db]. fold d1.
    rewrite bool_decide_eq_true_2 by done.
    apply insertBatches_first_fails; [done|].
    unfold slice. rewrite drop_0, take_ge by (rewrite length_fmap; lia).
    unfold insertValues, Db.getDatabase. run_M. cbn [db set_db].
    rewrite bool_decide_eq_false_2; [done|].
    intros [Hnd _]. apply Hdup.
    replace (indexKey <$> (toRecord cid (now `div` 1000) <$> assets))
      with (pair cid <$> (Types.item_id <$> assets)) in Hnd
      by (by rewrite <- !list_fmap_compose).
    eapply NoDup_fmap_1. exact Hnd.
  - rewrite (AssetServiceFacts.getCharacterAssets_open cid (set_db (Some d1) w) d1 eq_refl).
    subst d1. cbn [characterAssets].
    rewrite AssetServiceFacts.filter_none; [by rewrite selectOrder_nil|].
    apply Forall_forall. intros r Hr. apply list_elem_of_filter in Hr as [Hr _]. done.
  - intros cid' Hne.
    rewrite (AssetServiceFacts.getCharacterAssets_open cid' w d Hdb).
    rewrite (AssetServiceFacts.getCharacterAssets_open cid' (set_db (Some d1) w) d1 eq_refl).
    cbn [fst]. do 2 f_equal. subst d1. cbn [characterAssets].
    rewrite list_filter_filter. apply list_filter_iff. intros r. simpl. split.
    + intros []. done.
    + intros Hr. split; [done|]. congruence.
Qed.

(** X18. Grouping by location partitions what a read of the character's
    assets returns: the group of a key holds exactly the returned assets of
    that location id and flag, in the order of the read, and a key no asset
    has is not in the result; the read lists the rows of the character, and
    nothing is changed. *)
Theorem getCharacterAssetsByLocation_partitions cid w d :
  db w = Some d →
  ∃ rows grouped,
    getCharacterAssets cid w = (Ok rows, w)
    ∧ rows ≡ₚ filter (λ r, na_characterId (columns r) = cid) (characterAssets d)
    ∧ getCharacterAssetsByLocation cid w = (Ok grouped, w)
    ∧ ∀ k, grouped !! k
           = match filter (λ r, locationKey r = k) rows with
             | [] => None
             | group => Some group
             end.
Proof.
  intros Hdb. pose proof (AssetServiceFacts.getCharacterAssets_open cid w d Hdb) as Hread.
  eexists _, _. split; [exact Hread|]. split; [apply Db.selectOrder_perm|]. split.
  - unfold getCharacterAssetsByLocation. run_M. rewrite Hread. reflexivity.
  - intros k. rewrite foldl_addToGroup. by rewrite lookup_empty.
Qed.

End WithEngine.

(** X19. [deleteOldAssets] deletes the rows synchronised at the given
    second, not the rows synchronised before it: every row of the character
    with an earlier (or later) [synced_at] is still in the table, as are the
    rows of other characters, and nothing else is; the number it returns is
    0, whatever it deleted. *)
Theorem deleteOldAssets_keeps_older_rows cid ts w d :
  db w = Some d →
  ∃ d',
    deleteOldAssets cid ts w = (Ok 0, set_db (Some d') w)
    ∧ (∀ r, r ∈ characterAssets d → na_syncedAt (columns r) ≠ ts → r ∈ characterAssets d')
    ∧ (∀ r, r ∈ characterAssets d → na_characterId (columns r) ≠ cid →
            r ∈ characterAssets d')
    ∧ (∀ r, r ∈ characterAssets d' →
            r ∈ characterAssets d
            ∧ ¬ (na_characterId (columns r) = cid ∧ na_syncedAt (columns r) = ts)).
Proof.
  intros Hdb. eexists. split.
  - unfold deleteOldAssets, Db.exec, Db.getDatabase. run_M. rewrite Hdb. reflexivity.
  - cbn [characterAssets]. split; [|split].
    + intros r Hr Hts. apply list_elem_of_filter. split; [|done]. by intros [_ ?].
    + intros r Hr Hc. apply list_elem_of_filter. split; [|done]. by intros [? _].
    + intros r Hr. apply list_elem_of_filter in Hr as [? ?]. done.
Qed.

Section WithEngine.
Context `{Db.Engine}.

(** X20. Deleting a character from an open database removes its row and
    its assets: it is not found any more, its token counts as expired and it
    has no cached asset; the rows and assets of the other characters are as
    before. *)
Theorem deleteCharacter_forgets cid now w d :
  db w = Some d →
  ∃ w',
    CharacterService.deleteCharacter cid w = (Ok tt, w')
    ∧ CharacterService.getCharacter cid w' = (Ok None, w')
    ∧ CharacterService.isTokenExpired cid now w' = (Ok true, w')
    ∧ getCharacterAssets cid w' = (Ok [], w')
    ∧ ∀ cid', cid' ≠ cid →
        fst (CharacterService.getCharacter cid' w') = fst (CharacterService.getCharacter cid' w)
        ∧ fst (getCharacterAssets cid' w') = fst (getCharacterAssets cid' w).
Proof.
  intros Hdb. eexists. split.
  { unfold CharacterService.deleteCharacter, Db.exec, Db.getDatabase. run_M.
    rewrite Hdb. cbn [fst snd db set_db]. reflexivity. }
  assert (Hgone : ∀ (l : list Character),
            filter (λ c, characterId c = cid) (filter (λ c, characterId c ≠ cid) l) = []).
  { intros l. apply AssetServiceFacts.filter_none. apply Forall_forall.
    intros c Hc. apply list_elem_of_filter in Hc as [Hc _]. done. }
  set (d' := {| characters_table :=
                  filter (λ c, characterId c ≠ cid) (characters_table d);
                characterAssets :=
                  filter (λ r, na_characterId (columns r) ≠ cid) (characterAssets d);
                itemTypes := itemTypes d;
                next_id := next_id d |}).
  cbn [set_db].
  assert (Hget : ∀ w0, db w0 = Some d' → CharacterService.getCharacter cid w0 = (Ok None, w0)).
  { intros w0 Hdb0. unfold CharacterService.getCharacter, Db.getDatabase. run_M.
    rewrite Hdb0. subst d'. cbn [characters_table]. by rewrite Hgone. }
  split; [by apply Hget|]. split; [|split].
  - unfold CharacterService.isTokenExpired. run_M. by rewrite Hget.
  - erewrite AssetServiceFacts.getCharacterAssets_open by reflexivity.
    cbn [characterAssets].
    rewrite AssetServiceFacts.filter_none; [by rewrite selectOrder_nil|].
    apply Forall_forall. intros r Hr. apply list_elem_of_filter in Hr as [Hr _]. done.
  - intros cid' Hne. split.
    + unfold CharacterService.getCharacter, Db.getDatabase. run_M.
      cbn [db set_db characters_table]. rewrite Hdb. cbn [fst]. do 2 f_equal.
      subst d'. cbn [characters_table].
      rewrite list_filter_filter. apply list_filter_iff. intros c. simpl. split.
      * intros []. done.
      * intros Hc. split; [done|]. congruence.
    + rewrite (AssetServiceFacts.getCharacterAssets_open cid' w d Hdb).
      erewrite AssetServiceFacts.getCharacterAssets_open by reflexivity.
      cbn [fst]. do 2 f_equal. cbn [characterAssets].
      rewrite list_filter_filter. apply list_filter_iff. intros r. simpl. split.
      * intros []. done.
      * intros Hr. split; [done|]. congruence.
Qed.

End WithEngine.

Lemma stored_assets_are_read_back_witness :
  ∃ w' rows fetched,
    storeCharacterAssets 42 [rifter; tritanium] 5000000 cachedWorld = (Ok tt, w')
    ∧ @getCharacterAssets indexOrder 42 w' = (Ok rows, w')
    ∧ fetched ≡ₚ [rifter; tritanium]
    ∧ Forall2 (IsRecordOf 42 (5000000 `div` 1000)) fetched (columns <$> rows)
    ∧ @getCharacterAssetStats indexOrder 42 w'
      = (Ok {| totalItems := length [rifter; tritanium];
               lastSyncTime := Some (5000000 `div` 1000) |}, w').
Proof.
  apply (@stored_assets_are_read_back indexOrder 42 [rifter; tritanium] 5000000 cachedWorld
           cachedDatabase).
  - reflexivity.
  - apply (bool_decide_unpack _). vm_compute. exact I.
Defined.

Lemma duplicate_item_ids_empty_the_cache_witness :
  ∃ w',
    storeCharacterAssets 42 [tritanium; tritanium] 5000000 cachedWorld
    = (Throw (JsError
         "UNIQUE constraint failed: character_assets.character_id, character_assets.item_id"),
       w')
    ∧ @getCharacterAssets indexOrder 42 w' = (Ok [], w')
    ∧ ∀ cid', cid' ≠ 42 →
        fst (@getCharacterAssets indexOrder cid' w')
        = fst (@getCharacterAssets indexOrder cid' cachedWorld).
Proof.
  apply (@duplicate_item_ids_empty_the_cache indexOrder 42 [tritanium; tritanium] 5000000
           cachedWorld cachedDatabase).
  - reflexivity.
  - apply (proj1 (bool_decide_eq_false _)). vm_compute. reflexivity.
  - unfold batchSize. simpl. lia.
Defined.

Lemma getCharacterAssetsByLocation_partitions_witness :
  ∃ rows grouped,
    @getCharacterAssets indexOrder 42 hangarWorld = (Ok rows, hangarWorld)
    ∧ rows ≡ₚ filter (λ r, na_characterId (columns r) = 42) (characterAssets hangarDatabase)
    ∧ @getCharacterAssetsByLocation indexOrder 42 hangarWorld = (Ok grouped, hangarWorld)
    ∧ ∀ k, grouped !! k
           = match filter (λ r, locationKey r = k) rows with
             | [] => None
             | group => Some group
             end.
Proof.
  apply (@getCharacterAssetsByLocation_partitions indexOrder 42 hangarWorld hangarDatabase).
  vm_compute. reflexivity.
Defined.

(** In the example the hangar group lists the mineral before the ship,
    which was stored first. *)
Lemma hangar_group_in_index_order :
  (na_itemId ∘ columns)
  <$> default [] (match fst (@getCharacterAssetsByLocation indexOrder 42 hangarWorld) with
                  | Ok grouped => grouped !! "60003760-Hangar"
                  | Throw _ => None
                  end)
  = [1001; 1002].
Proof. vm_compute. reflexivity. Qed.

Lemma deleteOldAssets_keeps_older_rows_witness :
  ∃ d',
    deleteOldAssets 42 1000 cachedWorld = (Ok 0, set_db (Some d') cachedWorld)
    ∧ (∀ r, r ∈ characterAssets cachedDatabase → na_syncedAt (columns r) ≠ 1000 →
            r ∈ characterAssets d')
    ∧ (∀ r, r ∈ characterAssets cachedDatabase → na_characterId (columns r) ≠ 42 →
            r ∈ characterAssets d')
    ∧ (∀ r, r ∈ characterAssets d' →
            r ∈ characterAssets cachedDatabase
            ∧ ¬ (na_characterId (columns r) = 42 ∧ na_syncedAt (columns r) = 1000)).
Proof.
  apply (deleteOldAssets_keeps_older_rows 42 1000 cachedWorld cachedDatabase).
  reflexivity.
Defined.

(** In the example the row of character 42 is deleted, and the call
    returns 0. *)
Lemma deleteOldAssets_returns_zero :
  fst (deleteOldAssets 42 1000 cachedWorld) = Ok 0
  ∧ (characterAssets <$> db (snd (deleteOldAssets 42 1000 cachedWorld)))
    = Some [ {| id := 2; columns := staleRow 7 999 |} ].
Proof. vm_compute. done. Qed.

Lemma deleteCharacter_forgets_witness :
  ∃ w',
    CharacterService.deleteCharacter 42 pilotWorld = (Ok tt, w')
    ∧ CharacterService.getCharacter 42 w' = (Ok None, w')
    ∧ CharacterService.isTokenExpired 42 1000 w' = (Ok true, w')
    ∧ @getCharacterAssets indexOrder 42 w' = (Ok [], w')
    ∧ ∀ cid', cid' ≠ 42 →
        fst (CharacterService.getCharacter cid' w')
        = fst (CharacterService.getCharacter cid' pilotWorld)
        ∧ fst (@getCharacterAssets indexOrder cid' w')
          = fst (@getCharacterAssets indexOrder cid' pilotWorld).
Proof.
  eapply (@deleteCharacter_forgets indexOrder 42 1000 pilotWorld).
  reflexivity.
Defined.

End AssetCacheFacts.

(* ===================================================================== *)
(** * Resolved locations *)
(* ===================================================================== *)

Module LocationFacts.
Import StaticData DatabaseManager EnhancedESIClient.

Section WithTables.
Context (tables : Tables).

Lemma resolveLocation_locationId (id : Z) :
  Location.locationId (resolveLocation tables id) = id.
Proof.
  unfold resolveLocation, truthyN.
  destruct (Z.eqb_spec id 0) as [-> | _]; cbn [negb]; [done|].
  destruct (getStation tables id); [done|].
  destruct (getSolarSystem tables id); [done|].
  by destruct (1000000000000 <=? id).
Qed.

(** X21. What [resolveLocation] returns, for every id and every content of
    the reference tables: the location carries the id it was asked for; its
    type is one of the four kinds; a region is never given without its solar
    system; and a location is taken for a structure only when its id is at
    least 1000000000000 and the tables know it neither as a station nor as
    a solar system. *)
Theorem resolveLocation_kinds (id : Z) :
  Location.locationId (resolveLocation tables id) = id
  ∧ locationType (resolveLocation tables id)
    ∈ ["station"; "solar_system"; "structure"; "unknown"]
  ∧ (is_Some (region (resolveLocation tables id)) →
     is_Some (solarSystem (resolveLocation tables id)))
  ∧ (locationType (resolveLocation tables id) = "structure" →
     1000000000000 ≤ id
     ∧ getStation tables id = None ∧ getSolarSystem tables id = None).
Proof.
  split; [apply resolveLocation_locationId|].
  unfold resolveLocation, truthyN.
  destruct (Z.eqb_spec id 0) as [-> | _]; cbn [negb].
  { cbn. split; [by repeat constructor|]. split; [by intros []|]. done. }
  destruct (getStation tables id) as [station|].
  { cbn [locationType region solarSystem]. split; [by repeat constructor|].
    destruct (getSolarSystem tables (st_solarSystemId station)) as [s|]; cbn.
    - split; [by eauto|]. done.
    - split; [by intros []|]. done. }
  destruct (getSolarSystem tables id) as [s|].
  { cbn [locationType region solarSystem]. split; [by repeat constructor|].
    split; [by eauto|]. done. }
  destruct (Z.leb_spec 1000000000000 id); cbn [locationType region solarSystem].
  - split; [by repeat constructor|]. split; [by intros []|]. done.
  - split; [by repeat constructor|]. split; [by intros []|]. done.
Qed.

Lemma securityClass_systemRef (s : SolarSystem) :
  Inventory.securityClass (Some (systemRef s))
  ∈ ["unknown"; "structure"; "high-sec"; "low-sec"; "null-sec"].
Proof.
  unfold Inventory.securityClass, systemRef.
  cbn [fmap option_fmap option_map ss_securityValue].
  destruct (security s) as [x|].
  - destruct (0.5 <=? x)%float; [by repeat constructor|].
    destruct (0 <? x)%float; by repeat constructor.
  - destruct (0.5 <=? 0)%float; [by repeat constructor|].
    destruct (0 <? 0)%float; by repeat constructor.
Qed.

(** What the renderer makes of a solar system of the tables that is shown
    with its region: the text needs the security, and a NULL cell makes it
    throw. *)
Lemma securityText_systemRef (toFixed1 : float → string) (s : SolarSystem) :
  (∃ x, security s = Some x ∧ Inventory.securityText toFixed1 (systemRef s) = Ok (toFixed1 x))
  ∨ (security s = None
     ∧ Inventory.securityText toFixed1 (systemRef s)
       = Throw (JsError "TypeError: Cannot read properties of null (reading 'toFixed')")).
Proof.
  unfold Inventory.securityText, systemRef. cbn [ss_securityValue].
  destruct (security s) as [x|]; [left; by exists x | by right].
Qed.

(** X22. A location made by [resolveLocation], as the renderer shows it:
    [formatLocationInfo] returns a class that is one of the five the style
    sheet knows, or it throws, and it throws only on a station or a solar
    system resolved with its solar system and region whose security cell is
    NULL, with the TypeError of reading [toFixed] of [null]; so it never
    throws when every solar system resolved has a number as its security. *)
Theorem resolved_locations_are_shown (toFixed1 : float → string) (id : Z)
    (asset : Inventory.EVEAsset) :
  Inventory.resolvedLocation asset = Some (resolveLocation tables id) →
  match Inventory.formatLocationInfo toFixed1 asset with
  | Ok info =>
      Inventory.className info ∈ ["unknown"; "structure"; "high-sec"; "low-sec"; "null-sec"]
  | Throw e =>
      e = JsError "TypeError: Cannot read properties of null (reading 'toFixed')"
      ∧ is_Some (region (resolveLocation tables id))
      ∧ ∃ ss, solarSystem (resolveLocation tables id) = Some ss
              ∧ ss_securityValue ss = Null
  end
  ∧ ((∀ ss, solarSystem (resolveLocation tables id) = Some ss → is_Some (ss_security ss)) →
     isOk (Inventory.formatLocationInfo toFixed1 asset) = true).
Proof.
  intros Hloc.
  assert (Hmain :
    match Inventory.formatLocationInfo toFixed1 asset with
    | Ok info =>
        Inventory.className info
        ∈ ["unknown"; "structure"; "high-sec"; "low-sec"; "null-sec"]
    | Throw e =>
        e = JsError "TypeError: Cannot read properties of null (reading 'toFixed')"
        ∧ is_Some (region (resolveLocation tables id))
        ∧ ∃ ss, solarSystem (resolveLocation tables id) = Some ss
                ∧ ss_securityValue ss = Null
    end).
  { unfold Inventory.formatLocationInfo. rewrite Hloc.
    unfold resolveLocation, truthyN.
    destruct (Z.eqb_spec id 0) as [-> | _]; cbn [negb].
    { cbn. destruct (_ && _); by repeat constructor. }
    destruct (getStation tables id) as [station|].
    { cbn [locationType region solarSystem locationName String.eqb Ascii.eqb Bool.eqb].
      destruct (getSolarSystem tables (st_solarSystemId station)) as [s|];
        cbn [fmap option_fmap option_map mbind option_bind];
        [|by repeat constructor].
      destruct (getRegion tables (regionId s)); cbn [option_map];
        [|by repeat constructor].
      destruct (securityText_systemRef toFixed1 s) as [(x & Hx & ->) | [Hnull ->]].
      - apply securityClass_systemRef.
      - split; [done|]. split; [by eauto|]. eexists. split; [done|].
        unfold systemRef. cbn. by rewrite Hnull. }
    destruct (getSolarSystem tables id) as [s|].
    { cbn [locationType region solarSystem locationName String.eqb Ascii.eqb Bool.eqb].
      destruct (getRegion tables (regionId s)); cbn [fmap option_fmap option_map];
        [|by repeat constructor].
      destruct (securityText_systemRef toFixed1 s) as [(x & Hx & ->) | [Hnull ->]].
      - apply securityClass_systemRef.
      - split; [done|]. split; [by eauto|]. eexists. split; [done|].
        unfold systemRef. cbn. by rewrite Hnull. }
    destruct (1000000000000 <=? id);
      cbn [locationType region solarSystem locationName String.eqb Ascii.eqb Bool.eqb].
    - by repeat constructor.
    - destruct (_ && _); by repeat constructor. }
  split; [exact Hmain|].
  intros Hnumber.
  destruct (Inventory.formatLocationInfo toFixed1 asset) as [info | e]; [done|].
  destruct Hmain as (_ & _ & ss & Hss & Hnull).
  destruct (Hnumber ss Hss) as [x Hx]. unfold ss_security in Hx. by rewrite Hnull in Hx.
Qed.

Lemma foldl_insert_lookup (f : Z → ResolvedLocation) (l : list Z) :
  ∀ (m : gmap Z ResolvedLocation) k v,
    foldl (λ m id, <[id := f id]> m) m l !! k = Some v →
    m !! k = Some v ∨ v = f k.
Proof.
  induction l as [|a l IH]; intros m k v; [by left|].
  cbn [foldl]. intros Hk. apply IH in Hk as [Hk | ->]; [|by right].
  destruct (decide (a = k)) as [-> | Hne].
  - rewrite lookup_insert_eq in Hk. right. by injection Hk.
  - rewrite lookup_insert_ne in Hk by done. by left.
Qed.

Lemma foldl_insert_is_Some (f : Z → ResolvedLocation) (l : list Z) :
  ∀ (m : gmap Z ResolvedLocation) k,
    k ∈ l ∨ is_Some (m !! k) → is_Some (foldl (λ m id, <[id := f id]> m) m l !! k).
Proof.
  induction l as [|a l IH]; intros m k Hk.
  - destruct Hk as [Hk | Hk]; [by apply elem_of_nil in Hk | done].
  - cbn [foldl]. apply IH. destruct Hk as [Hk | Hk].
    + apply elem_of_cons in Hk as [-> | Hk]; [right | by left].
      by rewrite lookup_insert_eq.
    + right. destruct (decide (a = k)) as [-> | Hne].
      * by rewrite lookup_insert_eq.
      * by rewrite lookup_insert_ne.
Qed.

(** The location map holds, for every location id of an asset that is not
    0, what [resolveLocation] gives for it, and nothing else. *)
Lemma locationMap_lookup (rows : list AssetWithData) (k : Z) (l : ResolvedLocation) :
  locationMap tables rows !! k = Some l → l = resolveLocation tables k.
Proof.
  unfold locationMap. intros Hk. apply foldl_insert_lookup in Hk as [Hk | ->]; [|done].
  by rewrite lookup_empty in Hk.
Qed.

Lemma locationMap_complete (rows : list AssetWithData) (x : AssetWithData) :
  x ∈ rows → na_locationId (columns (asset x)) ≠ 0 →
  is_Some (locationMap tables rows !! na_locationId (columns (asset x))).
Proof.
  intros Hx Hnz. unfold locationMap. apply foldl_insert_is_Some. left.
  apply elem_of_remove_dups, list_elem_of_filter. split.
  - unfold truthyN. by destruct (Z.eqb_spec (na_locationId (columns (asset x))) 0).
  - apply list_elem_of_fmap. by exists x.
Qed.

Section WithCipher.
Context `{AuthStore.Cipher}.

(** The lookups of structures rename structures; they do not move a
    location, remove it, or touch one that is not a structure. *)
Lemma enhanceStructures_keeps cid now assets :
  ∀ locations w locations' w',
    (∀ k l, locations !! k = Some l →
            Location.locationId l = k
            ∧ (locationType l ≠ "structure" → l = resolveLocation tables k)
            ∧ (locationType l = "structure" →
               locationType (resolveLocation tables k) = "structure")) →
    enhanceStructures tables cid now assets locations w = (Ok locations', w') →
    (∀ k l, locations' !! k = Some l →
            Location.locationId l = k
            ∧ (locationType l ≠ "structure" → l = resolveLocation tables k)
            ∧ (locationType l = "structure" →
               locationType (resolveLocation tables k) = "structure"))
    ∧ ∀ k, is_Some (locations !! k) → is_Some (locations' !! k).
Proof.
  induction assets as [|a assets IH]; intros locations w locations' w' Hinv.
  - by intros [= <- <-].
  - cbn [enhanceStructures]. run_M.
    assert (Hstep : ∀ m : M (gmap Z ResolvedLocation),
              (∀ l1 w1, m w = (Ok l1, w1) →
                 (∀ k l, l1 !! k = Some l →
                         Location.locationId l = k
                         ∧ (locationType l ≠ "structure" → l = resolveLocation tables k)
                         ∧ (locationType l = "structure" →
                            locationType (resolveLocation tables k) = "structure"))
                 ∧ ∀ k, is_Some (locations !! k) → is_Some (l1 !! k)) →
              (let (r, w1) := m w in
               match r with
               | Ok a0 => enhanceStructures tables cid now assets a0 w1
               | Throw e => (Throw e, w1)
               end) = (Ok locations', w') →
              (∀ k l, locations' !! k = Some l →
                      Location.locationId l = k
                      ∧ (locationType l ≠ "structure" → l = resolveLocation tables k)
                      ∧ (locationType l = "structure" →
                         locationType (resolveLocation tables k) = "structure"))
              ∧ ∀ k, is_Some (locations !! k) → is_Some (locations' !! k)).
    { intros m Hm. destruct (m w) as [[l1 | e] w1]; [|done].
      intros Hrun. destruct (Hm l1 w1 eq_refl) as [Hinv1 Hdom1].
      destruct (IH l1 w1 locations' w' Hinv1 Hrun) as [Hinv' Hdom'].
      split; [exact Hinv'|]. intros k Hk. by apply Hdom', Hdom1. }
    apply Hstep.
    destruct (DatabaseManager.resolvedLocation a) as [k0 | own];
      [|by intros ? ? [= <- <-]].
    destruct (locations !! k0) as [l0|] eqn:Hk0; [|by intros ? ? [= <- <-]].
    destruct (String.eqb_spec (locationType l0) "structure") as [Htype | _];
      [|by intros ? ? [= <- <-]].
    unfold tryCatch. run_M. intros l1 w1.
    destruct (ESIClient.getStructureInfo cid (Location.locationId l0) now w)
      as [[info | e] w2]; intros [= <- <-]; [|done].
    destruct (Hinv k0 l0 Hk0) as (Hid0 & _ & Hstruct0).
    split.
    + intros k l. destruct (decide (k0 = k)) as [-> | Hne].
      * rewrite lookup_insert_eq. intros [= <-]. cbn [withStructureInfo locationType
          Location.locationId]. split; [done|]. split; [by rewrite Htype | by intros _; auto].
      * rewrite lookup_insert_ne by done. apply Hinv.
    + intros k Hk. destruct (decide (k0 = k)) as [-> | Hne].
      * by rewrite lookup_insert_eq.
      * by rewrite lookup_insert_ne.
Qed.

Section WithEngine.
Context `{Db.Engine}.

(** X23. In the assets returned with their locations, after the lookups of
    structures: the location of an asset carries the asset's own location
    id; unless it is a structure, it is exactly what [resolveLocation] gives
    for that id (for an id other than 0); and it is a structure only when
    [resolveLocation] took the id for one.  So the lookups rename
    structures and touch nothing else. *)
Theorem enhanced_location_is_the_assets cid now w l w' :
  getCharacterAssetsWithEnhancedLocationData tables cid now w = (Ok l, w') →
  Forall (λ a,
            Location.locationId (location a) = na_locationId (columns (asset (base a)))
            ∧ (locationType (location a) ≠ "structure" →
               na_locationId (columns (asset (base a))) ≠ 0 →
               location a = resolveLocation tables (na_locationId (columns (asset (base a)))))
            ∧ (locationType (location a) = "structure" →
               locationType (resolveLocation tables (na_locationId (columns (asset (base a)))))
               = "structure")) l.
Proof.
  unfold getCharacterAssetsWithEnhancedLocationData, getCharacterAssetsWithLocationData,
    getCharacterAssetsWithData, AssetService.getCharacterAssetsWithTypes, Db.getDatabase.
  run_M. destruct (db w) as [d|]; [|done]. cbn [fst snd].
  match goal with
  | |- context [enhanceStructures tables cid now (?f <$> ?rows) ?m w] =>
      set (withData := rows)
  end.
  match goal with
  | |- context [enhanceStructures tables cid now ?l0 ?m w] =>
      pose proof (enhanceStructures_keeps cid now l0 m w) as Hkeep;
      destruct (enhanceStructures tables cid now l0 m w) as [[locs | e] w1] eqn:Hrun;
        [|done]
  end.
  destruct (Hkeep locs w1) as [Hinv Hdom]; [|done|].
  { intros k l0 Hk. apply locationMap_lookup in Hk as ->.
    split; [apply resolveLocation_locationId|]. by split. }
  intros [= <- <-].
  apply Forall_fmap, Forall_fmap, Forall_forall. intros x Hx.
  unfold deref. cbn.
  destruct (locationMap tables withData !! na_locationId (columns (asset x)))
    as [l0|] eqn:Hmap; cbn.
  - destruct (Hdom (na_locationId (columns (asset x)))) as [l1 Hl1]; [by rewrite Hmap|].
    rewrite Hl1. cbn. destruct (Hinv _ _ Hl1) as (Hid & Hother & Hstruct).
    split; [done|]. split; [by intros ? _; auto | done].
  - split; [done|]. split; [|done].
    intros _ Hnz. destruct (locationMap_complete withData x Hx Hnz) as [l0 Hl0].
    by rewrite Hl0 in Hmap.
Qed.

End WithEngine.
End WithCipher.
End WithTables.

Lemma resolved_locations_are_shown_witness :
  match Inventory.formatLocationInfo (λ _, "0.9")
          {| Inventory.item_id := Some 1001; Inventory.itemId := None;
             Inventory.type_id := Some 34; Inventory.typeId := None;
             Inventory.quantity := 1; Inventory.location_id := Some 60003760;
             Inventory.locationId := None; Inventory.location_flag := Some "Hangar";
             Inventory.locationFlag := None;
             Inventory.resolvedLocation :=
               Some (resolveLocation (jitaTables (Some 0.875%float)) 60003760) |} with
  | Ok info =>
      Inventory.className info ∈ ["unknown"; "structure"; "high-sec"; "low-sec"; "null-sec"]
  | Throw e =>
      e = JsError "TypeError: Cannot read properties of null (reading 'toFixed')"
      ∧ is_Some (region (resolveLocation (jitaTables (Some 0.875%float)) 60003760))
      ∧ ∃ ss, solarSystem (resolveLocation (jitaTables (Some 0.875%float)) 60003760) = Some ss
              ∧ ss_securityValue ss = Null
  end
  ∧ ((∀ ss, solarSystem (resolveLocation (jitaTables (Some 0.875%float)) 60003760) = Some ss →
            is_Some (ss_security ss)) →
     isOk (Inventory.formatLocationInfo (λ _, "0.9")
             {| Inventory.item_id := Some 1001; Inventory.itemId := None;
                Inventory.type_id := Some 34; Inventory.typeId := None;
                Inventory.quantity := 1; Inventory.location_id := Some 60003760;
                Inventory.locationId := None; Inventory.location_flag := Some "Hangar";
                Inventory.locationFlag := None;
                Inventory.resolvedLocation :=
                  Some (resolveLocation (jitaTables (Some 0.875%float)) 60003760) |})
     = true).
Proof.
  apply (resolved_locations_are_shown (jitaTables (Some 0.875%float)) (λ _, "0.9") 60003760).
  reflexivity.
Defined.

(** The station of the example is shown with its security, in the class of
    high security; with a NULL security cell the renderer throws. *)
Lemma station_is_shown_or_throws :
  Inventory.formatLocationInfo (λ _, "0.9")
    {| Inventory.item_id := Some 1001; Inventory.itemId := None;
       Inventory.type_id := Some 34; Inventory.typeId := None;
       Inventory.quantity := 1; Inventory.location_id := Some 60003760;
       Inventory.locationId := None; Inventory.location_flag := Some "Hangar";
       Inventory.locationFlag := None;
       Inventory.resolvedLocation :=
         Some (resolveLocation (jitaTables (Some 0.875%float)) 60003760) |}
  = Ok {| Inventory.text :=
            "Jita IV - Moon 4 - Caldari Navy Assembly Plant (Jita 0.9 - The Forge)";
          Inventory.className := "high-sec" |}
  ∧ Inventory.formatLocationInfo (λ _, "0.9")
      {| Inventory.item_id := Some 1001; Inventory.itemId := None;
         Inventory.type_id := Some 34; Inventory.typeId := None;
         Inventory.quantity := 1; Inventory.location_id := Some 60003760;
         Inventory.locationId := None; Inventory.location_flag := Some "Hangar";
         Inventory.locationFlag := None;
         Inventory.resolvedLocation := Some (resolveLocation (jitaTables None) 60003760) |}
    = Throw (JsError "TypeError: Cannot read properties of null (reading 'toFixed')").
Proof. vm_compute. done. Qed.

Lemma enhanced_location_is_the_assets_witness :
  Forall (λ a,
            Location.locationId (location a) = na_locationId (columns (asset (base a)))
            ∧ (locationType (location a) ≠ "structure" →
               na_locationId (columns (asset (base a))) ≠ 0 →
               location a
               = resolveLocation (jitaTables (Some 0.875%float))
                   (na_locationId (columns (asset (base a)))))
            ∧ (locationType (location a) = "structure" →
               locationType (resolveLocation (jitaTables (Some 0.875%float))
                               (na_locationId (columns (asset (base a)))))
               = "structure")) structureAssets.
Proof.
  apply (@enhanced_location_is_the_assets (jitaTables (Some 0.875%float)) AuthStore.plainCipher
           AssetService.indexOrder 42 5000000 structureWorld structureAssets
           (snd structureRun)).
  vm_compute. reflexivity.
Defined.

(** In the example the structure was looked up and shows its name, its
    solar system and its region; the station is as the tables give it. *)
Lemma structure_is_renamed :
  (λ a, (na_itemId (columns (asset (base a))), locationName (location a),
         locationType (location a), ss_name <$> solarSystem (location a)))
  <$> structureAssets
  = [ (2001, "Jita IV - Moon 4 - Caldari Navy Assembly Plant", "station", Some "Jita");
      (2002, "Perimeter - Trade Hub", "structure", Some "Jita") ].
Proof. vm_compute. reflexivity. Qed.

End LocationFacts.

(* ===================================================================== *)
(** * Synchronisation end to end *)
(* ===================================================================== *)

Module SynchronisationFacts.
Import AuthStore ESIClient StaticData DatabaseManager EnhancedESIClient.

Lemma ensureDbInitialized_run w :
  ensureDbInitialized w
  = (Ok tt, match db w with Some _ => w | None => set_db (Some (dbFile w)) w end).
Proof. unfold ensureDbInitialized, Db.initializeDatabase. run_M. by destruct (db w). Qed.

(** The synchronisation of fetched assets with distinct item ids completes
    on an open database, and leaves the records made from them as the rows
    of the character. *)
Lemma syncCharacterAssets_rows cid assets now w d :
  db w = Some d →
  NoDup (Types.item_id <$> assets) →
  ∃ w' d',
    syncCharacterAssets cid assets now w = (Ok tt, w')
    ∧ db w' = Some d'
    ∧ columns <$> filter (λ r, na_characterId (columns r) = cid) (characterAssets d')
      = AssetService.toRecord cid (now `div` 1000) <$> assets.
Proof.
  intros Hdb Hnodup.
  destruct (AssetServiceFacts.storeCharacterAssets_completes cid assets now w d Hdb Hnodup)
    as (w1 & Hrun).
  destruct (AssetServiceFacts.storeCharacterAssets_table _ _ _ _ _ Hrun)
    as (d0 & d1 & _ & Hdb1 & Hcols & _ & _).
  unfold syncCharacterAssets. run_M. rewrite Hrun. cbn [fst snd].
  unfold CharacterService.updateLastSync, Db.exec, Db.getDatabase. run_M.
  rewrite Hdb1. cbn [fst snd].
  unfold getMissingItemTypes.
  destruct (remove_dups (Types.type_id <$> assets)); run_M; unfold Db.getDatabase;
    cbn [db set_db fst snd]; eexists _, _; (split; [reflexivity|]); cbn [db set_db];
    (split; [reflexivity|]); exact Hcols.
Qed.

Section WithCipherAndTables.
Context `{Cipher} `{Db.Engine} (tables : Tables).

(** X24. A forced refresh with a credential that is not about to expire
    and a 2xx reply whose assets have distinct item ids: the call opens the
    cache if need be, fetches, replaces the character's rows and returns one
    row per fetched asset, each row its asset field by field with the second
    of the call, in the order of the engine. *)
Theorem forced_refresh_returns_fetched_assets cid now w auth ok rest :
  getCharacterAuth cid w = Some auth →
  isTokenExpired cid now w = false →
  esiEndpoint w = ok :: rest → 200 ≤ status ok < 300 →
  NoDup (Types.item_id <$> asAssets ok) →
  ∃ l w' fetched,
    getCharacterAssetsWithFallback tables cid true now w = (Ok l, w')
    ∧ fetched ≡ₚ asAssets ok
    ∧ Forall2 (AssetService.IsRecordOf cid (now `div` 1000)) fetched
        ((columns ∘ asset ∘ base) <$> l).
Proof.
  intros Hauth Hexp Hesi Hok Hnodup.
  pose proof (ensureDbInitialized_run w) as Hinit.
  set (w0 := match db w with Some _ => w | None => set_db (Some (dbFile w)) w end) in Hinit.
  assert (Hdb0 : ∃ d0, db w0 = Some d0).
  { subst w0. destruct (db w) as [d0|] eqn:E; [rewrite E|]; by eauto. }
  destruct Hdb0 as [d0 Hdb0].
  assert (Hsame : getCharacterAuth cid w0 = Some auth
                  ∧ isTokenExpired cid now w0 = false
                  ∧ esiEndpoint w0 = ok :: rest).
  { subst w0. destruct (db w); done. }
  destruct Hsame as (Hauth0 & Hexp0 & Hesi0).
  assert (Hinit0 : ensureDbInitialized w0 = (Ok tt, w0)).
  { rewrite ensureDbInitialized_run. by rewrite Hdb0. }
  set (w1 := set_esiEndpoint rest
               (send (EsiGet {| endpoint := "/characters/" +:+ showZ cid +:+ "/assets/";
                                Authorization := Some ("Bearer " +:+ access_token auth);
                                _characterId := Some cid; _retry := false |}) w0)).
  assert (Hfetch : ESIClient.getCharacterAssets cid now w0 = (Ok (asAssets ok), w1)).
  { unfold ESIClient.getCharacterAssets, makeAuthenticatedRequest. run_M.
    rewrite Hauth0, Hexp0. cbn [fst snd]. unfold get. rewrite Hesi0. cbn [client].
    by rewrite ESIClientRequests.success_status. }
  destruct (syncCharacterAssets_rows cid (asAssets ok) now w1 d0 Hdb0 Hnodup)
    as (w2 & d2 & Hsync & Hdb2 & Hcols).
  destruct (FallbackFacts.cached_read_completes tables cid now w2 d2 Hdb2)
    as (l & w' & Hread & Hrows & _).
  destruct (AssetCacheFacts.Forall2_reorder (AssetService.IsRecordOf cid (now `div` 1000))
              (asAssets ok)
              (columns <$> filter (λ r, na_characterId (columns r) = cid) (characterAssets d2))
              ((columns ∘ asset ∘ base) <$> l))
    as (fetched & Hfetched & Hfields).
  { rewrite Hcols. apply AssetServiceFacts.toRecord_IsRecordOf. }
  { rewrite (list_fmap_compose (asset ∘ base) columns), Hrows.
    by rewrite Db.joinOrder_perm. }
  exists l, w', fetched. split; [|done].
  unfold getCharacterAssetsWithFallback. run_M. rewrite Hinit. cbn [fst snd].
  unfold getAndSyncCharacterAssets. run_M. rewrite Hinit0. cbn [fst snd].
  rewrite Hfetch. cbn [fst snd]. rewrite Hsync. cbn [fst snd]. exact Hread.
Qed.

(** X25. A cache synchronised within the last 30 minutes is served as it
    is: a call that is not forced returns the cached rows of the character,
    in the order of the engine, and leaves the database unchanged, whatever
    the ESI endpoint would answer. *)
Theorem fresh_cache_is_served cid now w d stats :
  db w = Some d →
  fst (getCharacterAssetStats cid w) = Ok stats →
  cacheIsOld stats now = false →
  ∃ l w',
    getCharacterAssetsWithFallback tables cid false now w = (Ok l, w')
    ∧ (asset ∘ base) <$> l
      ≡ₚ filter (λ r, na_characterId (columns r) = cid) (characterAssets d)
    ∧ db w' = Some d.
Proof.
  intros Hdb Hstats Hfresh.
  destruct (getCharacterAssetStats cid w) as [r w2] eqn:Hrun. cbn [fst] in Hstats. subst r.
  apply FallbackFacts.getCharacterAssetStats_world in Hrun as Hw2. subst w2.
  destruct (FallbackFacts.cached_read_completes tables cid now w d Hdb)
    as (l & w' & Hread & Hl & Hdb').
  exists l, w'. split; [|split; [|done]].
  - unfold getCharacterAssetsWithFallback. run_M.
    rewrite ensureDbInitialized_run, Hdb. cbn [fst snd].
    rewrite Hrun. cbn [fst snd]. rewrite Hfresh. cbn [fst snd]. exact Hread.
  - rewrite Hl. apply Db.joinOrder_perm.
Qed.

End WithCipherAndTables.

Lemma forced_refresh_returns_fetched_assets_witness :
  ∃ l w' fetched,
    @getCharacterAssetsWithFallback plainCipher AssetService.indexOrder noTables 42 true
      5000000 syncWorld
    = (Ok l, w')
    ∧ fetched ≡ₚ asAssets hangarReply
    ∧ Forall2 (AssetService.IsRecordOf 42 (5000000 `div` 1000)) fetched
        ((columns ∘ asset ∘ base) <$> l).
Proof.
  apply (@forced_refresh_returns_fetched_assets plainCipher AssetService.indexOrder noTables
           42 5000000 syncWorld credential42 hangarReply []).
  - reflexivity.
  - reflexivity.
  - reflexivity.
  - vm_compute. split; [discriminate | reflexivity].
  - apply (bool_decide_unpack _). vm_compute. exact I.
Defined.

Lemma fresh_cache_is_served_witness :
  ∃ l w',
    @getCharacterAssetsWithFallback plainCipher AssetService.indexOrder noTables 42 false
      6000000 freshCacheWorld
    = (Ok l, w')
    ∧ (asset ∘ base) <$> l
      ≡ₚ filter (λ r, na_characterId (columns r) = 42)
           (characterAssets AssetService.hangarDatabase)
    ∧ db w' = Some AssetService.hangarDatabase.
Proof.
  apply (@fresh_cache_is_served plainCipher AssetService.indexOrder noTables 42 6000000
           freshCacheWorld AssetService.hangarDatabase
           {| AssetService.totalItems := 2; AssetService.lastSyncTime := Some 5000 |}).
  - reflexivity.
  - vm_compute. reflexivity.
  - vm_compute. reflexivity.
Defined.

(** In the examples the rows come back in the order of the index, the
    mineral before the ship that was fetched and stored first; and the fresh
    cache is served without a request. *)
Lemma synchronised_rows_in_index_order :
  (na_itemId ∘ columns ∘ asset ∘ base)
  <$> default [] (match fst (@getCharacterAssetsWithFallback plainCipher
                               AssetService.indexOrder noTables 42 true 5000000 syncWorld) with
                  | Ok l => Some l
                  | Throw _ => None
                  end)
  = [1001; 1002]
  ∧ (na_itemId ∘ columns ∘ asset ∘ base)
    <$> default [] (match fst (@getCharacterAssetsWithFallback plainCipher
                                 AssetService.indexOrder noTables 42 false 6000000
                                 freshCacheWorld) with
                    | Ok l => Some l
                    | Throw _ => None
                    end)
    = [1001; 1002]
  ∧ log (snd (@getCharacterAssetsWithFallback plainCipher AssetService.indexOrder noTables
                42 false 6000000 freshCacheWorld))
    = [].
Proof. vm_compute. done. Qed.

End SynchronisationFacts.

(* ===================================================================== *)
(** * Every asset is shown *)
(* ===================================================================== *)

Module InventoryCoverage.
Import Inventory.

(** A visit marks the asset it visits. *)
Lemma visit_marks amap st i a : itemIdOf a ∈ processedAssets (visit amap st (i, a)).
Proof.
  destruct (InventoryFacts.visit_cases amap st i a)
    as [[Hin ->] | [(_ & _ & ->) | (_ & p & P & _ & _ & [[_ ->] | [_ ->]])]];
    cbn [processedAssets]; [done| | |];
    apply elem_of_union; left; by apply elem_of_singleton.
Qed.

Lemma visit_Listed assets st i a :
  UniqueIds assets → assets !! i = Some a →
  Listed assets st → Listed assets (visit (assetMap assets) st (i, a)).
Proof.
  intros Huniq Hi Hst k b Hk Hin.
  assert (Hown : itemIdOf b = itemIdOf a → ∀ g K,
            ∃ K' q, At (push K i g) K' q k).
  { intros Hid g K. assert (k = i) as -> by (by eapply Huniq).
    eexists _, _. apply InventoryFacts.At_push_new. }
  destruct (InventoryFacts.visit_cases (assetMap assets) st i a)
    as [[_ Heq] | [(_ & _ & Heq) | (_ & p & P & Hparent & Hp & [[Hnew Heq] | [Hold Heq]])]];
    rewrite Heq in Hin |- *; cbn [processedAssets grouped] in *.
  - exact (Hst k b Hk Hin).
  - apply elem_of_union in Hin as [Hin | Hin].
    + apply elem_of_singleton in Hin. by apply Hown.
    + destruct (Hst k b Hk Hin) as (K & q & HAt). exists K, q.
      by apply InventoryFacts.At_push_mono.
  - apply elem_of_union in Hin as [Hin | Hin].
    { apply elem_of_singleton in Hin. by apply Hown. }
    apply elem_of_union in Hin as [Hin | Hin].
    + apply elem_of_singleton in Hin.
      apply InventoryFacts.getParent_Some in Hparent as (l & _ & Hl).
      apply InventoryFacts.assetMap_sound in Hl as (HP & _ & _).
      assert (k = p) as -> by (by eapply Huniq).
      exists (parentKeyOf P), 0%nat. apply InventoryFacts.At_push_mono.
      exists [p]. by rewrite lookup_insert_eq.
    + destruct (Hst k b Hk Hin) as (K & q & HAt). exists K, q.
      by apply InventoryFacts.At_push_mono, InventoryFacts.At_insert_mono.
  - apply elem_of_union in Hin as [Hin | Hin].
    + apply elem_of_singleton in Hin. by apply Hown.
    + destruct (Hst k b Hk Hin) as (K & q & HAt). exists K, q.
      by apply InventoryFacts.At_push_mono.
Qed.

Lemma foldl_Listed assets L :
  UniqueIds assets →
  ∀ st, (∀ i a, (i, a) ∈ L → assets !! i = Some a) →
        Listed assets st → Listed assets (foldl (visit (assetMap assets)) st L).
Proof.
  intros Huniq. induction L as [|[i a] L IH]; intros st HL Hst; [done|].
  cbn [foldl]. apply IH.
  - intros k b Hin. apply HL. by right.
  - apply visit_Listed; [done| |done]. apply HL. by left.
Qed.

(** X26. With unique record ids, no asset is lost by the grouping: every
    asset of the list is in some group of the result. *)
Theorem every_asset_is_listed (assets : list EVEAsset) (i : nat) (A : EVEAsset) :
  UniqueIds assets →
  assets !! i = Some A →
  ∃ K q, At (groupAssetsByLocation assets) K q i.
Proof.
  intros Huniq Hi.
  destruct (InventoryFacts.imap_pair_split assets i A Hi) as (L1 & L2 & Hsplit & HL1).
  unfold groupAssetsByLocation. rewrite Hsplit, foldl_app. cbn [foldl].
  set (st1 := foldl (visit (assetMap assets)) {| grouped := ∅; processedAssets := ∅ |} L1).
  assert (Hst1 : Listed assets st1).
  { apply foldl_Listed; [done| |].
    - intros k a Hin. by apply HL1.
    - intros k a _ Hin. cbn in Hin. by apply not_elem_of_empty in Hin. }
  destruct (visit_Listed assets st1 i A Huniq Hi Hst1 i A Hi (visit_marks _ _ _ _))
    as (K & q & HAt).
  exists K, q. by apply InventoryFacts.foldl_At_mono.
Qed.

Lemma every_asset_is_listed_witness :
  ∃ K q, At (groupAssetsByLocation fitted) K q 1%nat.
Proof.
  apply (every_asset_is_listed fitted 1 (item 2 60003760 "Hangar")).
  - intros [|[|i]] [|[|j]] a b Ha Hb; simpl in Ha, Hb; try done;
      injection Ha as <-; injection Hb as <-; vm_compute; done.
  - reflexivity.
Defined.

End InventoryCoverage.

(* ===================================================================== *)
(** * The IPC handlers *)
(* ===================================================================== *)

Module IPCHandlersFacts.
Import AuthStore ESIAuthManager IPCHandlers.

(** The authorization flow does not touch the credential store. *)
Lemma handleCallback_store now url w :
  characters (snd (handleCallback now url w)) = characters w
  ∧ last_selected_character (snd (handleCallback now url w)) = last_selected_character w.
Proof.
  unfold handleCallback.
  destruct (truthyS (searchParams_get "error" url)); [done|].
  run_M.
  destruct (negb (bool_decide _)); [done|].
  destruct (negb (truthyS (searchParams_get "code" url))); [done|].
  destruct (negb (truthyS (codeVerifier w))); [done|].
  unfold exchangeCodeForTokens, postToken. cbn [tokenEndpoint send].
  destruct (tokenEndpoint w) as [|[t|e|txt] trest]; try done.
  unfold getCharacterInfo. cbn [verifyEndpoint send set_tokenEndpoint].
  destruct (verifyEndpoint w) as [|[v|txt|txt] vrest]; done.
Qed.

Section WithCipher.
Context `{Cipher} (describe : Error → string).

(** X27. The handler of the callback stores what the flow returns: when it
    succeeds, the credential it returns is the one the flow produced and the
    one the store gives back for that character; when it fails, the store is
    as it was and the error is the flow's, under the handler's prefix. *)
Theorem handleAuthCallback_stores_the_credential now url w :
  match fst (handleAuthCallback describe now url w) with
  | Ok auth =>
      fst (handleCallback now url w) = Ok auth
      ∧ getCharacterAuth (character_id auth) (snd (handleAuthCallback describe now url w))
        = Some auth
  | Throw e =>
      characters (snd (handleAuthCallback describe now url w)) = characters w
      ∧ ∃ cause, fst (handleCallback now url w) = Throw cause
                 ∧ e = JsError ("Authentication callback failed: " +:+ describe cause)
  end.
Proof.
  unfold handleAuthCallback, rethrow. run_M.
  pose proof (handleCallback_store now url w) as [Hchars _].
  destruct (handleCallback now url w) as [[auth | cause] w1]; cbn [fst snd] in *.
  - split; [done|].
    unfold getCharacterAuth, storeCharacterAuth.
    destruct (negb (truthyN (last_selected_character w1)));
      cbn [characters set_store]; rewrite lookup_insert_eq;
      cbn [access_token refresh_token]; rewrite !decrypt_encrypt; by destruct auth.
  - split; [done|]. by exists cause.
Qed.

End WithCipher.

End IPCHandlersFacts.

(* ===================================================================== *)
(** * A session serves one callback *)
(* ===================================================================== *)

Module AuthorizationReplay.
Import ESIAuthManager.

(** X28. Once a callback has succeeded, the session it used is spent: any
    further callback, the same one included, is rejected before anything is
    sent, until a new authorization is initiated. *)
Theorem callback_after_success_is_rejected now now' url url' w :
  isOk (fst (handleCallback now url w)) = true →
  isOk (fst (handleCallback now' url' (snd (handleCallback now url w)))) = false
  ∧ snd (handleCallback now' url' (snd (handleCallback now url w)))
    = snd (handleCallback now url w).
Proof.
  intros Hok.
  pose proof (ESIAuthManagerFacts.handleCallback_session now url w) as Hsession.
  destruct (handleCallback now url w) as [[auth | e] w1]; cbn [fst snd isOk] in *; [|done].
  destruct Hsession as [Hverifier _].
  unfold handleCallback.
  destruct (truthyS (searchParams_get "error" url')); [done|].
  run_M.
  destruct (negb (bool_decide _)); [done|].
  destruct (negb (truthyS (searchParams_get "code" url'))); [done|].
  by rewrite Hverifier.
Qed.

Lemma callback_after_success_is_rejected_witness :
  isOk (fst (handleCallback 2000 grantedUrl (snd (handleCallback 1000 grantedUrl grantingWorld))))
  = false
  ∧ snd (handleCallback 2000 grantedUrl (snd (handleCallback 1000 grantedUrl grantingWorld)))
    = snd (handleCallback 1000 grantedUrl grantingWorld).
Proof.
  apply (callback_after_success_is_rejected 1000 2000 grantedUrl grantedUrl grantingWorld).
  reflexivity.
Defined.

End AuthorizationReplay.
